(** * ttk: a terminal widget toolkit (Go), shallow embedding and properties

    The development follows the Go sources file by file:
    - [ttk.go]    : the ANSI escape codec ([Color], [DecodeColor],
                    [EscapedLen], [Unescape]) and the package globals;
    - [window.go] : the cell store ([printf], [setCell]) and the focus
                    navigation ([focusWidget], [focusNext],
                    [focusPrevious]);
    - [edit.go]   : the single-line editor;
    - [list.go]   : the scrolling list;
    - [label.go]  : the label and the status line.

    Go values are represented as follows.  A Go [string] is its byte
    sequence ([list byte]); a [rune] and every [int] is a [Z], with the
    64-bit wrap-around of [int] arithmetic written out by [Int.wrap];
    a run-time panic is the [Panic] outcome.  Mutations that happened
    before a panic stay visible in the state, as they do on the Go heap. *)

From Stdlib Require Import ZArith List Lia Strings.Byte String DecimalString.
From stdpp Require Import base list gmap.
Import ListNotations.
Open Scope Z_scope.

(** ** Outcomes of Go computations *)

(** A Go call either returns, panics, or (in the model only) exhausts the
    fuel of one of its loops.  Every loop below is given enough fuel, and
    this is proved where a claim depends on it. *)
Inductive outcome (A : Type) : Type :=
| Return (a : A)
| Panic
| Timeout.
Arguments Return {A} a.
Arguments Panic {A}.
Arguments Timeout {A}.

#[global] Instance outcome_ret : MRet outcome := fun _ a => Return a.
#[global] Instance outcome_bind : MBind outcome := fun _ _ f m =>
  match m with
  | Return a => f a
  | Panic => Panic
  | Timeout => Timeout
  end.

Definition returns {A} (m : outcome A) : Prop := exists a, m = Return a.

(** ** Go's [int]: 64-bit two's complement *)

Module Int.
Definition min : Z := - 2 ^ 63.
Definition max : Z := 2 ^ 63 - 1.
Definition wrap (z : Z) : Z := (z + 2 ^ 63) mod 2 ^ 64 - 2 ^ 63.
Definition add (a b : Z) : Z := wrap (a + b).
Definition sub (a b : Z) : Z := wrap (a - b).
Definition mul (a b : Z) : Z := wrap (a * b).
Definition in_range (z : Z) : Prop := min <= z <= max.

End Int.

Infix "+i" := Int.add (at level 50, left associativity).
Infix "-i" := Int.sub (at level 50, left associativity).
Infix "*i" := Int.mul (at level 40, left associativity).

(** ** Go strings and the [strings] package *)

Abbreviation gostring := (list byte).
Abbreviation rune := Z (only parsing).

Definition str (s : string) : gostring := list_byte_of_string s.

Definition len {A} (s : list A) : Z := Z.of_nat (length s).

Definition byte_val (b : byte) : Z := Z.of_N (Byte.to_N b).

Definition byte_of_Z (z : Z) : byte :=
  match Byte.of_N (Z.to_N (z mod 256)) with
  | Some b => b
  | None => x00
  end.

Definition byte_eqb (a b : byte) : bool := Byte.eqb a b.

(** [s[lo:hi]]; Go panics when the bounds are out of range. *)
Definition slice {A} (s : list A) (lo hi : Z) : outcome (list A) :=
  if (0 <=? lo) && (lo <=? hi) && (hi <=? len s)
  then Return (take (Z.to_nat (hi - lo)) (drop (Z.to_nat lo) s))
  else Panic.

(** [s[lo:]] *)
Definition slice_from {A} (s : list A) (lo : Z) : outcome (list A) :=
  slice s lo (len s).

(** [s[:hi]] *)
Definition slice_to {A} (s : list A) (hi : Z) : outcome (list A) :=
  slice s 0 hi.

(** [strings.HasPrefix] *)
Fixpoint strings_HasPrefix (s prefix : gostring) : bool :=
  match prefix, s with
  | [], _ => true
  | p :: prefix', c :: s' => byte_eqb c p && strings_HasPrefix s' prefix'
  | _ :: _, [] => false
  end.

(** [strings.HasSuffix] *)
Definition strings_HasSuffix (s suffix : gostring) : bool :=
  strings_HasPrefix (rev s) (rev suffix).

(** [strings.Index]: the byte offset of the first occurrence of [sep],
    or -1. *)
Fixpoint strings_Index (s sep : gostring) : Z :=
  if strings_HasPrefix s sep then 0
  else match s with
       | [] => -1
       | _ :: s' =>
           let i := strings_Index s' sep in
           if i <? 0 then -1 else i + 1
       end.

(** [strings.Split(s, sep)] for a one-byte separator, the only use the
    package makes of it. *)
Fixpoint strings_Split (s : gostring) (sep : byte) : list gostring :=
  match s with
  | [] => [[]]
  | c :: s' =>
      if byte_eqb c sep then [] :: strings_Split s' sep
      else match strings_Split s' sep with
           | [] => [[c]]
           | f :: fs => (c :: f) :: fs
           end
  end.

(** [strings.Repeat]; panics on a negative count. *)
Definition strings_Repeat (s : gostring) (count : Z) : outcome gostring :=
  if count <? 0 then Panic
  else Return (concat (replicate (Z.to_nat count) s)).

(** ** The [strconv] package *)

Inductive numerr := ErrSyntax | ErrRange.

(** [fmt.Sprintf("%v", n)] for an [int] *)
Definition strconv_Itoa (n : Z) : gostring :=
  str (NilZero.string_of_int (Z.to_int n)).

Definition digit_of (b : byte) : option Z :=
  let v := byte_val b in
  if (48 <=? v) && (v <=? 57) then Some (v - 48) else None.

(** The loop of [strconv.ParseUint(s, 10, 64)]: a byte that is no digit
    is a syntax error, an accumulator leaving [uint64] a range error,
    whichever comes first from the left. *)
Fixpoint parse_uint (n : Z) (s : gostring) : Z + numerr :=
  match s with
  | [] => inl n
  | c :: s' =>
      match digit_of c with
      | None => inr ErrSyntax
      | Some d =>
          let n1 := n * 10 + d in
          if n1 >? 2 ^ 64 - 1 then inr ErrRange else parse_uint n1 s'
      end
  end.

(** [strconv.Atoi]: an optional sign, then at least one decimal digit;
    the value has to fit [int]. *)
Definition strconv_Atoi (s : gostring) : Z + numerr :=
  let '(neg, ds) :=
    match s with
    | c :: s' =>
        if byte_eqb c "-" then (true, s')
        else if byte_eqb c "+" then (false, s')
        else (false, s)
    | [] => (false, s)
    end in
  match ds with
  | [] => inr ErrSyntax
  | _ =>
      match parse_uint 0 ds with
      | inr e => inr e
      | inl un =>
          if negb neg && (un >=? 2 ^ 63) then inr ErrRange
          else if neg && (un >? 2 ^ 63) then inr ErrRange
          else inl (if neg then - un else un)
      end
  end.

(** ** termbox: the constants of the terminal backend

    [termbox.Attribute] is a 16-bit value; the colours count from
    [ColorDefault = 0], the attribute bits start at bit 9.  A
    [termbox.Key] is a 16-bit value: the function keys count down from
    [0xFFFF], the control keys are their ASCII codes. *)
Module termbox.
Definition ColorDefault : Z := 0.
Definition AttrBold : Z := Z.shiftl 1 9.
Definition AttrUnderline : Z := Z.shiftl 1 10.
Definition AttrReverse : Z := Z.shiftl 1 11.

Definition KeyDelete : Z := 0xFFFF - 13.
Definition KeyHome : Z := 0xFFFF - 14.
Definition KeyEnd : Z := 0xFFFF - 15.
Definition KeyArrowLeft : Z := 0xFFFF - 20.
Definition KeyArrowRight : Z := 0xFFFF - 21.

Definition KeyCtrlA : Z := 0x01.
Definition KeyCtrlE : Z := 0x05.
Definition KeyBackspace : Z := 0x08.
Definition KeyEnter : Z := 0x0D.
Definition KeyCtrlU : Z := 0x15.
Definition KeySpace : Z := 0x20.
Definition KeyBackspace2 : Z := 0x7F.
End termbox.

(** ** ttk.go: constants, errors, attributes *)

Definition ANSIFg : Z := 30.
Definition ANSIBg : Z := 40.

Definition AttrNA : Z := -1.
Definition AttrReset : Z := 0.
Definition AttrBold : Z := 1.
Definition AttrUnderline : Z := 3.
Definition AttrReverse : Z := 7.

Definition ColorBlack : Z := 0.
Definition ColorRed : Z := 1.
Definition ColorGreen : Z := 2.
Definition ColorYellow : Z := 3.
Definition ColorBlue : Z := 4.
Definition ColorMagenta : Z := 5.
Definition ColorCyan : Z := 6.
Definition ColorWhite : Z := 7.

Inductive error :=
| ErrNotEscSequence
| ErrInvalidColor
| ErrInvalidAttribute
| ErrInvalidForeground
| ErrInvalidBackground
| ErrWidgetNotRegistered
| NumError (func : string) (num : gostring) (err : numerr).

(** A Go result [(value, error)] with [error == nil] or not. *)
Inductive result (A : Type) : Type :=
| Ok (a : A)
| Err (e : error).
Arguments Ok {A} a.
Arguments Err {A} e.

Record Attributes := mkAttributes { Fg : Z; Bg : Z }.

Definition ESC : byte := x1b.

(** The escape marker ["\x1b["]. *)
Definition esc_marker : gostring := [ESC; "["%byte].

(** *** Color *)

Definition Color (at_ fg bg : Z) : result gostring :=
  if (at_ =? AttrNA) && (fg =? AttrNA) && (bg =? AttrNA)
  then Err ErrInvalidColor
  else
    let a :=
      if at_ =? AttrNA then Ok []
      else if (at_ =? AttrBold) || (at_ =? AttrUnderline)
              || (at_ =? AttrReverse) || (at_ =? AttrReset)
           then Ok (strconv_Itoa at_ ++ str ";")
           else Err ErrInvalidAttribute in
    match a with
    | Err e => Err e
    | Ok a =>
        let f :=
          if fg =? AttrNA then Ok []
          else if (fg >=? ColorBlack) && (fg <=? ColorWhite)
               then Ok (strconv_Itoa (fg +i ANSIFg) ++ str ";")
               else Err ErrInvalidForeground in
        match f with
        | Err e => Err e
        | Ok f =>
            let b :=
              if bg =? AttrNA then Ok []
              else if (bg >=? ColorBlack) && (bg <=? ColorWhite)
                   then Ok (strconv_Itoa (bg +i ANSIBg) ++ str ";")
                   else Err ErrInvalidBackground in
            match b with
            | Err e => Err e
            | Ok b =>
                let es := esc_marker ++ a ++ f ++ b in
                (* replace last ; with m *)
                Ok (take (length es - 1) es ++ str "m")
            end
        end
    end.

(** *** DecodeColor *)

(** One round of the loop over the parameters: strip the terminator,
    parse, dispatch on the number. *)
Definition DecodeColor_field (fg bg : Z) (a : Attributes) (foundM : bool)
    (v : gostring) : outcome (result (Attributes * bool)) :=
  '(v, foundM) ←
    (if strings_HasSuffix v (str "m")
     then v' ← slice_to v (len v - 1); mret (v', true)
     else mret (v, foundM));
  match strconv_Atoi v with
  | inr e => mret (Err (NumError "Atoi" v e))
  | inl n =>
      if n =? AttrReset then
        (* return defaults *)
        mret (Ok (mkAttributes fg bg, foundM))
      else if n =? AttrBold then
        mret (Ok (mkAttributes (Z.lor (Fg a) termbox.AttrBold) (Bg a), foundM))
      else if n =? AttrUnderline then
        mret (Ok (mkAttributes (Z.lor (Fg a) termbox.AttrUnderline) (Bg a), foundM))
      else if n =? AttrReverse then
        mret (Ok (mkAttributes (Z.lor (Fg a) termbox.AttrReverse) (Bg a), foundM))
      else if (n >=? ColorBlack + ANSIFg) && (n <=? ColorWhite + ANSIFg) then
        (* note that termbox colors are off by one *)
        mret (Ok (mkAttributes (Z.lor (Fg a) (n - ANSIFg + 1)) (Bg a), foundM))
      else if (n >=? ColorBlack + ANSIBg) && (n <=? ColorWhite + ANSIBg) then
        mret (Ok (mkAttributes (Fg a) (Z.lor (Bg a) (n - ANSIBg + 1)), foundM))
      else mret (Err ErrNotEscSequence)
  end.

Fixpoint DecodeColor_loop (fg bg : Z) (a : Attributes) (foundM : bool)
    (parameters : list gostring) : outcome (result (Attributes * bool)) :=
  match parameters with
  | [] => mret (Ok (a, foundM))
  | v :: rest =>
      r ← DecodeColor_field fg bg a foundM v;
      match r with
      | Err e => mret (Err e)
      | Ok (a', foundM') => DecodeColor_loop fg bg a' foundM' rest
      end
  end.

(** [fg] and [bg] are the package's default colours, read by the reset
    code.  The result is the decoded attributes and [skip]. *)
Definition DecodeColor (fg bg : Z) (esc : gostring)
  : outcome (result (Attributes * Z)) :=
  if (len esc <? 2) || negb (strings_HasPrefix esc esc_marker)
  then mret (Err ErrNotEscSequence)
  else
    (* find trailing m *)
    tail ← slice_from esc 2;
    let i := strings_Index tail (str "m") in
    if i =? -1 then mret (Err ErrNotEscSequence)
    else
      body ← slice esc 2 (i + 2 + 1);
      r ← DecodeColor_loop fg bg (mkAttributes 0 0) false
            (strings_Split body ";");
      match r with
      | Err e => mret (Err e)
      | Ok (a, foundM) =>
          if negb foundM then mret (Err ErrNotEscSequence)
          else
            let skip := strings_Index esc (str "m") in
            if skip =? -1 then mret (Err ErrNotEscSequence) (* can't happen *)
            else mret (Ok (a, skip + 1)) (* character past m *)
      end.

(** *** The attributes a triple stands for

    What the package documents for each field of a triple: the reset code
    yields the default colours, the other attribute codes set their termbox
    bit in the foreground, and a colour index is stored off by one (termbox
    counts its colours from [ColorDefault = 0]). *)
Definition Attributes_of (fg bg : Z) (at_ f b : Z) : Attributes :=
  let a0 :=
    if at_ =? AttrReset then mkAttributes fg bg
    else if at_ =? AttrBold then mkAttributes termbox.AttrBold 0
    else if at_ =? AttrUnderline then mkAttributes termbox.AttrUnderline 0
    else if at_ =? AttrReverse then mkAttributes termbox.AttrReverse 0
    else mkAttributes 0 0 in
  let a1 :=
    if f =? AttrNA then a0
    else mkAttributes (Z.lor (Fg a0) (f + 1)) (Bg a0) in
  if b =? AttrNA then a1
  else mkAttributes (Fg a1) (Z.lor (Bg a1) (b + 1)).

Definition valid_attribute (at_ : Z) : Prop :=
  at_ = AttrNA \/ at_ = AttrReset \/ at_ = AttrBold
  \/ at_ = AttrUnderline \/ at_ = AttrReverse.

Definition valid_color (c : Z) : Prop :=
  c = AttrNA \/ ColorBlack <= c <= ColorWhite.


(** ** The [unicode/utf8] package *)

Module utf8.
Definition RuneError : Z := 0xFFFD.
Definition MaxRune : Z := 0x10FFFF.
Definition surrogateMin : Z := 0xD800.
Definition surrogateMax : Z := 0xDFFF.

Definition t1 : Z := 0x00.
Definition tx : Z := 0x80.
Definition t2 : Z := 0xC0.
Definition t3 : Z := 0xE0.
Definition t4 : Z := 0xF0.

Definition maskx : Z := 0x3F.
Definition mask2 : Z := 0x1F.
Definition mask3 : Z := 0x0F.
Definition mask4 : Z := 0x07.

Definition rune1Max : Z := 0x7F.
Definition rune2Max : Z := 0x7FF.
Definition rune3Max : Z := 0xFFFF.

Definition locb : Z := 0x80.
Definition hicb : Z := 0xBF.

(** The entries of the table [first]: the low three bits are the size,
  the high four bits index [acceptRanges]. *)
Definition xx : Z := 0xF1. (* invalid: size 1 *)
Definition as_ : Z := 0xF0. (* ASCII: size 1 *)
Definition s1 : Z := 0x02. (* accept 0, size 2 *)
Definition s2 : Z := 0x13. (* accept 1, size 3 *)
Definition s3 : Z := 0x03. (* accept 0, size 3 *)
Definition s4 : Z := 0x23. (* accept 2, size 3 *)
Definition s5 : Z := 0x34. (* accept 3, size 4 *)
Definition s6 : Z := 0x04. (* accept 0, size 4 *)
Definition s7 : Z := 0x44. (* accept 4, size 4 *)

(** [first[b]], the table written by its runs. *)
Definition first (b : Z) : Z :=
if b <? 0x80 then as_
else if b <? 0xC2 then xx
else if b <? 0xE0 then s1
else if b =? 0xE0 then s2
else if b <? 0xED then s3
else if b =? 0xED then s4
else if b <? 0xF0 then s3
else if b =? 0xF0 then s5
else if b <? 0xF4 then s6
else if b =? 0xF4 then s7
else xx.

(** [acceptRanges[i]] as the pair [(lo, hi)]. *)
Definition acceptRanges (i : Z) : Z * Z :=
if i =? 0 then (locb, hicb)
else if i =? 1 then (0xA0, hicb)
else if i =? 2 then (locb, 0x9F)
else if i =? 3 then (0x90, hicb)
else if i =? 4 then (locb, 0x8F)
else (0, 0).

(** [s[i]] where the source has checked [i < len(s)]. *)
Definition at_ (s : gostring) (i : nat) : Z := byte_val (nth i s x00).

(** [utf8.DecodeRuneInString]: the rune and its width in bytes. *)
Definition DecodeRuneInString (s : gostring) : Z * Z :=
let n := len s in
if n <? 1 then (RuneError, 0)
else
  let s0 := at_ s 0 in
  let x := first s0 in
  if x >=? as_ then
    let mask := if Z.testbit x 0 then -1 else 0 in
    (Z.lor (Z.land s0 (Z.lnot mask)) (Z.land RuneError mask), 1)
  else
    let sz := Z.land x 7 in
    let '(lo, hi) := acceptRanges (Z.shiftr x 4) in
    if n <? sz then (RuneError, 1)
    else
      let s1 := at_ s 1 in
      if (s1 <? lo) || (hi <? s1) then (RuneError, 1)
      else if sz <=? 2 then
        (Z.lor (Z.shiftl (Z.land s0 mask2) 6) (Z.land s1 maskx), 2)
      else
        let s2 := at_ s 2 in
        if (s2 <? locb) || (hicb <? s2) then (RuneError, 1)
        else if sz <=? 3 then
          (Z.lor (Z.lor (Z.shiftl (Z.land s0 mask3) 12)
                        (Z.shiftl (Z.land s1 maskx) 6))
                 (Z.land s2 maskx), 3)
        else
          let s3 := at_ s 3 in
          if (s3 <? locb) || (hicb <? s3) then (RuneError, 1)
          else
            (Z.lor (Z.lor (Z.lor (Z.shiftl (Z.land s0 mask4) 18)
                                 (Z.shiftl (Z.land s1 maskx) 12))
                          (Z.shiftl (Z.land s2 maskx) 6))
                   (Z.land s3 maskx), 4).

(** The three-byte and four-byte forms of [EncodeRune]. *)
Definition encode3 (r : Z) : gostring :=
[ byte_of_Z (Z.lor t3 (Z.shiftr r 12));
  byte_of_Z (Z.lor tx (Z.land (Z.shiftr r 6) maskx));
  byte_of_Z (Z.lor tx (Z.land r maskx)) ].

Definition encode4 (r : Z) : gostring :=
[ byte_of_Z (Z.lor t4 (Z.shiftr r 18));
  byte_of_Z (Z.lor tx (Z.land (Z.shiftr r 12) maskx));
  byte_of_Z (Z.lor tx (Z.land (Z.shiftr r 6) maskx));
  byte_of_Z (Z.lor tx (Z.land r maskx)) ].

(** [utf8.EncodeRune], returning the bytes written.  The switch is on
  [uint32(r)]. *)
Definition EncodeRune (r : Z) : gostring :=
let i := r mod 2 ^ 32 in
if i <=? rune1Max then [ byte_of_Z r ]
else if i <=? rune2Max then
  [ byte_of_Z (Z.lor t2 (Z.shiftr r 6));
    byte_of_Z (Z.lor tx (Z.land r maskx)) ]
else if (i >? MaxRune) || ((surrogateMin <=? i) && (i <=? surrogateMax))
then encode3 RuneError
else if i <=? rune3Max then encode3 r
else encode4 r.
End utf8.

(** The conversion [string(r)] of a rune. *)
Definition string_of_rune (r : Z) : gostring := utf8.EncodeRune r.

(** The conversion [string(rs)] of a [[]rune]. *)
Definition string_of_runes (rs : list Z) : gostring :=
  concat (map string_of_rune rs).

(** The conversion [[]rune(s)]: the runes of [s], each ill-formed byte
    giving [RuneError]. *)
Fixpoint runes_of_string_loop (fuel : nat) (s : gostring) : list Z :=
  match fuel, s with
  | _, [] => []
  | O, _ => []
  | S fuel', _ =>
      let '(v, width) := utf8.DecodeRuneInString s in
      v :: runes_of_string_loop fuel' (drop (Z.to_nat width) s)
  end.

Definition runes_of_string (s : gostring) : list Z :=
  runes_of_string_loop (length s) s.

(** ** ttk.go: EscapedLen and Unescape

    In both loops the index [i] only serves to take [s[i:]]; the model
    carries that unread suffix.  [i += rw] is [drop rw], and the guard
    [i < len(s)] is the suffix being non-empty. *)

Fixpoint EscapedLen_loop (fg bg : Z) (fuel : nat) (s : gostring) (total : Z)
  : outcome Z :=
  match s with
  | [] => mret total
  | _ =>
      match fuel with
      | O => Timeout
      | S fuel' =>
          let '(v, width) := utf8.DecodeRuneInString s in
          if v =? byte_val ESC then
            r ← DecodeColor fg bg s;
            match r with
            | Ok (_, skip) =>
                EscapedLen_loop fg bg fuel' (drop (Z.to_nat skip) s)
                  (total +i skip)
            | Err _ =>
                EscapedLen_loop fg bg fuel' (drop (Z.to_nat width) s) total
            end
          else EscapedLen_loop fg bg fuel' (drop (Z.to_nat width) s) total
      end
  end.

(** EscapedLen returns total length of all escape sequences in a given
    string. *)
Definition EscapedLen (fg bg : Z) (s : gostring) : outcome Z :=
  if len s =? 0 then mret 0
  else EscapedLen_loop fg bg (length s) s 0.

Fixpoint Unescape_loop (fg bg : Z) (fuel : nat) (s : gostring) (ret : gostring)
  : outcome gostring :=
  match s with
  | [] => mret ret
  | _ =>
      match fuel with
      | O => Timeout
      | S fuel' =>
          let '(v, width) := utf8.DecodeRuneInString s in
          if v =? byte_val ESC then
            r ← DecodeColor fg bg s;
            match r with
            | Ok (_, skip) =>
                Unescape_loop fg bg fuel' (drop (Z.to_nat skip) s) ret
            | Err _ =>
                Unescape_loop fg bg fuel' (drop (Z.to_nat width) s)
                  (ret ++ string_of_rune v)
            end
          else
            Unescape_loop fg bg fuel' (drop (Z.to_nat width) s)
              (ret ++ string_of_rune v)
      end
  end.

(** Unescape returns the unescaped string. *)
Definition Unescape (fg bg : Z) (s : gostring) : outcome gostring :=
  if len s =? 0 then mret []
  else Unescape_loop fg bg (length s) s [].

(** ** Cells, events, widgets, windows: the data model *)

(** [termbox.Cell] with the dirty bit of [ttk.Cell]. *)
Record Cell := mkCell {
  Ch : Z;
  cell_Fg : Z;
  cell_Bg : Z;
  dirty : bool (* like your mom *)
}.

(** The fields of [termbox.Event] the package reads. *)
Record Event := mkEvent {
  ev_Mod : Z;
  ev_Key : Z;
  ev_Ch : Z
}.

Inductive Visibility := VisibilityGet | VisibilityHide | VisibilityShow.

Inductive Justify := JustifyLeft | JustifyRight | JustifyCenter.

(** A [*string]: a location of the store of string variables; [None] is
    the nil pointer. *)
Definition loc : Type := nat.

(** label.go: [Label], with the anchor of the embedded [Widget]. *)
Record Label := mkLabel {
  lb_x : Z; (* anchor x *)
  lb_y : Z; (* anchor y *)
  lb_trueX : Z;
  lb_trueY : Z;
  lb_text : gostring;
  lb_attr : Attributes;
  lb_status : bool; (* status means fill entire line *)
  lb_justify : Justify;
  lb_visibility : Visibility
}.

(** edit.go: [Edit], with the anchor of the embedded [Widget]. *)
Record Edit := mkEdit {
  e_x : Z; (* anchor x *)
  e_y : Z; (* anchor y *)
  e_trueX : Z; (* actual x coordinate *)
  e_trueY : Z; (* actual y coordinate *)
  e_trueW : Z; (* actual width *)
  e_target : option loc; (* result value of action *)
  e_display : list Z; (* target as runes *)
  e_at : Z; (* start of displayed text *)
  e_width : Z; (* prefered widget width *)
  e_cx : Z; (* current cursor x position *)
  e_cy : Z; (* current cursor y position *)
  e_prevX : Z; (* previous window max x *)
  e_prevY : Z; (* previous window max y *)
  e_visibility : Visibility;
  e_attr : Attributes
}.

(** list.go: [List].  [content] is a slice: its elements and its capacity;
    the cells between length and capacity hold the empty string, since the
    package only ever appends to it. *)
Record List := mkList {
  l_x : Z; (* anchor x *)
  l_y : Z; (* anchor y *)
  l_width : Z;
  l_height : Z;
  l_trueW : Z;
  l_trueH : Z;
  l_trueX : Z;
  l_trueY : Z;
  l_at : Z; (* top line being displayed *)
  l_paging : bool; (* paging in progress? *)
  l_attr : Attributes;
  l_content : list gostring;
  l_content_cap : Z; (* cap(content) *)
  l_visibility : Visibility
}.

(** The widgets are held through the [Widgeter] interface; the three
    implementations of the package are its cases. *)
Inductive Widgeter :=
| WLabel (l : Label)
| WEdit (e : Edit)
| WList (l : List).

(** window.go: [Window].  The manager [mgr] belongs to the application.
    A widget's back pointer [w] is the window that holds it, and a
    [*Edit] or [*List] is its index in [widgets]. *)
Record Window := mkWindow {
  w_id : Z; (* window id *)
  w_x : Z; (* max x *)
  w_y : Z; (* max y *)
  backingStore : list Cell; (* output buffer *)
  widgets : list Widgeter; (* window widgets *)
  w_focus : Z (* currently focused widget *)
}.

(** The mutable state the widgets of one window see: the window, the
    strings behind the edit targets, the terminal cursor and the package
    defaults [fg] and [bg]. *)
Record World := mkWorld {
  win : Window; (* the window under consideration *)
  heap : gmap loc gostring; (* the string variables widgets point to *)
  cursor : Z * Z; (* the terminal's cursor, set by termbox.SetCursor *)
  fg : Z; (* default foreground color *)
  bg : Z (* default background color *)
}.

(** Field updates. *)
Definition set_e_trueX (v : Z) (r : Edit) : Edit :=
  mkEdit (e_x r) (e_y r) v (e_trueY r) (e_trueW r) (e_target r) (e_display r) (e_at r) (e_width r) (e_cx r) (e_cy r) (e_prevX r) (e_prevY r) (e_visibility r) (e_attr r).
Definition set_e_trueY (v : Z) (r : Edit) : Edit :=
  mkEdit (e_x r) (e_y r) (e_trueX r) v (e_trueW r) (e_target r) (e_display r) (e_at r) (e_width r) (e_cx r) (e_cy r) (e_prevX r) (e_prevY r) (e_visibility r) (e_attr r).
Definition set_e_trueW (v : Z) (r : Edit) : Edit :=
  mkEdit (e_x r) (e_y r) (e_trueX r) (e_trueY r) v (e_target r) (e_display r) (e_at r) (e_width r) (e_cx r) (e_cy r) (e_prevX r) (e_prevY r) (e_visibility r) (e_attr r).
Definition set_e_target (v : option loc) (r : Edit) : Edit :=
  mkEdit (e_x r) (e_y r) (e_trueX r) (e_trueY r) (e_trueW r) v (e_display r) (e_at r) (e_width r) (e_cx r) (e_cy r) (e_prevX r) (e_prevY r) (e_visibility r) (e_attr r).
Definition set_e_display (v : list Z) (r : Edit) : Edit :=
  mkEdit (e_x r) (e_y r) (e_trueX r) (e_trueY r) (e_trueW r) (e_target r) v (e_at r) (e_width r) (e_cx r) (e_cy r) (e_prevX r) (e_prevY r) (e_visibility r) (e_attr r).
Definition set_e_at (v : Z) (r : Edit) : Edit :=
  mkEdit (e_x r) (e_y r) (e_trueX r) (e_trueY r) (e_trueW r) (e_target r) (e_display r) v (e_width r) (e_cx r) (e_cy r) (e_prevX r) (e_prevY r) (e_visibility r) (e_attr r).
Definition set_e_width (v : Z) (r : Edit) : Edit :=
  mkEdit (e_x r) (e_y r) (e_trueX r) (e_trueY r) (e_trueW r) (e_target r) (e_display r) (e_at r) v (e_cx r) (e_cy r) (e_prevX r) (e_prevY r) (e_visibility r) (e_attr r).
Definition set_e_cx (v : Z) (r : Edit) : Edit :=
  mkEdit (e_x r) (e_y r) (e_trueX r) (e_trueY r) (e_trueW r) (e_target r) (e_display r) (e_at r) (e_width r) v (e_cy r) (e_prevX r) (e_prevY r) (e_visibility r) (e_attr r).
Definition set_e_cy (v : Z) (r : Edit) : Edit :=
  mkEdit (e_x r) (e_y r) (e_trueX r) (e_trueY r) (e_trueW r) (e_target r) (e_display r) (e_at r) (e_width r) (e_cx r) v (e_prevX r) (e_prevY r) (e_visibility r) (e_attr r).
Definition set_e_prevX (v : Z) (r : Edit) : Edit :=
  mkEdit (e_x r) (e_y r) (e_trueX r) (e_trueY r) (e_trueW r) (e_target r) (e_display r) (e_at r) (e_width r) (e_cx r) (e_cy r) v (e_prevY r) (e_visibility r) (e_attr r).
Definition set_e_prevY (v : Z) (r : Edit) : Edit :=
  mkEdit (e_x r) (e_y r) (e_trueX r) (e_trueY r) (e_trueW r) (e_target r) (e_display r) (e_at r) (e_width r) (e_cx r) (e_cy r) (e_prevX r) v (e_visibility r) (e_attr r).
Definition set_e_visibility (v : Visibility) (r : Edit) : Edit :=
  mkEdit (e_x r) (e_y r) (e_trueX r) (e_trueY r) (e_trueW r) (e_target r) (e_display r) (e_at r) (e_width r) (e_cx r) (e_cy r) (e_prevX r) (e_prevY r) v (e_attr r).
Definition set_e_attr (v : Attributes) (r : Edit) : Edit :=
  mkEdit (e_x r) (e_y r) (e_trueX r) (e_trueY r) (e_trueW r) (e_target r) (e_display r) (e_at r) (e_width r) (e_cx r) (e_cy r) (e_prevX r) (e_prevY r) (e_visibility r) v.
Definition set_l_width (v : Z) (r : List) : List :=
  mkList (l_x r) (l_y r) v (l_height r) (l_trueW r) (l_trueH r) (l_trueX r) (l_trueY r) (l_at r) (l_paging r) (l_attr r) (l_content r) (l_content_cap r) (l_visibility r).
Definition set_l_height (v : Z) (r : List) : List :=
  mkList (l_x r) (l_y r) (l_width r) v (l_trueW r) (l_trueH r) (l_trueX r) (l_trueY r) (l_at r) (l_paging r) (l_attr r) (l_content r) (l_content_cap r) (l_visibility r).
Definition set_l_trueW (v : Z) (r : List) : List :=
  mkList (l_x r) (l_y r) (l_width r) (l_height r) v (l_trueH r) (l_trueX r) (l_trueY r) (l_at r) (l_paging r) (l_attr r) (l_content r) (l_content_cap r) (l_visibility r).
Definition set_l_trueH (v : Z) (r : List) : List :=
  mkList (l_x r) (l_y r) (l_width r) (l_height r) (l_trueW r) v (l_trueX r) (l_trueY r) (l_at r) (l_paging r) (l_attr r) (l_content r) (l_content_cap r) (l_visibility r).
Definition set_l_trueX (v : Z) (r : List) : List :=
  mkList (l_x r) (l_y r) (l_width r) (l_height r) (l_trueW r) (l_trueH r) v (l_trueY r) (l_at r) (l_paging r) (l_attr r) (l_content r) (l_content_cap r) (l_visibility r).
Definition set_l_trueY (v : Z) (r : List) : List :=
  mkList (l_x r) (l_y r) (l_width r) (l_height r) (l_trueW r) (l_trueH r) (l_trueX r) v (l_at r) (l_paging r) (l_attr r) (l_content r) (l_content_cap r) (l_visibility r).
Definition set_l_at (v : Z) (r : List) : List :=
  mkList (l_x r) (l_y r) (l_width r) (l_height r) (l_trueW r) (l_trueH r) (l_trueX r) (l_trueY r) v (l_paging r) (l_attr r) (l_content r) (l_content_cap r) (l_visibility r).
Definition set_l_paging (v : bool) (r : List) : List :=
  mkList (l_x r) (l_y r) (l_width r) (l_height r) (l_trueW r) (l_trueH r) (l_trueX r) (l_trueY r) (l_at r) v (l_attr r) (l_content r) (l_content_cap r) (l_visibility r).
Definition set_l_attr (v : Attributes) (r : List) : List :=
  mkList (l_x r) (l_y r) (l_width r) (l_height r) (l_trueW r) (l_trueH r) (l_trueX r) (l_trueY r) (l_at r) (l_paging r) v (l_content r) (l_content_cap r) (l_visibility r).
Definition set_l_content (v : list gostring) (r : List) : List :=
  mkList (l_x r) (l_y r) (l_width r) (l_height r) (l_trueW r) (l_trueH r) (l_trueX r) (l_trueY r) (l_at r) (l_paging r) (l_attr r) v (l_content_cap r) (l_visibility r).
Definition set_l_content_cap (v : Z) (r : List) : List :=
  mkList (l_x r) (l_y r) (l_width r) (l_height r) (l_trueW r) (l_trueH r) (l_trueX r) (l_trueY r) (l_at r) (l_paging r) (l_attr r) (l_content r) v (l_visibility r).
Definition set_w_x (v : Z) (r : Window) : Window :=
  mkWindow (w_id r) v (w_y r) (backingStore r) (widgets r) (w_focus r).
Definition set_w_y (v : Z) (r : Window) : Window :=
  mkWindow (w_id r) (w_x r) v (backingStore r) (widgets r) (w_focus r).
Definition set_backingStore (v : list Cell) (r : Window) : Window :=
  mkWindow (w_id r) (w_x r) (w_y r) v (widgets r) (w_focus r).
Definition set_widgets (v : list Widgeter) (r : Window) : Window :=
  mkWindow (w_id r) (w_x r) (w_y r) (backingStore r) v (w_focus r).
Definition set_w_focus (v : Z) (r : Window) : Window :=
  mkWindow (w_id r) (w_x r) (w_y r) (backingStore r) (widgets r) v.
Definition set_win (v : Window) (r : World) : World :=
  mkWorld v (heap r) (cursor r) (fg r) (bg r).
Definition set_heap (v : gmap loc gostring) (r : World) : World :=
  mkWorld (win r) v (cursor r) (fg r) (bg r).
Definition set_cursor (v : Z * Z) (r : World) : World :=
  mkWorld (win r) (heap r) v (fg r) (bg r).
Definition set_Ch (v : Z) (r : Cell) : Cell :=
  mkCell v (cell_Fg r) (cell_Bg r) (dirty r).
Definition set_cell_Fg (v : Z) (r : Cell) : Cell :=
  mkCell (Ch r) v (cell_Bg r) (dirty r).
Definition set_cell_Bg (v : Z) (r : Cell) : Cell :=
  mkCell (Ch r) (cell_Fg r) v (dirty r).
Definition set_dirty (v : bool) (r : Cell) : Cell :=
  mkCell (Ch r) (cell_Fg r) (cell_Bg r) v.

(** ** The state monad of the queue context

    Everything below runs inside one closure of the work queue: a
    computation reads and updates the [World] and returns, panics or runs
    out of fuel.  The state reached at a panic is kept. *)

Definition M (A : Type) : Type := World -> outcome A * World.

#[global] Instance M_ret : MRet M := fun _ a s => (Return a, s).
#[global] Instance M_bind : MBind M := fun _ _ f m s =>
  match m s with
  | (Return a, s') => f a s'
  | (Panic, s') => (Panic, s')
  | (Timeout, s') => (Timeout, s')
  end.

Definition gets {A} (f : World -> A) : M A := fun s => (Return (f s), s).
Definition modify (f : World -> World) : M unit := fun s => (Return tt, f s).
Definition panic {A} : M A := fun s => (Panic, s).
Definition timeout {A} : M A := fun s => (Timeout, s).

(** A computation that does not touch the state. *)
Definition lift {A} (o : outcome A) : M A := fun s => (o, s).

(** The state a computation leaves and what it returned. *)
Definition exec {A} (m : M A) (s : World) : World := snd (m s).
Definition eval {A} (m : M A) (s : World) : outcome A := fst (m s).

(** ** ttk.go: the helpers of the queue context *)

(** defaultAttributes returns the default attributes. *)
Definition defaultAttributes : M Attributes :=
  f ← gets fg; b ← gets bg; mret (mkAttributes f b).

(** setCursor sets the cursor at the specified location.  *)
Definition setCursor (x y : Z) : M unit :=
  modify (set_cursor (x, y)).

(** ** window.go *)

Module Window.

(** setCell sets the content of the window cell at the x and y
  coordinate. *)
Definition setCell (x y : Z) (c : Cell) : M unit :=
w ← gets win;
let c := set_dirty true c in
let i := x +i (y *i w_x w) in
if (0 <=? i) && (i <? len (backingStore w))
then modify (fun s =>
       set_win (set_backingStore
                  (<[Z.to_nat i := c]> (backingStore (win s))) (win s)) s)
else panic.

(** The loop of [printf] over the unread suffix [out[i:]]. *)
Fixpoint printf_loop (fuel : nat) (x y mx : Z) (out : gostring) (xx : Z)
  (c : Cell) : M unit :=
match out with
| [] => mret tt
| _ =>
    match fuel with
    | O => timeout
    | S fuel' =>
        if x +i xx +i 1 >? mx then mret tt
        else
          let '(v, width) := utf8.DecodeRuneInString out in
          let put :=
            let c := set_Ch v c in
            setCell (x +i xx) y c;;
            printf_loop fuel' x y mx (drop (Z.to_nat width) out)
              (xx +i 1) c in
          if v =? byte_val ESC then
            (* see if we understand this escape seqeunce *)
            f ← gets fg; b ← gets bg;
            r ← lift (DecodeColor f b out);
            match r with
            | Ok (cc, skip) =>
                printf_loop fuel' x y mx (drop (Z.to_nat skip) out) xx
                  (set_cell_Bg (Bg cc) (set_cell_Fg (Fg cc) c))
            | Err _ => put
            end
          else put
    end
end.

(** printf prints into the backend buffer.  [out] is the text
  [fmt.Sprintf(format, args...)] of the call. *)
Definition printf (x y : Z) (a : Attributes) (out : gostring) : M unit :=
w ← gets win;
let c := mkCell 0 (Fg a) (Bg a) false in
let mx := w_x w -i x in
printf_loop (length out) x y mx out 0 c.

End Window.

(** ** edit.go *)

(** insert: grow the slice by one element, move the upper part out of the
    way with [copy], store the new value. *)
Definition insert (slice_ : list Z) (index : Z) (value : Z)
  : outcome (list Z) :=
  let s1 := slice_ ++ [value] in
  dst ← slice_from s1 (index +i 1);
  src ← slice_from s1 index;
  (* copy moves min(len(dst), len(src)) elements, as memmove does *)
  let n := Nat.min (length dst) (length src) in
  let s2 := take (Z.to_nat (index +i 1)) s1 ++ take n src ++ drop n dst in
  if (0 <=? index) && (index <? len s2)
  then Return (<[Z.to_nat index := value]> s2)
  else Panic.

Module Edit.

(** The receiver [e *Edit] is the index [self] of the edit among the
  widgets of its window. *)
Definition get (self : nat) : M Edit :=
w ← gets win;
match widgets w !! self with
| Some (WEdit e) => mret e
| _ => panic
end.

Definition put (self : nat) (e : Edit) : M unit :=
modify (fun s =>
  set_win (set_widgets (<[self := WEdit e]> (widgets (win s))) (win s)) s).

Definition clear (self : nat) : M unit :=
e ← get self;
a ← defaultAttributes;
blank ← lift (strings_Repeat (str " ") (e_trueW e));
Window.printf (e_trueX e) (e_trueY e) a blank.

(** Render implements the Render interface. *)
Definition Render (self : nat) : M unit :=
e ← get self;
match e_visibility e with
| VisibilityHide => clear self
| _ =>
    l ← lift (slice_from (e_display e) (e_at e));
    '(l, filler) ←
      (if len l >? e_trueW e then
         l' ← lift (slice (e_display e) (e_at e) (e_at e +i e_trueW e));
         mret (l', [])
       else
         (* just erase right hand side *)
         f ← lift (strings_Repeat (str " ") (e_trueW e -i len l));
         mret (l, f));
    Window.printf (e_trueX e) (e_trueY e) (e_attr e)
      (string_of_runes l ++ filler)
end.

(** The tail of [KeyHandler]: normal runes are displayed and stored. *)
Definition KeyHandler_rune (self : nat) (ev : Event) : M bool :=
if negb (ev_Ch ev =? 0) && negb (ev_Mod ev =? 0) && (ev_Key ev =? 0) then
  (* forward special *)
  mret false
else if ev_Ch ev =? 0 then mret false
else
  e ← get self;
  let inString := e_cx e -i e_trueX e +i e_at e in
  d ← lift (insert (e_display e) inString (ev_Ch ev));
  let e := set_e_display d e in
  (if e_cx e <? e_trueW e +i e_trueX e -i 1 then
     let e := set_e_cx (e_cx e +i 1) e in
     put self e;; setCursor (e_cx e) (e_cy e)
   else put self (set_e_at (e_at e +i 1) e));;
  Render self;;
  mret true.

(** KeyHandler implements the interface. *)
Definition KeyHandler (self : nat) (ev : Event) : M bool :=
e ← get self;
let key := ev_Key ev in
if (key =? termbox.KeyCtrlA) || (key =? termbox.KeyHome) then
  let e := set_e_at 0 (set_e_cx (e_trueX e) e) in
  put self e;;
  setCursor (e_cx e) (e_cy e);;
  Render self;;
  mret true
else if (key =? termbox.KeyCtrlE) || (key =? termbox.KeyEnd) then
  if len (e_display e) <? e_trueW e -i 1 then
    (* no need to call display *)
    let e := set_e_cx (e_trueX e +i len (e_display e) -i e_at e) e in
    put self e;;
    setCursor (e_cx e) (e_cy e);;
    mret true
  else
    let e := set_e_cx (e_trueX e +i e_trueW e -i 1) e in
    let e := set_e_at (len (e_display e) -i e_trueW e +i 1) e in
    put self e;;
    setCursor (e_cx e) (e_cy e);;
    Render self;;
    mret true
else if key =? termbox.KeyCtrlU then
  let e := set_e_display [] (set_e_at 0 (set_e_cx (e_trueX e) e)) in
  put self e;;
  setCursor (e_cx e) (e_cy e);;
  Render self;;
  mret true
else if key =? termbox.KeyArrowRight then
  (* check to see if we have content on the right hand side *)
  l ← lift (slice_from (e_display e) (e_at e));
  if e_cx e -i e_trueX e =? len l then mret true
  else
    let e := set_e_cx (e_cx e +i 1) e in
    if e_cx e >? e_trueW e +i e_trueX e -i 1 then
      let e := set_e_cx (e_trueW e +i e_trueX e -i 1) e in
      put self e;;
      (* check for end of string before moving at *)
      l ← lift (slice_from (e_display e) (e_at e));
      if len l =? 0 then mret true
      else
        put self (set_e_at (e_at e +i 1) e);;
        Render self;;
        mret true
    else
      put self e;;
      setCursor (e_cx e) (e_cy e);;
      mret true
else if key =? termbox.KeyArrowLeft then
  let e := set_e_cx (e_cx e -i 1) e in
  (if e_cx e <? e_trueX e then
     let e := set_e_cx (e_trueX e) e in
     let e := set_e_at (e_at e -i 1) e in
     let e := if e_at e <? 0 then set_e_at 0 e else e in
     put self e;;
     Render self
   else put self e);;
  e ← get self;
  setCursor (e_cx e) (e_cy e);;
  mret true
else if key =? termbox.KeyDelete then
  let inString := e_cx e -i e_trueX e +i e_at e in
  if len (e_display e) =? inString then mret true
  else
    (* remove from slice *)
    l ← lift (slice_to (e_display e) inString);
    r ← lift (slice_from (e_display e) (inString +i 1));
    put self (set_e_display (l ++ r) e);;
    Render self;;
    mret true
else if (key =? termbox.KeyBackspace) || (key =? termbox.KeyBackspace2) then
  let inString := e_cx e -i e_trueX e +i e_at e in
  if inString <=? 0 then mret true
  else
    l ← lift (slice_to (e_display e) (inString -i 1));
    r ← lift (slice_from (e_display e) inString);
    let e := set_e_display (l ++ r) e in
    (* cursor left magic *)
    let e :=
      if e_cx e =? e_trueX e +i 1 then
        let e :=
          if e_at e >? e_trueW e -i 1
          then set_e_cx (e_trueW e -i 1) e
          else set_e_cx (e_at e +i e_trueX e) e in
        if e_at e >=? e_cx e then set_e_at (e_at e -i e_cx e) e else e
      else set_e_cx (e_cx e -i 1) e in
    put self e;;
    setCursor (e_cx e) (e_cy e);;
    Render self;;
    mret true
else if key =? termbox.KeySpace then
  (* use space *)
  KeyHandler_rune self (mkEvent (ev_Mod ev) (ev_Key ev) 32)
else if key =? termbox.KeyEnter then
  match e_target e with
  | None => panic
  | Some p =>
      modify (fun s =>
        set_heap (<[p := string_of_runes (e_display e)]> (heap s)) s);;
      (* return false and let the application decide if it wants
         to consume the action *)
      mret false
  end
else KeyHandler_rune self ev.

(** CanFocus implements the interface. *)
Definition CanFocus (e : Edit) : bool := true.

(** Focus implements the interface. *)
Definition Focus (self : nat) : M unit :=
e ← get self;
let e :=
  if (e_cx e =? -1) || (e_cy e =? -1) then
    (* || is deliberate to handle "just in case" *)
    set_e_at 0 (set_e_cy (e_trueY e) (set_e_cx (e_trueX e) e))
  else e in
put self e;;
setCursor (e_cx e) (e_cy e).

(** NewEdit is the Edit initializer: every field but the anchor has its
  zero value. *)
Definition NewEdit (x y : Z) : Edit :=
mkEdit x y 0 0 0 None [] 0 0 0 0 0 0 VisibilityGet (mkAttributes 0 0).

(** SetAttributes sets the Attributes. *)
Definition SetAttributes (self : nat) (a : Attributes) : M unit :=
e ← get self; put self (set_e_attr a e).


(** SetText sets the edit text.  If [end_] is set the cursor and text
  will be set to the end of the string. *)
Definition SetText (self : nat) (s : option loc) (end_ : bool) : M unit :=
e ← get self;
let e := set_e_target s e in
put self e;;
text ← gets (fun w => match s with Some p => heap w !! p | None => None end);
match text with
| None => panic
| Some text =>
    put self (set_e_at 0 (set_e_display (runes_of_string text) e));;
    (* send synthesized key to position cursor and text *)
    let ev := mkEvent 0 (if end_ then termbox.KeyCtrlE
                         else termbox.KeyCtrlA) 0 in
    _ ← KeyHandler self ev;
    mret tt
end.

Definition Resize (self : nat) : M unit :=
e ← get self;
w ← gets win;
let inString := e_cx e -i e_trueX e +i e_at e in
let e := set_e_trueW (e_width e) (set_e_trueY (e_y e) (set_e_trueX (e_x e) e)) in
(* y<0 is relative to bottom line *)
let e := if e_y e <? 0 then set_e_trueY (w_y w +i e_y e +i 1) e else e in
(* e.width <1 means -width from right hand side *)
let e := if e_width e <? 1
         then set_e_trueW (w_x w -i e_x e +i e_width e) e else e in
(* reset cursor and at *)
let e := if negb (w_y w =? e_prevY e)
         then set_e_prevY (w_y w) (set_e_cy (e_trueY e) e) else e in
let e :=
  if negb (w_x w =? e_prevX e) then
    let e :=
      if len (e_display e) =? inString then
        (* end of text *)
        if len (e_display e) <? e_trueW e -i 1
        then set_e_at 0 (set_e_cx (e_trueX e +i len (e_display e)) e)
        else set_e_at (len (e_display e) -i e_trueW e +i 1)
               (set_e_cx (e_trueX e +i e_trueW e -i 1) e)
      else if inString <=? 0 then
        (* begin of text *)
        set_e_cx (e_trueX e) (set_e_at 0 e)
      else
        (* middle of text *)
        if e_prevX e <=? w_x w then e (* do nothing since x grew *)
        else
          (* shift location of at based on shrinkage *)
          if e_cx e >=? w_x w
          then set_e_at (e_at e +i (e_prevX e -i w_x w))
                 (set_e_cx (e_cx e -i (e_prevX e -i w_x w)) e)
          else e in
    set_e_prevX (w_x w) e
  else e in
put self e.

End Edit.

(** ** label.go *)

Module Label.

Definition get (self : nat) : M Label :=
w ← gets win;
match widgets w !! self with
| Some (WLabel l) => mret l
| _ => panic
end.

Definition put (self : nat) (l : Label) : M unit :=
modify (fun s =>
  set_win (set_widgets (<[self := WLabel l]> (widgets (win s))) (win s)) s).

(** CanFocus implements the interface. *)
Definition CanFocus (l : Label) : bool := false. (* can not be focused *)

(** Focus implements the interface. *)
Definition Focus (self : nat) : M unit := mret tt. (* do nothing *)

(** NewLabel is the Label initializer. *)
Definition NewLabel (x y : Z) : Label :=
mkLabel x y 0 0 [] (mkAttributes 0 0) false JustifyLeft VisibilityGet.

Definition Resize (self : nat) : M unit :=
l ← get self;
w ← gets win;
(* y<0 means lines from the bottom *)
let trueY := if lb_y l <? 0 then w_y w +i lb_y l else lb_y l in
put self (mkLabel (lb_x l) (lb_y l) (lb_x l) trueY (lb_text l) (lb_attr l)
            (lb_status l) (lb_justify l) (lb_visibility l)).

(** SetAttributes sets the Attributes. *)
Definition SetAttributes (self : nat) (a : Attributes) : M unit :=
l ← get self;
put self (mkLabel (lb_x l) (lb_y l) (lb_trueX l) (lb_trueY l) (lb_text l) a
            (lb_status l) (lb_justify l) (lb_visibility l)).

(** SetText sets the label caption; [text] is the formatted caption. *)
Definition SetText (self : nat) (text : gostring) : M unit :=
l ← get self;
put self (mkLabel (lb_x l) (lb_y l) (lb_trueX l) (lb_trueY l) text
            (lb_attr l) (lb_status l) (lb_justify l) (lb_visibility l)).

Definition clear (self : nat) : M unit :=
l ← get self;
w ← gets win;
a ← defaultAttributes;
blank ← lift (strings_Repeat (str " ") (w_x w));
Window.printf (lb_trueX l) (lb_trueY l) a blank.

(** The padding of a status label: [left] and [right], by the
  justification. *)
Definition padding (j : Justify) (spacing : Z)
: outcome (gostring * gostring) :=
match j with
| JustifyRight =>
    left_ ← strings_Repeat (str " ") spacing; Return (left_, [])
| JustifyLeft =>
    right_ ← strings_Repeat (str " ") spacing; Return ([], right_)
| JustifyCenter =>
    left_ ← strings_Repeat (str " ") (Z.quot spacing 2);
    right_ ← strings_Repeat (str " ")
               (Z.quot spacing 2 +i Z.rem spacing 2);
    Return (left_, right_)
end.

(** Render implements the Render interface. *)
Definition Render (self : nat) : M unit :=
l ← get self;
match lb_visibility l with
| VisibilityHide => clear self
| _ =>
    if negb (lb_status l) then
      Window.printf (lb_trueX l) (lb_trueY l) (lb_attr l) (lb_text l)
    else
      w ← gets win;
      f ← gets fg; b ← gets bg;
      let text := lb_text l in
      escaped ← lift (EscapedLen f b text);
      let spacing := w_x w -i len (runes_of_string text) +i escaped in
      let spacing := if spacing <? 0 then 0 else spacing in
      '(left_, right_) ← lift (padding (lb_justify l) spacing);
      Window.printf 0 (lb_trueY l) (lb_attr l) (left_ ++ text ++ right_)
end.

End Label.

(** ** list.go *)

(** Location are hints for the Display function. *)
Inductive Location :=
| Top      (* Display top line of list *)
| Bottom   (* Display bottom line of list *)
| Up       (* Render page up on list *)
| Down     (* Render page down on list *)
| Current. (* Render current location on list *)

(** [c[lo:hi]] on a slice of strings of capacity [cap]: the bounds are
    checked against the capacity, and the cells past the length are empty
    strings. *)
Definition slice_cap (c : list gostring) (cap lo hi : Z)
  : outcome (list gostring) :=
  if (0 <=? lo) && (lo <=? hi) && (hi <=? cap)
  then Return (take (Z.to_nat (hi - lo))
                 (drop (Z.to_nat lo)
                    (c ++ replicate (Z.to_nat (cap - len c)) [])))
  else Panic.

(** The capacity [append] picks when the array is full: at least the
    needed length; the model takes the doubling of small slices. *)
Definition growslice (oldcap needed : Z) : Z := Z.max needed (2 * oldcap).

Module List.

Definition get (self : nat) : M List :=
w ← gets win;
match widgets w !! self with
| Some (WList l) => mret l
| _ => panic
end.

Definition put (self : nat) (l : List) : M unit :=
modify (fun s =>
  set_win (set_widgets (<[self := WList l]> (widgets (win s))) (win s)) s).

(** CanFocus implements the interface. *)
Definition CanFocus (l : List) : bool := false. (* can not be focused *)

(** Focus implements the interface. *)
Definition Focus (self : nat) : M unit := mret tt. (* do nothing *)

(** NewList is the List initializer. *)
Definition NewList (x y : Z) : List :=
mkList x y 0 0 0 0 0 0 0 false (mkAttributes 0 0) [] 0 VisibilityGet.

(** SetAttributes sets the Attributes. *)
Definition SetAttributes (self : nat) (a : Attributes) : M unit :=
l ← get self; put self (set_l_attr a l).

Definition Resize (self : nat) : M unit :=
l ← get self;
w ← gets win;
let l := set_l_trueH (l_height l) (set_l_trueW (l_width l)
           (set_l_trueY (l_y l) (set_l_trueX (l_x l) l))) in
(* width < 1 means x - width *)
let l := if l_width l <? 1 then set_l_trueW (w_x w +i l_width l) l else l in
(* height < 1 means y - height *)
let l := if l_height l <? 1
         then set_l_trueH (w_y w +i l_height l -i 1) l else l in
put self l.

(** Append adds a line of text to the list; [s] is the formatted line. *)
Definition Append (self : nat) (s : gostring) : M unit :=
l ← get self;
let cap := if len (l_content l) <? l_content_cap l then l_content_cap l
           else growslice (l_content_cap l) (len (l_content l) + 1) in
let l := set_l_content_cap cap (set_l_content (l_content l ++ [s]) l) in
(* adjust at if we are not in a paging operation *)
if l_paging l then put self l
else
  let l := set_l_at (len (l_content l) -i l_trueH l) l in
  let l := if l_at l <? 0 then set_l_at 0 l else l in
  put self l.

(** The inner loop of [Display] over one line [s]: the result is the
  buffer, [leftover], [cc] and [printWidth]. *)
Fixpoint wrap_loop (fg bg trueW : Z) (fuel : nat) (s : gostring)
  (i printWidth start : Z) (lastColor leftover cc : gostring)
  (buffer : list (list Z))
: outcome (list (list Z) * gostring * gostring * Z) :=
if negb (i <? len s) then Return (buffer, leftover, cc, printWidth)
else
  match fuel with
  | O => Timeout
  | S fuel' =>
      rest ← slice_from s i;
      let '(r, width) := utf8.DecodeRuneInString rest in
      let plain :=
        let i := i +i width in
        let printWidth := printWidth +i 1 in
        if printWidth >? trueW -i 1 then
          (* clip, so reset start and printWidth *)
          seg ← slice s start i;
          let buffer := buffer ++ [runes_of_string (lastColor ++ seg)] in
          if i =? len s then
            (* we ended exactly with a color on term boundary, clear
               out leftover that was set in lastColor check *)
            Return (buffer, [], lastColor, 0)
          else
            wrap_loop fg bg trueW fuel' s i 0 i lastColor leftover
              lastColor buffer
        else if i <? len s then
          wrap_loop fg bg trueW fuel' s i printWidth start lastColor
            leftover cc buffer
        else
          seg ← slice s start i;
          Return (buffer, seg, cc, printWidth) in
      if r =? byte_val ESC then
        d ← DecodeColor fg bg rest;
        match d with
        | Ok (_, skip) =>
            lastColor ← slice s i (i +i skip);
            let i := i +i skip in
            leftover ← slice s start i;
            wrap_loop fg bg trueW fuel' s i printWidth start lastColor
              leftover cc buffer
        | Err _ => plain
        end
      else plain
  end.

(** The loop over the visible lines: a buffer with all lines neatly
  clipped. *)
Fixpoint wrap_lines (fg bg trueW : Z) (c : list gostring)
  (buffer : list (list Z)) : outcome (list (list Z)) :=
match c with
| [] => Return buffer
| s :: c' =>
    '(buffer, leftover, cc, printWidth) ←
      wrap_loop fg bg trueW (length s) s 0 0 0 [] [] [] buffer;
    buffer ←
      (if negb (len leftover =? 0) then
         (* done clipping, next line *)
         filler ← strings_Repeat (str " ") (trueW -i printWidth);
         Return (buffer ++ [runes_of_string (cc ++ leftover ++ filler)])
       else Return buffer);
    wrap_lines fg bg trueW c' buffer
end.

Fixpoint print_rows (trueY : Z) (a : Attributes) (i : Z)
  (buffer : list (list Z)) : M unit :=
match buffer with
| [] => mret tt
| v :: buffer' =>
    Window.printf 0 (trueY +i i) a (string_of_runes v);;
    print_rows trueY a (i + 1) buffer'
end.

(** The part of [Display] after the switch: clip, wrap and print the
  lines from [at] on. *)
Definition Display_rows (self : nat) : M unit :=
l ← get self;
c ← lift (slice_cap (l_content l) (l_content_cap l)
            (l_at l) (l_at l +i l_trueH l));
(if l_trueH l *i 2 <? 0 then panic else mret tt);;
f ← gets fg; b ← gets bg;
buffer ← lift (wrap_lines f b (l_trueW l) c []);
(* now clip buffer to widget l.trueH; we only want to show bottom
   l.trueH lines *)
buffer ←
  (if len buffer >? l_trueH l
   then lift (slice_from buffer (len buffer -i l_trueH l))
   else mret buffer);
print_rows (l_trueY l) (l_attr l) 0 buffer.

(** One activation of [Display]; [Display_] stands for the recursive
  call. *)
Definition Display_body (Display_ : nat -> Location -> M unit)
  (self : nat) (where_ : Location) : M unit :=
l ← get self;
if (len (l_content l) =? 0)
   || match l_visibility l with VisibilityHide => true | _ => false end
then mret tt
else
  let c := l_content l in
  (* XXX this isn't 100% correct since it doesn't handle wrapping
     lines. *)
  match where_ with
  | Current => Display_rows self
  | Top =>
      (if len c >? l_trueH l
       then put self (set_l_paging true (set_l_at 0 l))
       else mret tt);;
      Display_rows self
  | Bottom =>
      let l := set_l_at (len c -i l_trueH l) l in
      let l := if l_at l <? 0 then set_l_at 0 l else l in
      put self (set_l_paging false l);;
      Display_rows self
  | Up =>
      let l := set_l_at (l_at l -i l_trueH l +i 1) l in
      let l := if l_at l <? 0 then set_l_at 0 l else l in
      put self (set_l_paging true l);;
      Display_rows self
  | Down =>
      let y := l_at l +i l_trueH l -i 1 in
      if y +i l_trueH l >? len c then Display_ self Bottom
      else
        put self (set_l_paging true (set_l_at y l));;
        Display_rows self
  end.

(** Display renders the widget.  The only recursive call is
  [Display(Bottom)] from the [Down] case, and [Bottom] does not
  recurse: two activations are all there can be. *)
Definition Display (self : nat) (where_ : Location) : M unit :=
Display_body (Display_body (fun _ _ => timeout)) self where_.

(** Render implements the Render interface. *)
Definition Render (self : nat) : M unit :=
l ← get self;
if (len (l_content l) =? 0)
   || match l_visibility l with VisibilityHide => true | _ => false end
then mret tt
else Display self Current.

(** IsPaging indicates if the widget is displaying bottom line.  If the
  bottom line is being displayed it means that the appended text is
  rendered. *)
Definition IsPaging (self : nat) : M bool :=
l ← get self; mret (l_paging l).

End List.

(** ** widget.go: the [Widgeter] interface and the registry *)

Definition WidgetLabel : string := "label".
Definition WidgetEdit : string := "edit".
Definition WidgetList : string := "list".

(** registeredWidgets contains the registered widgets types; the three
    [init] functions fill it. *)
Definition registeredWidgets (id : string) : option (Z -> Z -> Widgeter) :=
  if String.eqb id WidgetLabel then Some (fun x y => WLabel (Label.NewLabel x y))
  else if String.eqb id WidgetEdit then Some (fun x y => WEdit (Edit.NewEdit x y))
  else if String.eqb id WidgetList then Some (fun x y => WList (List.NewList x y))
  else None.

(** Dynamic dispatch of [CanFocus] and [Focus]. *)
Definition CanFocus (widget : Widgeter) : bool :=
  match widget with
  | WLabel l => Label.CanFocus l
  | WEdit e => Edit.CanFocus e
  | WList l => List.CanFocus l
  end.

Definition Focus (self : nat) : M unit :=
  w ← gets win;
  match widgets w !! self with
  | Some (WLabel _) => Label.Focus self
  | Some (WEdit _) => Edit.Focus self
  | Some (WList _) => List.Focus self
  | None => panic
  end.

(** ** window.go: adding widgets, focus navigation *)

Definition set_focus (i : Z) : M unit :=
  modify (fun s => set_win (set_w_focus i (win s)) s).

(** [w.widgets[i]]; the index is checked. *)
Definition widget_at (i : Z) : M Widgeter :=
  w ← gets win;
  if (0 <=? i) && (i <? len (widgets w)) then
    match widgets w !! Z.to_nat i with
    | Some widget => mret widget
    | None => panic
    end
  else panic.

(** AddWidget is the generic function to add a widget to a window.  The
    widget returned is its index in [widgets]. *)
Definition AddWidget (id : string) (x y : Z) : M (result nat) :=
  match registeredWidgets id with
  | None => mret (Err ErrWidgetNotRegistered)
  | Some rw =>
      w ← gets win;
      modify (fun s =>
        set_win (set_widgets (widgets (win s) ++ [rw x y]) (win s)) s);;
      mret (Ok (length (widgets w)))
  end.

(** The first loop of [focusWidget]: [for i, widget := range w.widgets]. *)
Fixpoint focusWidget_scan (i : nat) (ws : list Widgeter) : M unit :=
  match ws with
  | [] => mret tt (* nothing to do *)
  | widget :: ws' =>
      if CanFocus widget then set_focus (Z.of_nat i);; Focus i
      else focusWidget_scan (S i) ws'
  end.

(** focusWidget focuses on the current widget.  If focus is -1 it'll focus
    on the first available widget. *)
Definition focusWidget : M unit :=
  setCursor (-1) (-1);; (* hide *)
  w ← gets win;
  if w_focus w <? 0 then focusWidget_scan 0 (widgets w)
  else
    (* make sure we are in bounds *)
    if w_focus w >? len (widgets w) then mret tt
      (* this really should not happen *)
    else
      _ ← widget_at (w_focus w);
      Focus (Z.to_nat (w_focus w)).

(** The loop of [focusNext] over [w.widgets[w.focus+1:]]; [true] when a
    widget took the focus. *)
Fixpoint focusNext_scan (focus : Z) (i : nat) (ws : list Widgeter) : M bool :=
  match ws with
  | [] => mret false
  | widget :: ws' =>
      if negb (CanFocus widget) then focusNext_scan focus (S i) ws'
      else
        setCursor (-1) (-1);; (* hide *)
        let j := Z.of_nat i +i focus +i 1 in
        set_focus j;;
        Focus (Z.to_nat j);;
        mret true
  end.

(** focusNext focuses on the next available widget. *)
Definition focusNext : M unit :=
  w ← gets win;
  if w_focus w <? 0 then focusWidget
  else
    (* find next widget *)
    ws ← lift (slice_from (widgets w) (w_focus w +i 1));
    found ← focusNext_scan (w_focus w) 0 ws;
    if (found : bool) then mret tt
    else
      (* if we get here there was nothing to focus on so focus on first
         widget *)
      set_focus (-1);;
      focusWidget.

(** The two loops of [focusPrevious]: [i] counts down while [i > bound];
    [true] when a widget took the focus. *)
Fixpoint focusPrevious_scan (fuel : nat) (i bound : Z) : M bool :=
  if negb (i >? bound) then mret false
  else
    match fuel with
    | O => timeout
    | S fuel' =>
        widget ← widget_at i;
        if negb (CanFocus widget) then focusPrevious_scan fuel' (i -i 1) bound
        else
          setCursor (-1) (-1);; (* hide *)
          set_focus i;;
          Focus (Z.to_nat i);;
          mret true
    end.

(** focusPrevious focuses on the previous available widget. *)
Definition focusPrevious : M unit :=
  (* it is ok to be negative since that'll focus on the first widget *)
  w ← gets win;
  set_focus (w_focus w -i 1);;
  w ← gets win;
  if w_focus w <? 0 then focusWidget
  else
    (* find previous widget *)
    found ← focusPrevious_scan (Z.to_nat (w_focus w)) (w_focus w) 0;
    if (found : bool) then mret tt
    else
      (* if we get here we need to focus on last focusable widget *)
      found ← focusPrevious_scan (length (widgets w))
                (len (widgets w) -i 1) (w_focus w);
      (* if we get here it means we found nothing usable and give up *)
      mret tt.

(** ** The widget constructors of the window *)

(** AddEdit is a convenience function to add a new edit to a window. *)
Definition AddEdit (x y width : Z) (target : option loc) : M nat :=
  (* we can ignore error for builtins *)
  r ← AddWidget WidgetEdit x y;
  match r with
  | Err _ => panic
  | Ok self =>
      w ← gets win;
      e ← Edit.get self;
      (* save current sizes to detect actual window resizes *)
      Edit.put self (set_e_prevY (w_y w) (set_e_prevX (w_x w)
                       (set_e_width width e)));;
      Edit.Resize self;;
      (* cursor *)
      e ← Edit.get self;
      Edit.put self (set_e_cy (-1) (set_e_cx (-1) e));;
      (* set target string *)
      Edit.SetText self target true;;
      (* flip attributes *)
      a ← defaultAttributes;
      Edit.SetAttributes self (mkAttributes (Bg a) (Fg a));;
      mret self
  end.

(** AddLabel is a convenience function to add a new label to a window;
    [text] is the formatted caption. *)
Definition AddLabel (x y : Z) (text : gostring) : M nat :=
  r ← AddWidget WidgetLabel x y;
  match r with
  | Err _ => panic
  | Ok self =>
      Label.Resize self;;
      a ← defaultAttributes;
      Label.SetAttributes self a;;
      Label.SetText self text;;
      mret self
  end.

(** AddStatus is an alternative Label initializer.  A Status is a label
    that has the property that it fills an entire line and is justified. *)
Definition AddStatus (y : Z) (j : Justify) (text : gostring) : M nat :=
  r ← AddWidget WidgetLabel 0 y;
  match r with
  | Err _ => panic
  | Ok self =>
      Label.Resize self;;
      l ← Label.get self;
      Label.put self
        (mkLabel (lb_x l) (lb_y l) (lb_trueX l) (lb_trueY l) (lb_text l)
           (lb_attr l) true j (lb_visibility l));;
      (* flip attributes *)
      a ← defaultAttributes;
      Label.SetAttributes self (mkAttributes (Bg a) (Fg a));;
      (* print *)
      Label.SetText self text;;
      mret self
  end.

(** AddList is a convenience function to add a new list to a window. *)
Definition AddList (x y width height : Z) : M nat :=
  r ← AddWidget WidgetList x y;
  match r with
  | Err _ => panic
  | Ok self =>
      l ← List.get self;
      List.put self (set_l_height height (set_l_width width l));;
      List.Resize self;;
      a ← defaultAttributes;
      List.SetAttributes self a;;
      l ← List.get self;
      List.put self (set_l_content_cap 1000 (set_l_content [] l));;
      mret self
  end.

(** ttk.go, [NewWindow]: the window as created for a terminal of
    [maxX] by [maxY] cells, in a world with the terminal defaults of
    [Init] and the given string variables. *)
Definition NewWindow (maxX maxY : Z) (strings : gmap loc gostring) : World :=
  mkWorld
    (mkWindow 0 maxX maxY
       (replicate (Z.to_nat (maxX *i maxY)) (mkCell 0 0 0 false))
       [] (-1))
    strings (0, 0) termbox.ColorDefault termbox.ColorDefault.

(** ** Notions the properties are stated with *)

(** The caret's index in the display buffer. *)
Definition caret_index (e : Edit) : Z := e_cx e -i e_trueX e +i e_at e.

(** The caret lies within the buffer and the viewport starts at or before
    it. *)
Definition caret_invariant (e : Edit) : Prop :=
  0 <= caret_index e <= len (e_display e) /\ e_at e <= caret_index e.

(** A key event that types a character: a rune without modifier and
    without special key, or the space key. *)
Definition printable_event (ev : Event) : Prop :=
  (ev_Key ev = 0 /\ ev_Mod ev = 0 /\ ev_Ch ev <> 0)
  \/ ev_Key ev = termbox.KeySpace.

(** The rune such an event types. *)
Definition typed_rune (ev : Event) : Z :=
  if ev_Key ev =? termbox.KeySpace then 32 else ev_Ch ev.

(** The widget a [*Edit] points to. *)
Definition edit_at (s : World) (self : nat) : option Edit :=
  match widgets (win s) !! self with
  | Some (WEdit e) => Some e
  | _ => None
  end.

Definition list_at (s : World) (self : nat) : option List :=
  match widgets (win s) !! self with
  | Some (WList l) => Some l
  | _ => None
  end.

(** A computation leaves a component of the world as it found it,
    whatever its outcome. *)
Definition preserves {X A} (proj : World -> X) (m : M A) : Prop :=
  forall s, proj (exec m s) = proj s.

(** The cells a [printf] has written since the last flush. *)
Definition dirty_cells (s : World) : list Cell :=
  filter (fun c => dirty c = true) (backingStore (win s)).

(** *** Malformed escape sequences *)

(** The fields of a sequence, joined by semicolons as on the wire. *)
Fixpoint join_fields (fs : list gostring) : gostring :=
  match fs with
  | [] => []
  | [f] => f
  | f :: fs' => f ++ ";"%byte :: join_fields fs'
  end.

(** The numbers a field may hold: reset, bold, underline, reverse, a
    foreground or a background colour. *)
Definition recognized (n : Z) : bool :=
  (n =? AttrReset) || (n =? AttrBold) || (n =? AttrUnderline)
  || (n =? AttrReverse)
  || ((ColorBlack + ANSIFg <=? n) && (n <=? ColorWhite + ANSIFg))
  || ((ColorBlack + ANSIBg <=? n) && (n <=? ColorWhite + ANSIBg)).

(** A field holds neither the separator nor the terminator. *)
Definition plain_field (f : gostring) : Prop :=
  (";"%byte ∉ f) /\ ("m"%byte ∉ f).

Definition good_field (f : gostring) : Prop :=
  exists n, strconv_Atoi f = inl n /\ recognized n = true.

(** The malformed inputs of [DecodeColor] and the error each one is
    answered with: no marker; no terminator; after fields that are all
    good, a first field that is no integer, or an integer that is not
    recognized. *)
Inductive decode_failure : gostring -> error -> Prop :=
| no_marker esc :
    strings_HasPrefix esc esc_marker = false ->
    decode_failure esc ErrNotEscSequence
| no_terminator body :
    "m"%byte ∉ body ->
    decode_failure (esc_marker ++ body) ErrNotEscSequence
| field_not_a_number good f rest trailing e :
    Forall good_field good -> Forall plain_field (f :: rest) ->
    strconv_Atoi f = inr e ->
    decode_failure
      (esc_marker ++ join_fields (good ++ f :: rest) ++ "m"%byte :: trailing)
      (NumError "Atoi" f e)
| field_not_recognized good f rest trailing n :
    Forall good_field good -> Forall plain_field (f :: rest) ->
    strconv_Atoi f = inl n -> recognized n = false ->
    decode_failure
      (esc_marker ++ join_fields (good ++ f :: rest) ++ "m"%byte :: trailing)
      ErrNotEscSequence.

(** *** UTF-8 *)

(** A Unicode scalar value: what [DecodeRuneInString] can return. *)
Definition valid_rune (r : Z) : Prop :=
  0 <= r <= utf8.MaxRune /\ ~ (utf8.surrogateMin <= r <= utf8.surrogateMax).

(** The body of [DecodeRuneInString] on the length of the string and the
    values of its first four bytes. *)
Definition decode_bytes (n s0 s1 s2 s3 : Z) : Z * Z :=
  if n <? 1 then (utf8.RuneError, 0)
  else
    let x := utf8.first s0 in
    if x >=? utf8.as_ then
      let mask := if Z.testbit x 0 then -1 else 0 in
      (Z.lor (Z.land s0 (Z.lnot mask)) (Z.land utf8.RuneError mask), 1)
    else
      let sz := Z.land x 7 in
      let '(lo, hi) := utf8.acceptRanges (Z.shiftr x 4) in
      if n <? sz then (utf8.RuneError, 1)
      else
        if (s1 <? lo) || (hi <? s1) then (utf8.RuneError, 1)
        else if sz <=? 2 then
          (Z.lor (Z.shiftl (Z.land s0 utf8.mask2) 6) (Z.land s1 utf8.maskx), 2)
        else
          if (s2 <? utf8.locb) || (utf8.hicb <? s2) then (utf8.RuneError, 1)
          else if sz <=? 3 then
            (Z.lor (Z.lor (Z.shiftl (Z.land s0 utf8.mask3) 12)
                          (Z.shiftl (Z.land s1 utf8.maskx) 6))
                   (Z.land s2 utf8.maskx), 3)
          else
            if (s3 <? utf8.locb) || (utf8.hicb <? s3) then (utf8.RuneError, 1)
            else
              (Z.lor (Z.lor (Z.lor (Z.shiftl (Z.land s0 utf8.mask4) 18)
                                   (Z.shiftl (Z.land s1 utf8.maskx) 12))
                            (Z.shiftl (Z.land s2 utf8.maskx) 6))
                     (Z.land s3 utf8.maskx), 4).

(** UTF-8 decoding in arithmetic: the class of the first byte gives the
    size and the range of the second byte; a continuation byte lies in
    [0x80, 0xBF] and carries six bits. *)
Definition continuation (z : Z) : bool := (0x80 <=? z) && (z <=? 0xBF).

Definition second_lo (s0 : Z) : Z :=
  if s0 =? 0xE0 then 0xA0 else if s0 =? 0xF0 then 0x90 else 0x80.

Definition second_hi (s0 : Z) : Z :=
  if s0 =? 0xED then 0x9F else if s0 =? 0xF4 then 0x8F else 0xBF.

Definition decode_arith (n s0 s1 s2 s3 : Z) : Z * Z :=
  if s0 <? 0x80 then (s0, 1)
  else if (s0 <? 0xC2) || (0xF4 <? s0) then (utf8.RuneError, 1)
  else if s0 <? 0xE0 then
    if (2 <=? n) && continuation s1
    then ((s0 - 0xC0) * 64 + (s1 - 0x80), 2)
    else (utf8.RuneError, 1)
  else if s0 <? 0xF0 then
    if (3 <=? n) && (second_lo s0 <=? s1) && (s1 <=? second_hi s0)
       && continuation s2
    then ((s0 - 0xE0) * 4096 + (s1 - 0x80) * 64 + (s2 - 0x80), 3)
    else (utf8.RuneError, 1)
  else
    if (4 <=? n) && (second_lo s0 <=? s1) && (s1 <=? second_hi s0)
       && continuation s2 && continuation s3
    then ((s0 - 0xF0) * 262144 + (s1 - 0x80) * 4096 + (s2 - 0x80) * 64
          + (s3 - 0x80), 4)
    else (utf8.RuneError, 1).

(** No part of the text is a well-formed escape sequence: [DecodeColor]
    succeeds on none of its suffixes. *)
Definition no_sequence (fg bg : Z) (t : gostring) : Prop :=
  forall pre post r, t = pre ++ post -> DecodeColor fg bg post <> Return (Ok r).

(** *** The wire format of [Color] *)

(** The fields [Color] writes for a triple: the attribute as it is, the
    colours with their ANSI base added; [AttrNA] writes nothing. *)
Definition color_fields (at_ f b : Z) : list gostring :=
  (if at_ =? AttrNA then [] else [strconv_Itoa at_])
  ++ (if f =? AttrNA then [] else [strconv_Itoa (f + ANSIFg)])
  ++ (if b =? AttrNA then [] else [strconv_Itoa (b + ANSIBg)]).

(** *** Text with embedded sequences *)

(** A text is a run of pieces: a rune shown on the screen, or an escape
    sequence given by its fields. *)
Inductive piece :=
| Plain (r : Z)
| Sequence (fs : list gostring).

Definition piece_bytes (p : piece) : gostring :=
  match p with
  | Plain r => utf8.EncodeRune r
  | Sequence fs => esc_marker ++ join_fields fs ++ ["m"%byte]
  end.

(** A shown rune is a scalar value other than the escape character; a
    sequence has at least one field, all of them good. *)
Definition well_formed_piece (p : piece) : Prop :=
  match p with
  | Plain r => valid_rune r /\ r <> byte_val ESC
  | Sequence fs => fs <> [] /\ Forall good_field fs
  end.

Definition text_of (ps : list piece) : gostring :=
  concat (map piece_bytes ps).

(** Every escape byte of the text begins a well-formed sequence: the text
    is built from bytes other than the escape byte, whether they are
    valid UTF-8 or not, and from sequences of one or more good fields. *)
Inductive escapes_well_formed : gostring -> Prop :=
| ewf_nil : escapes_well_formed []
| ewf_byte (b : byte) (s : gostring) :
    b <> ESC -> escapes_well_formed s -> escapes_well_formed (b :: s)
| ewf_sequence (fs : list gostring) (s : gostring) :
    fs <> [] -> Forall good_field fs -> escapes_well_formed s ->
    escapes_well_formed (esc_marker ++ join_fields fs ++ "m"%byte :: s).

(** The runes that are shown, and the bytes taken by the sequences. *)
Definition shown_runes (ps : list piece) : list Z :=
  concat (map (fun p => match p with Plain r => [r] | Sequence _ => [] end) ps).

Definition sequence_bytes (ps : list piece) : Z :=
  fold_right (fun p n => match p with
                         | Plain _ => n
                         | Sequence _ => len (piece_bytes p) + n
                         end) 0 ps.

(** *** Focus *)

(** The index of the first widget that can take the focus. *)
Fixpoint first_focusable (ws : list Widgeter) : option nat :=
  match ws with
  | [] => None
  | widget :: ws' =>
      if CanFocus widget then Some 0%nat else S <$> first_focusable ws'
  end.

(** *** Drawing *)

(** What drawing does to the world: cells of the store are written and
    each written cell is marked dirty; the size of the store, the
    geometry, the widgets, the focus, the cursor, the defaults and the
    strings stay as they are. *)
Definition draws_only (s s' : World) : Prop :=
  heap s' = heap s /\ cursor s' = cursor s /\ fg s' = fg s /\ bg s' = bg s
  /\ w_id (win s') = w_id (win s)
  /\ w_x (win s') = w_x (win s) /\ w_y (win s') = w_y (win s)
  /\ widgets (win s') = widgets (win s)
  /\ w_focus (win s') = w_focus (win s)
  /\ length (backingStore (win s')) = length (backingStore (win s))
  /\ forall i c,
       backingStore (win s') !! i = Some c ->
       backingStore (win s) !! i = Some c \/ dirty c = true.

(** A computation that only draws, whatever its outcome. *)
Definition draws {A} (m : M A) : Prop :=
  forall s, draws_only s (exec m s).

(** ** Scenarios

    Concrete runs through the public operations, used to exercise the
    statements below. *)

Definition key (k : Z) : Event := mkEvent 0 k 0.
Definition char (c : Z) : Event := mkEvent 0 0 c.

(** The demo window: 20 by 5 cells, one edit of declared width -2 bound
    to the string "12345", then the home key. *)
Definition demo_strings : gmap loc gostring := {[ 0%nat := str "12345" ]}.

Definition demo_home : World :=
  exec (e ← AddEdit 2 4 (-2) (Some 0%nat);
        Edit.KeyHandler e (key termbox.KeyHome))
       (NewWindow 20 5 demo_strings).

Definition demo_home_edit : Edit :=
  default (Edit.NewEdit 0 0) (edit_at demo_home 0).

(** An edit of width 2 at column 5 bound to "abc", then backspace. *)
Definition narrow_backspace : World :=
  exec (e ← AddEdit 5 0 2 (Some 0%nat);
        Edit.KeyHandler e (key termbox.KeyBackspace))
       (NewWindow 20 5 {[ 0%nat := str "abc" ]}).

(** An edit of width 5 at column 1 bound to "abcdefgh": three times the
    left arrow, then backspace. *)
Definition scrolled_backspace : World :=
  exec (e ← AddEdit 1 0 5 (Some 0%nat);
        _ ← Edit.KeyHandler e (key termbox.KeyArrowLeft);
        _ ← Edit.KeyHandler e (key termbox.KeyArrowLeft);
        _ ← Edit.KeyHandler e (key termbox.KeyArrowLeft);
        Edit.KeyHandler e (key termbox.KeyBackspace))
       (NewWindow 20 5 {[ 0%nat := str "abcdefgh" ]}).

(** A list of height 2 with three lines appended: it shows the bottom. *)
Definition three_lines : World :=
  exec (l ← AddList 0 0 10 2;
        List.Append l (str "one");;
        List.Append l (str "two");;
        List.Append l (str "three"))
       (NewWindow 20 5 ∅).

(** An edit, a label and an edit; the focus went to the first widget and
    then on to the next. *)
Definition edit_label_edit : World :=
  exec (_ ← AddEdit 0 0 5 (Some 0%nat);
        _ ← AddLabel 0 1 (str "name");
        _ ← AddEdit 0 2 5 (Some 0%nat);
        focusWidget;;
        focusNext)
       (NewWindow 20 5 {[ 0%nat := str "abc" ]}).
(** * Properties

    ** Machine integers *)

Lemma Int_wrap_small z : Int.in_range z -> Int.wrap z = z.
Proof.
  unfold Int.in_range, Int.min, Int.max, Int.wrap. intros H.
  rewrite Z.mod_small; lia.
Qed.

Lemma Int_wrap_range z : Int.in_range (Int.wrap z).
Proof.
  unfold Int.in_range, Int.min, Int.max, Int.wrap.
  pose proof (Z.mod_pos_bound (z + 2 ^ 63) (2 ^ 64)). lia.
Qed.

(** ** The escape codec *)

Example Color_bold_red :
  Color AttrBold ColorRed AttrNA = Ok (ESC :: str "[1;31m").
Proof. reflexivity. Qed.

Example DecodeColor_bold_red :
  DecodeColor 0 0 (ESC :: str "[1;31mxyz")
  = Return (Ok (mkAttributes (Z.lor termbox.AttrBold 2) 0, 7)).
Proof. reflexivity. Qed.

Lemma valid_color_cases c :
  valid_color c ->
  c = -1 \/ c = 0 \/ c = 1 \/ c = 2 \/ c = 3 \/ c = 4 \/ c = 5 \/ c = 6 \/ c = 7.
Proof. unfold valid_color, AttrNA, ColorBlack, ColorWhite. lia. Qed.

(** C1: every encodable triple decodes to the attributes it stands for,
    and [skip] is the length of the whole sequence. *)
Theorem DecodeColor_Color_roundtrip (fg bg at_ f b : Z) :
  valid_attribute at_ -> valid_color f -> valid_color b ->
  ~ (at_ = AttrNA /\ f = AttrNA /\ b = AttrNA) ->
  exists es,
    Color at_ f b = Ok es
    /\ DecodeColor fg bg es = Return (Ok (Attributes_of fg bg at_ f b, len es)).
Proof.
  intros Ha Hf Hb Hna.
  apply valid_color_cases in Hf, Hb.
  unfold valid_attribute, AttrNA, AttrReset, AttrBold, AttrUnderline,
    AttrReverse in *.
  destruct Ha as [->|[->|[->|[->| ->]]]];
    destruct Hf as [->|[->|[->|[->|[->|[->|[->|[->| ->]]]]]]]];
    destruct Hb as [->|[->|[->|[->|[->|[->|[->|[->| ->]]]]]]]];
    try (exfalso; apply Hna; repeat split; reflexivity);
    (eexists; split; [ vm_compute; reflexivity | vm_compute; reflexivity ]).
Qed.

Lemma DecodeColor_Color_roundtrip_witness :
  exists es,
    Color AttrBold ColorRed AttrNA = Ok es
    /\ DecodeColor termbox.ColorDefault termbox.ColorDefault es
       = Return (Ok (mkAttributes (Z.lor termbox.AttrBold 2) 0, len es)).
Proof.
  apply (DecodeColor_Color_roundtrip termbox.ColorDefault termbox.ColorDefault
           AttrBold ColorRed AttrNA).
  - right; right; left; reflexivity.
  - right; unfold ColorBlack, ColorRed, ColorWhite; lia.
  - left; reflexivity.
  - unfold AttrBold, AttrNA; lia.
Defined.

(** ** Frame reasoning for the state monad *)

Section Preserves.
Context {X : Type} (proj : World -> X).

Lemma preserves_ret {A} (a : A) : preserves proj (mret a : M A).
Proof. intros s; reflexivity. Qed.

Lemma preserves_gets {A} (f : World -> A) : preserves proj (gets f).
Proof. intros s; reflexivity. Qed.

Lemma preserves_panic {A} : preserves proj (@panic A).
Proof. intros s; reflexivity. Qed.

Lemma preserves_timeout {A} : preserves proj (@timeout A).
Proof. intros s; reflexivity. Qed.

Lemma preserves_lift {A} (o : outcome A) : preserves proj (lift o).
Proof. intros s; reflexivity. Qed.

Lemma preserves_modify (f : World -> World) :
  (forall s, proj (f s) = proj s) -> preserves proj (modify f).
Proof. intros H s; apply H. Qed.

Lemma preserves_bind {A B} (m : M A) (k : A -> M B) :
  preserves proj m -> (forall a, preserves proj (k a)) ->
  preserves proj (m ≫= k).
Proof.
  intros Hm Hk s. specialize (Hm s).
  unfold exec, mbind, M_bind in *.
  destruct (m s) as [[a| |] s']; simpl in *; try assumption.
  rewrite <- Hm. apply Hk.
Qed.
End Preserves.

Create HintDb frame.

#[local] Hint Resolve preserves_ret preserves_gets preserves_panic
  preserves_timeout preserves_lift : frame.

(** Decompose a computation along its binds and case distinctions. *)
Ltac frame_step :=
  match goal with
  | |- preserves _ (mbind _ _) => apply preserves_bind; [ | intros ? ]
  | |- preserves _ (mret _) => apply preserves_ret
  | |- preserves _ (gets _) => apply preserves_gets
  | |- preserves _ panic => apply preserves_panic
  | |- preserves _ timeout => apply preserves_timeout
  | |- preserves _ (lift _) => apply preserves_lift
  | |- preserves _ (modify _) => apply preserves_modify; intros ?; reflexivity
  | |- preserves _ (if ?b then _ else _) => destruct b
  | |- preserves _ (match ?x with _ => _ end) => destruct x
  | |- preserves _ (let _ := _ in _) => cbv zeta
  | |- preserves _ _ => solve [ auto with frame ]
  end.

Ltac frame := repeat frame_step.

Section WindowFrame.
Context {X : Type} (proj : World -> X).
(** The component is neither the cell store nor the cursor. *)
Hypothesis proj_store : forall b s,
  proj (set_win (set_backingStore b (win s)) s) = proj s.
Hypothesis proj_cursor : forall c s, proj (set_cursor c s) = proj s.

Lemma preserves_setCursor x y : preserves proj (setCursor x y).
Proof. unfold setCursor. apply preserves_modify. intros; apply proj_cursor. Qed.

Lemma preserves_defaultAttributes : preserves proj defaultAttributes.
Proof. unfold defaultAttributes. frame. Qed.

Lemma preserves_setCell x y c : preserves proj (Window.setCell x y c).
Proof.
  unfold Window.setCell. frame.
  apply preserves_modify. intros; apply proj_store.
Qed.

Lemma preserves_printf_loop fuel x y mx out xx c :
  preserves proj (Window.printf_loop fuel x y mx out xx c).
Proof.
  revert out xx c.
  induction fuel as [|fuel IH]; intros out xx c; destruct out as [|b out];
    simpl; frame; auto using preserves_setCell.
Qed.

Lemma preserves_printf x y a out : preserves proj (Window.printf x y a out).
Proof. unfold Window.printf. frame. apply preserves_printf_loop. Qed.

Lemma preserves_Edit_get self : preserves proj (Edit.get self).
Proof. unfold Edit.get. frame. Qed.

Lemma preserves_Edit_clear self : preserves proj (Edit.clear self).
Proof.
  unfold Edit.clear. frame;
    auto using preserves_Edit_get, preserves_defaultAttributes,
      preserves_printf.
Qed.

Lemma preserves_Edit_Render self : preserves proj (Edit.Render self).
Proof.
  unfold Edit.Render. frame;
    auto using preserves_Edit_get, preserves_Edit_clear, preserves_printf.
Qed.
End WindowFrame.

(** *** The store of string variables *)

Lemma heap_set_store b s : heap (set_win (set_backingStore b (win s)) s) = heap s.
Proof. reflexivity. Qed.

Lemma heap_set_cursor c s : heap (set_cursor c s) = heap s.
Proof. reflexivity. Qed.

Lemma heap_Edit_put self e : preserves heap (Edit.put self e).
Proof. unfold Edit.put. apply preserves_modify. reflexivity. Qed.

Lemma heap_Edit_get self : preserves heap (Edit.get self).
Proof. apply preserves_Edit_get. Qed.

Lemma heap_setCursor x y : preserves heap (setCursor x y).
Proof. apply preserves_setCursor; intros; reflexivity. Qed.

Lemma heap_Edit_Render self : preserves heap (Edit.Render self).
Proof. apply preserves_Edit_Render; intros; reflexivity. Qed.

#[local] Hint Resolve heap_Edit_put heap_Edit_get heap_setCursor
  heap_Edit_Render : frame.

Lemma heap_Edit_KeyHandler_rune self ev :
  preserves heap (Edit.KeyHandler_rune self ev).
Proof. unfold Edit.KeyHandler_rune. frame. Qed.

#[local] Hint Resolve heap_Edit_KeyHandler_rune : frame.

Lemma heap_Edit_KeyHandler self ev :
  ev_Key ev <> termbox.KeyEnter ->
  preserves heap (Edit.KeyHandler self ev).
Proof.
  intros Hkey. unfold Edit.KeyHandler.
  apply preserves_bind; [ auto with frame | intros e ].
  cbv zeta.
  repeat match goal with
         | |- preserves _ (if ev_Key ev =? termbox.KeyEnter then _ else _) =>
             destruct (Z.eqb_spec (ev_Key ev) termbox.KeyEnter);
             [ contradiction | ]
         | |- preserves _ (if ?b then _ else _) => destruct b
         | |- _ => solve [ frame ]
         end.
Qed.

Lemma heap_Edit_Focus self : preserves heap (Edit.Focus self).
Proof. unfold Edit.Focus. frame. Qed.

Lemma heap_Edit_Resize self : preserves heap (Edit.Resize self).
Proof. unfold Edit.Resize. frame. Qed.

Lemma heap_Edit_SetText self t end_ :
  preserves heap (Edit.SetText self t end_).
Proof.
  unfold Edit.SetText. frame.
  all: apply heap_Edit_KeyHandler; simpl; destruct end_; discriminate.
Qed.

(** ** The edit widget *)

Lemma len_app {A} (a b : list A) : len (a ++ b) = len a + len b.
Proof. unfold len. rewrite length_app. lia. Qed.

Lemma len_nonneg {A} (a : list A) : 0 <= len a.
Proof. unfold len. lia. Qed.

Lemma slice_from_spec {A} (s : list A) (lo : Z) :
  0 <= lo <= len s -> slice_from s lo = Return (drop (Z.to_nat lo) s).
Proof.
  intros H. unfold slice_from, slice.
  replace ((0 <=? lo) && (lo <=? len s) && (len s <=? len s)) with true
    by (symmetry; rewrite !andb_true_iff; repeat split; apply Z.leb_le; lia).
  f_equal. apply take_ge. rewrite length_drop. unfold len in *. lia.
Qed.

Lemma slice_to_spec {A} (s : list A) (hi : Z) :
  0 <= hi <= len s -> slice_to s hi = Return (take (Z.to_nat hi) s).
Proof.
  intros H. unfold slice_to, slice.
  replace ((0 <=? 0) && (0 <=? hi) && (hi <=? len s)) with true
    by (symmetry; rewrite !andb_true_iff; repeat split; apply Z.leb_le; lia).
  rewrite Z.sub_0_r. reflexivity.
Qed.

(** [insert] opens a hole at [index] and stores the value there. *)
Lemma insert_app (a b : list Z) (v : Z) :
  len (a ++ b) < Int.max ->
  insert (a ++ b) (len a) v = Return (a ++ v :: b).
Proof.
  intros Hmax. unfold insert.
  pose proof (len_nonneg a) as Ha0. pose proof (len_nonneg b) as Hb0.
  rewrite len_app in Hmax.
  assert (Hp1 : len a +i 1 = len a + 1).
  { apply Int_wrap_small. unfold Int.in_range, Int.min, Int.max in *. lia. }
  rewrite Hp1.
  rewrite (slice_from_spec ((a ++ b) ++ [v]) (len a + 1))
    by (rewrite !len_app; unfold len; simpl; lia).
  rewrite (slice_from_spec ((a ++ b) ++ [v]) (len a))
    by (rewrite !len_app; unfold len; simpl; lia).
  simpl.
  replace (Z.to_nat (len a + 1)) with (length a + 1)%nat by (unfold len; lia).
  replace (Z.to_nat (len a)) with (length a) by (unfold len; lia).
  rewrite <- !app_assoc.
  rewrite !drop_app_add', !take_app_add' by reflexivity.
  rewrite drop_app_length.
  assert (Hn : (length (drop 1 (b ++ [v])) `min` length (b ++ [v]) = length b)%nat).
  { rewrite length_drop, length_app. change (length [v]) with 1%nat. lia. }
  rewrite Hn.
  rewrite take_app_length.
  rewrite (drop_ge (drop 1 (b ++ [v])))
    by (rewrite length_drop, length_app; change (length [v]) with 1%nat; lia).
  rewrite app_nil_r, <- app_assoc.
  assert (H1 : length (take 1 (b ++ [v])) = 1%nat).
  { rewrite length_take, length_app. change (length [v]) with 1%nat. lia. }
  replace ((0 <=? len a) && (len a <? len (a ++ take 1 (b ++ [v]) ++ b)))
    with true.
  2:{ symmetry. rewrite andb_true_iff. split; [apply Z.leb_le; lia|].
      apply Z.ltb_lt. rewrite !len_app. unfold len. lia. }
  f_equal.
  replace (Z.to_nat (len a)) with (length a) by (unfold len; lia).
  rewrite insert_app_r_alt by lia.
  rewrite Nat.sub_diag. f_equal.
  destruct b as [|b0 b]; reflexivity.
Qed.

Lemma insert_spec (d : list Z) (p v : Z) :
  0 <= p <= len d -> len d < Int.max ->
  insert d p v = Return (take (Z.to_nat p) d ++ v :: drop (Z.to_nat p) d).
Proof.
  intros Hp Hmax.
  assert (Hlen : len (take (Z.to_nat p) d) = p).
  { unfold len in *. rewrite length_take. lia. }
  pose proof (insert_app (take (Z.to_nat p) d) (drop (Z.to_nat p) d) v) as H.
  rewrite take_drop, Hlen in H. apply H, Hmax.
Qed.

Lemma bind_Return {A B} (m : M A) (k : A -> M B) s a s' :
  m s = (Return a, s') -> (m ≫= k) s = k a s'.
Proof. intros H. unfold mbind, M_bind. rewrite H. reflexivity. Qed.

Lemma Edit_get_at s self e :
  edit_at s self = Some e -> Edit.get self s = (Return e, s).
Proof.
  unfold edit_at, Edit.get, mbind, M_bind, gets. simpl.
  destruct (widgets (win s) !! self) as [[| |]|]; intros H; inversion H.
  reflexivity.
Qed.

Lemma Edit_put_at s self e e' :
  edit_at s self = Some e ->
  Edit.put self e' s = (Return tt, snd (Edit.put self e' s))
  /\ edit_at (snd (Edit.put self e' s)) self = Some e'.
Proof.
  unfold edit_at, Edit.put, modify. simpl. intros H. split; [reflexivity|].
  destruct (widgets (win s) !! self) as [w|] eqn:Hw; [|discriminate].
  rewrite list_lookup_insert_eq; [reflexivity|].
  eapply lookup_lt_Some, Hw.
Qed.

Lemma widgets_Edit_Render self :
  preserves (fun s => widgets (win s)) (Edit.Render self).
Proof. apply preserves_Edit_Render. intros; reflexivity. Qed.

Lemma widgets_setCursor x y :
  preserves (fun s => widgets (win s)) (setCursor x y).
Proof. apply preserves_setCursor. intros; reflexivity. Qed.

(** The tail of the handler: the rune is inserted at the caret, and all
    that is left to do is to render. *)
Lemma KeyHandler_rune_inserts (s : World) (self : nat) (e : Edit) (ev : Event) :
  edit_at s self = Some e ->
  ev_Ch ev <> 0 -> ev_Mod ev = 0 \/ ev_Key ev <> 0 ->
  0 <= caret_index e <= len (e_display e) ->
  len (e_display e) < Int.max ->
  exists e' s1,
    Edit.KeyHandler_rune self ev s = (Edit.Render self;; mret true) s1
    /\ edit_at s1 self = Some e'
    /\ e_display e'
       = take (Z.to_nat (caret_index e)) (e_display e)
         ++ ev_Ch ev :: drop (Z.to_nat (caret_index e)) (e_display e).
Proof.
  intros Hat Hch Hmod Hp Hmax. unfold Edit.KeyHandler_rune.
  replace (negb (ev_Ch ev =? 0) && negb (ev_Mod ev =? 0) && (ev_Key ev =? 0))
    with false.
  2:{ symmetry. destruct Hmod as [-> | Hk].
      - rewrite andb_false_r. reflexivity.
      - apply Z.eqb_neq in Hk. rewrite Hk, andb_false_r. reflexivity. }
  apply Z.eqb_neq in Hch. rewrite Hch.
  rewrite (bind_Return _ _ _ _ _ (Edit_get_at _ _ _ Hat)).
  fold (caret_index e).
  rewrite (insert_spec _ _ _ Hp Hmax).
  set (d' := take _ _ ++ _ :: drop _ _).
  unfold lift at 1. unfold mbind at 1, M_bind at 1. cbv beta iota.
  destruct (e_cx (set_e_display d' e) <? _).
  - destruct (Edit_put_at s self e
                (set_e_cx (e_cx (set_e_display d' e) +i 1) (set_e_display d' e))
                Hat) as [Hput Hat'].
    eexists _, _. split; [|split].
    + unfold mbind at 1, M_bind at 1.
      unfold mbind at 1, M_bind at 1. rewrite Hput.
      unfold setCursor, modify. cbv beta iota. reflexivity.
    + exact Hat'.
    + reflexivity.
  - destruct (Edit_put_at s self e
                (set_e_at (e_at (set_e_display d' e) +i 1) (set_e_display d' e))
                Hat) as [Hput Hat'].
    eexists _, _. split; [|split].
    + unfold mbind at 1, M_bind at 1. rewrite Hput. reflexivity.
    + exact Hat'.
    + reflexivity.
Qed.

Lemma KeyHandler_printable (s : World) (self : nat) (e : Edit) (ev : Event) :
  edit_at s self = Some e -> printable_event ev ->
  Edit.KeyHandler self ev s
  = Edit.KeyHandler_rune self
      (mkEvent (ev_Mod ev) (ev_Key ev) (typed_rune ev)) s.
Proof.
  intros Hat Hev. unfold Edit.KeyHandler.
  rewrite (bind_Return _ _ _ _ _ (Edit_get_at _ _ _ Hat)).
  unfold typed_rune.
  destruct Hev as [(Hk & Hm & Hc) | Hk]; rewrite Hk; cbv zeta; simpl.
  - destruct ev; simpl in *; subst; reflexivity.
  - reflexivity.
Qed.

(** C6: a printable key inserts its rune at the caret: the buffer grows by
    one, the runes before the caret stay, the ones from the caret on move
    right by one. *)
Theorem KeyHandler_inserts_at_caret (s : World) (self : nat) (e : Edit)
    (ev : Event) :
  edit_at s self = Some e ->
  printable_event ev ->
  0 <= caret_index e <= len (e_display e) ->
  len (e_display e) < Int.max ->
  let p := Z.to_nat (caret_index e) in
  exists e' s1,
    Edit.KeyHandler self ev s = (Edit.Render self;; mret true) s1
    /\ edit_at (exec (Edit.KeyHandler self ev) s) self = Some e'
    /\ e_display e'
       = take p (e_display e) ++ typed_rune ev :: drop p (e_display e)
    /\ len (e_display e') = len (e_display e) + 1
    /\ take p (e_display e') = take p (e_display e)
    /\ e_display e' !! p = Some (typed_rune ev)
    /\ drop (S p) (e_display e') = drop p (e_display e).
Proof.
  intros Hat Hev Hp Hmax p. unfold exec.
  rewrite (KeyHandler_printable s self e ev Hat Hev).
  destruct (KeyHandler_rune_inserts s self e
              (mkEvent (ev_Mod ev) (ev_Key ev) (typed_rune ev)) Hat)
    as (e' & s1 & Hrun & Hat1 & Hd); simpl; try assumption.
  - unfold typed_rune. destruct Hev as [(Hk & Hm & Hc) | Hk]; rewrite Hk.
    + exact Hc.
    + discriminate.
  - destruct Hev as [(Hk & Hm & Hc) | Hk]; [left; exact Hm | right].
    rewrite Hk. discriminate.
  - simpl in Hd. fold p in Hd.
    assert (Hlen : length (take p (e_display e)) = p).
    { rewrite length_take. unfold len in Hp. lia. }
    exists e', s1. split; [exact Hrun|]. split; [|split; [exact Hd|]].
    + rewrite Hrun.
      assert (Hw : widgets (win (snd ((Edit.Render self;; mret true) s1)))
                   = widgets (win s1)).
      { apply (preserves_bind (fun s => widgets (win s))).
        - apply widgets_Edit_Render.
        - intros ?. apply preserves_ret. }
      unfold edit_at in *. rewrite Hw. exact Hat1.
    + rewrite Hd. repeat split.
      * rewrite len_app. unfold len. simpl.
        rewrite <- (take_drop p (e_display e)) at 3.
        rewrite length_app. lia.
      * rewrite take_app_length'; [reflexivity | symmetry; exact Hlen].
      * rewrite lookup_app_r by lia. rewrite Hlen, Nat.sub_diag. reflexivity.
      * rewrite drop_app_ge by lia. rewrite Hlen.
        replace (S p - p)%nat with 1%nat by lia. reflexivity.
Qed.

Lemma KeyHandler_inserts_at_caret_witness :
  exists e',
    edit_at (exec (Edit.KeyHandler 0 (char 65)) demo_home) 0 = Some e'
    /\ e_display e' = [65; 49; 50; 51; 52; 53].
Proof.
  destruct (KeyHandler_inserts_at_caret demo_home 0 demo_home_edit (char 65))
    as (e' & s1 & _ & Hat & Hd & _).
  - vm_compute. reflexivity.
  - left. repeat split. discriminate.
  - vm_compute. split; discriminate.
  - vm_compute. reflexivity.
  - exists e'. split; [exact Hat | exact Hd].
Defined.

(** C10: the string behind [target] is written by the Enter branch of
    [KeyHandler] and by nothing else: every other key, [SetText],
    [Resize], [Render] and [Focus] leave the store of string variables as
    it was, whatever their outcome. *)
Theorem Edit_target_frame (self : nat) (s : World) :
  (forall ev, ev_Key ev <> termbox.KeyEnter ->
     heap (exec (Edit.KeyHandler self ev) s) = heap s)
  /\ (forall t end_, heap (exec (Edit.SetText self t end_) s) = heap s)
  /\ heap (exec (Edit.Resize self) s) = heap s
  /\ heap (exec (Edit.Render self) s) = heap s
  /\ heap (exec (Edit.Focus self) s) = heap s
  /\ (forall ev e p,
        ev_Key ev = termbox.KeyEnter ->
        edit_at s self = Some e -> e_target e = Some p ->
        Edit.KeyHandler self ev s
        = (Return false,
           set_heap (<[p := string_of_runes (e_display e)]> (heap s)) s)).
Proof.
  repeat split.
  - intros ev Hev. apply heap_Edit_KeyHandler, Hev.
  - intros t end_. apply heap_Edit_SetText.
  - apply heap_Edit_Resize.
  - apply heap_Edit_Render.
  - apply heap_Edit_Focus.
  - intros ev e p Hk Hat Ht. unfold Edit.KeyHandler.
    rewrite (bind_Return _ _ _ _ _ (Edit_get_at _ _ _ Hat)).
    rewrite Hk, Ht. reflexivity.
Qed.

Lemma Edit_target_frame_witness :
  heap (exec (Edit.KeyHandler 0 (char 65)) demo_home) = demo_strings
  /\ heap (exec (Edit.KeyHandler 0 (key termbox.KeyEnter)) demo_home)
     = {[ 0%nat := str "12345" ]}
  /\ heap (exec (_ ← Edit.KeyHandler 0 (char 65);
                 Edit.KeyHandler 0 (key termbox.KeyEnter)) demo_home)
     = {[ 0%nat := str "A12345" ]}.
Proof.
  split; [|split].
  - rewrite (proj1 (Edit_target_frame 0 demo_home) (char 65)).
    + reflexivity.
    + discriminate.
  - vm_compute. reflexivity.
  - vm_compute. reflexivity.
Defined.

(** C4 (violated): backspace with the caret one column right of [trueX]
    moves the caret out of the buffer.  In the first run the index becomes
    negative, in the second it passes the end of the buffer, and the next
    character typed makes [insert] panic. *)
Theorem Backspace_breaks_caret_invariant :
  (exists e,
      edit_at narrow_backspace 0 = Some e
      /\ e_display e = [97; 98] /\ e_trueX e = 5 /\ e_cx e = 1 /\ e_at e = 1
      /\ caret_index e = -3
      /\ ~ caret_invariant e)
  /\ (exists e,
         edit_at scrolled_backspace 0 = Some e
         /\ len (e_display e) = 7 /\ caret_index e = 8
         /\ ~ caret_invariant e
         /\ eval (Edit.KeyHandler 0 (char 65)) scrolled_backspace = Panic).
Proof.
  split.
  - eexists. split; [vm_compute; reflexivity|].
    repeat split; try reflexivity.
    unfold caret_invariant. vm_compute. intros [[H _] _]. apply H. reflexivity.
  - eexists. split; [vm_compute; reflexivity|].
    repeat split; try reflexivity.
    unfold caret_invariant. vm_compute. intros [[_ H] _]. apply H. reflexivity.
Qed.

(** ** The cell store *)

(** C5 (violated): [printf] compares the column [x+xx+1] with
    [mx = w.x - x], so a row of width 10 printed from column 3 ends after
    4 glyphs, at column 6, where 7 columns were left. *)
Theorem printf_stops_at_mirrored_margin :
  let text := str "abcdefgh" in
  let s0 := NewWindow 10 2 ∅ in
  let s := exec (Window.printf 3 0 (mkAttributes 1 2) text) s0 in
  EscapedLen 0 0 text = Return 0
  /\ len (runes_of_string text) = 8
  /\ Z.min 8 (w_x (win s0) - 3) = 7
  /\ eval (Window.printf 3 0 (mkAttributes 1 2) text) s0 = Return tt
  /\ map Ch (take 10 (backingStore (win s)))
     = [0; 0; 0; 97; 98; 99; 100; 0; 0; 0]
  /\ length (dirty_cells s) = 4%nat.
Proof. vm_compute. repeat split; reflexivity. Qed.

(** ** The list widget *)

(** C7 (violated): from the bottom of three lines in a list of height 2,
    page up and page down come back to the same top line, but
    [Display(Down)] only leaves paging mode when the page would pass the
    end: [IsPaging] still reports true. *)
Theorem Display_Up_Down_stays_paging :
  (exists l,
      list_at three_lines 0 = Some l
      /\ l_at l = len (l_content l) - l_trueH l
      /\ len (l_content l) > l_trueH l
      /\ l_paging l = false
      /\ l_at l = 1)
  /\ eval (List.Display 0 Up;; List.Display 0 Down) three_lines = Return tt
  /\ (exists l,
         list_at (exec (List.Display 0 Up;; List.Display 0 Down) three_lines) 0
         = Some l
         /\ l_at l = 1 /\ l_paging l = true)
  /\ eval (List.Display 0 Up;; List.Display 0 Down;; List.IsPaging 0)
       three_lines = Return true.
Proof.
  split; [|split; [|split]].
  - eexists. split; [vm_compute; reflexivity|]. vm_compute. repeat split; reflexivity.
  - vm_compute. reflexivity.
  - eexists. split; [vm_compute; reflexivity|]. split; reflexivity.
  - vm_compute. reflexivity.
Qed.

(** ** Focus navigation *)

(** C8 (violated): with an edit, a label and an edit, and the focus on the
    second edit, the backward scan stops above index 0, so the first edit
    is never tried; the wrap-around scan then comes down to the widget that
    had the focus and gives it the focus again. *)
Theorem focusPrevious_never_tries_first_widget :
  map CanFocus (widgets (win edit_label_edit)) = [true; false; true]
  /\ w_focus (win edit_label_edit) = 2
  /\ eval focusPrevious edit_label_edit = Return tt
  /\ w_focus (win (exec focusPrevious edit_label_edit)) = 2.
Proof. vm_compute. repeat split; reflexivity. Qed.

(** ** The [strings] helpers *)

Lemma byte_eqb_spec (a b : byte) : reflect (a = b) (byte_eqb a b).
Proof.
  unfold byte_eqb. destruct (Byte.eqb a b) eqn:E; constructor.
  - apply Byte.byte_dec_bl, E.
  - apply Byte.eqb_false, E.
Qed.

Lemma byte_eqb_refl (a : byte) : byte_eqb a a = true.
Proof. apply Byte.byte_dec_lb. reflexivity. Qed.

Lemma byte_eqb_neq (a b : byte) : a <> b -> byte_eqb a b = false.
Proof. intros H. destruct (byte_eqb_spec a b); [contradiction | reflexivity]. Qed.

Lemma len_cons {A} (a : A) (l : list A) : len (a :: l) = 1 + len l.
Proof. unfold len. simpl length. lia. Qed.

Lemma len_nil {A} : len (@nil A) = 0.
Proof. reflexivity. Qed.

(** The slice that cuts the middle part out of a string. *)
Lemma slice_middle {A} (a b c : list A) :
  slice (a ++ b ++ c) (len a) (len a + len b) = Return b.
Proof.
  unfold slice. pose proof (len_nonneg a). pose proof (len_nonneg b).
  pose proof (len_nonneg c).
  replace ((0 <=? len a) && (len a <=? len a + len b)
           && (len a + len b <=? len (a ++ b ++ c))) with true
    by (symmetry; rewrite !len_app, !andb_true_iff;
        repeat split; apply Z.leb_le; lia).
  f_equal.
  replace (Z.to_nat (len a)) with (length a) by (unfold len; lia).
  replace (Z.to_nat (len a + len b - len a)) with (length b)
    by (unfold len; lia).
  rewrite drop_app_length, take_app_length. reflexivity.
Qed.

Lemma HasPrefix_nil (s : gostring) : strings_HasPrefix s [] = true.
Proof. destruct s; reflexivity. Qed.

Lemma Index_m_cons (c : byte) (s : gostring) :
  strings_Index (c :: s) (str "m")
  = if byte_eqb c "m" then 0
    else let i := strings_Index s (str "m") in if i <? 0 then -1 else i + 1.
Proof.
  change (str "m") with ["m"%byte].
  cbn [strings_Index strings_HasPrefix].
  rewrite HasPrefix_nil, andb_true_r. reflexivity.
Qed.

(** The position of the terminator: the first ['m'] of the string. *)
Lemma Index_m_none (s : gostring) :
  "m"%byte ∉ s -> strings_Index s (str "m") = -1.
Proof.
  induction s as [|c s IH]; intros Hm; [reflexivity|].
  apply not_elem_of_cons in Hm as [Hc Hs].
  rewrite Index_m_cons, (byte_eqb_neq c "m") by congruence.
  rewrite (IH Hs). reflexivity.
Qed.

Lemma Index_m_first (pre post : gostring) :
  "m"%byte ∉ pre ->
  strings_Index (pre ++ "m"%byte :: post) (str "m") = len pre.
Proof.
  induction pre as [|c pre IH]; intros Hm.
  - cbn [app]. rewrite Index_m_cons, byte_eqb_refl. reflexivity.
  - apply not_elem_of_cons in Hm as [Hc Hs].
    cbn [app]. rewrite Index_m_cons, (byte_eqb_neq c "m") by congruence.
    rewrite (IH Hs). cbv zeta. rewrite len_cons.
    pose proof (len_nonneg pre).
    destruct (Z.ltb_spec (len pre) 0); lia.
Qed.

(** Either there is no ['m'], or the string splits at its first one. *)
Lemma first_m (s : gostring) :
  "m"%byte ∉ s
  \/ exists pre post, s = pre ++ "m"%byte :: post /\ "m"%byte ∉ pre.
Proof.
  induction s as [|c s IH].
  - left. apply not_elem_of_nil.
  - destruct (byte_eqb_spec c "m") as [-> | Hc].
    + right. exists [], s. split; [reflexivity | apply not_elem_of_nil].
    + destruct IH as [Hs | (pre & post & -> & Hpre)].
      * left. apply not_elem_of_cons. split; [congruence | exact Hs].
      * right. exists (c :: pre), post. split; [reflexivity|].
        apply not_elem_of_cons. split; [congruence | exact Hpre].
Qed.

Lemma HasSuffix_m_app (v : gostring) :
  strings_HasSuffix (v ++ ["m"%byte]) (str "m") = true.
Proof.
  unfold strings_HasSuffix. rewrite rev_app_distr.
  change (rev (str "m")) with ["m"%byte]. cbn [rev app strings_HasPrefix].
  rewrite byte_eqb_refl, HasPrefix_nil. reflexivity.
Qed.

Lemma HasSuffix_m_inv (v : gostring) :
  strings_HasSuffix v (str "m") = true -> exists pre, v = pre ++ ["m"%byte].
Proof.
  unfold strings_HasSuffix.
  destruct (rev v) as [|c r] eqn:E; [discriminate|].
  change (rev (str "m")) with ["m"%byte]. cbn [strings_HasPrefix].
  destruct (byte_eqb_spec c "m") as [-> | ]; [|discriminate].
  intros _. exists (rev r).
  rewrite <- (rev_involutive v), E. reflexivity.
Qed.

Lemma HasSuffix_m_none (v : gostring) :
  "m"%byte ∉ v -> strings_HasSuffix v (str "m") = false.
Proof.
  intros Hm. destruct (strings_HasSuffix v (str "m")) eqn:E; [|reflexivity].
  apply HasSuffix_m_inv in E as [pre ->].
  exfalso. apply Hm. apply elem_of_app. right. apply list_elem_of_singleton.
  reflexivity.
Qed.

(** [strings.Split] on fields without separator. *)
Lemma Split_plain (f : gostring) :
  ";"%byte ∉ f -> strings_Split f ";" = [f].
Proof.
  induction f as [|c f IH]; intros Hf; [reflexivity|].
  apply not_elem_of_cons in Hf as [Hc Hf].
  cbn [strings_Split]. rewrite (byte_eqb_neq c ";") by congruence.
  rewrite (IH Hf). reflexivity.
Qed.

Lemma Split_cons_field (f rest : gostring) :
  ";"%byte ∉ f ->
  strings_Split (f ++ ";"%byte :: rest) ";" = f :: strings_Split rest ";".
Proof.
  induction f as [|c f IH]; intros Hf.
  - cbn [app strings_Split]. rewrite byte_eqb_refl. reflexivity.
  - apply not_elem_of_cons in Hf as [Hc Hf].
    cbn [app strings_Split]. rewrite (byte_eqb_neq c ";") by congruence.
    rewrite (IH Hf). reflexivity.
Qed.

(** ** [strconv.Atoi] accepts signs and digits only *)

Lemma digit_of_plain (c : byte) (d : Z) :
  digit_of c = Some d -> c <> ";"%byte /\ c <> "m"%byte.
Proof.
  intros H. split; intros ->; vm_compute in H; discriminate.
Qed.

Lemma parse_uint_plain (s : gostring) (n un : Z) :
  parse_uint n s = inl un -> (";"%byte ∉ s) /\ ("m"%byte ∉ s).
Proof.
  revert n. induction s as [|c s IH]; intros n H.
  - split; apply not_elem_of_nil.
  - cbn [parse_uint] in H. destruct (digit_of c) as [d|] eqn:Hd; [|discriminate].
    destruct (n * 10 + d >? 2 ^ 64 - 1); [discriminate|].
    apply IH in H as [H1 H2]. apply digit_of_plain in Hd as [Hd1 Hd2].
    split; apply not_elem_of_cons; split; congruence || assumption.
Qed.

Lemma Atoi_digits (f : gostring) (n : Z) :
  strconv_Atoi f = inl n ->
  exists ds un,
    (f = ds \/ f = "-"%byte :: ds \/ f = "+"%byte :: ds)
    /\ parse_uint 0 ds = inl un.
Proof.
  unfold strconv_Atoi. intros H.
  destruct f as [|c f]; [discriminate|].
  destruct (byte_eqb_spec c "-") as [-> | Hminus];
    [| destruct (byte_eqb_spec c "+") as [-> | Hplus] ].
  - destruct f as [|d f]; [discriminate|].
    destruct (parse_uint 0 (d :: f)) as [un|e] eqn:Hp; [|discriminate].
    exists (d :: f), un. auto.
  - destruct f as [|d f]; [discriminate|].
    destruct (parse_uint 0 (d :: f)) as [un|e] eqn:Hp; [|discriminate].
    exists (d :: f), un. auto.
  - destruct (parse_uint 0 (c :: f)) as [un|e] eqn:Hp; [|discriminate].
    exists (c :: f), un. auto.
Qed.

Lemma Atoi_plain (f : gostring) (n : Z) :
  strconv_Atoi f = inl n -> plain_field f.
Proof.
  intros H. apply Atoi_digits in H as (ds & un & Hf & Hp).
  apply parse_uint_plain in Hp as [H1 H2]. unfold plain_field.
  destruct Hf as [-> | [-> | ->]]; [auto | |];
    split; apply not_elem_of_cons; split; try discriminate; assumption.
Qed.

(** ** [DecodeColor]: one field *)

Lemma slice_to_init {A} (pre : list A) (x : A) :
  slice_to (pre ++ [x]) (len (pre ++ [x]) - 1) = Return pre.
Proof.
  rewrite slice_to_spec.
  - rewrite len_app. change (len [x]) with 1.
    replace (Z.to_nat (len pre + 1 - 1)) with (length pre) by (unfold len; lia).
    rewrite take_app_length. reflexivity.
  - rewrite len_app. change (len [x]) with 1. pose proof (len_nonneg pre). lia.
Qed.

(** The dispatch on the number, once the field has parsed. *)
Lemma DecodeColor_field_number fg bg a foundM (v : gostring) (n : Z) :
  "m"%byte ∉ v -> strconv_Atoi v = inl n ->
  if recognized n
  then exists a', DecodeColor_field fg bg a foundM v = Return (Ok (a', foundM))
  else DecodeColor_field fg bg a foundM v = Return (Err ErrNotEscSequence).
Proof.
  intros Hm Hn. unfold DecodeColor_field.
  rewrite (HasSuffix_m_none v Hm). cbn [mbind outcome_bind mret outcome_ret].
  rewrite Hn. unfold recognized. rewrite !Z.geb_leb.
  set (b1 := n =? AttrReset). set (b2 := n =? AttrBold).
  set (b3 := n =? AttrUnderline). set (b4 := n =? AttrReverse).
  set (b5 := (ColorBlack + ANSIFg <=? n) && (n <=? ColorWhite + ANSIFg)).
  set (b6 := (ColorBlack + ANSIBg <=? n) && (n <=? ColorWhite + ANSIBg)).
  destruct b1, b2, b3, b4, b5, b6; cbn [orb];
    first [ reflexivity | eexists; reflexivity ].
Qed.

Lemma DecodeColor_field_good fg bg a foundM (v : gostring) :
  good_field v ->
  exists a', DecodeColor_field fg bg a foundM v = Return (Ok (a', foundM)).
Proof.
  intros (n & Hn & Hr).
  pose proof (Atoi_plain v n Hn) as [_ Hm].
  pose proof (DecodeColor_field_number fg bg a foundM v n Hm Hn) as H.
  rewrite Hr in H. exact H.
Qed.

Lemma DecodeColor_field_unrecognized fg bg a foundM (v : gostring) (n : Z) :
  "m"%byte ∉ v -> strconv_Atoi v = inl n -> recognized n = false ->
  DecodeColor_field fg bg a foundM v = Return (Err ErrNotEscSequence).
Proof.
  intros Hm Hn Hr.
  pose proof (DecodeColor_field_number fg bg a foundM v n Hm Hn) as H.
  rewrite Hr in H. exact H.
Qed.

Lemma DecodeColor_field_not_a_number fg bg a foundM (v : gostring) e :
  "m"%byte ∉ v -> strconv_Atoi v = inr e ->
  DecodeColor_field fg bg a foundM v = Return (Err (NumError "Atoi" v e)).
Proof.
  intros Hm Hn. unfold DecodeColor_field.
  rewrite (HasSuffix_m_none v Hm). cbn [mbind outcome_bind mret outcome_ret].
  rewrite Hn. reflexivity.
Qed.

(** The last field carries the terminator; it is cut off before parsing,
    and [foundM] is set. *)
Lemma DecodeColor_field_last fg bg a foundM (v : gostring) :
  "m"%byte ∉ v ->
  DecodeColor_field fg bg a foundM (v ++ ["m"%byte])
  = DecodeColor_field fg bg a true v.
Proof.
  intros Hm. unfold DecodeColor_field.
  rewrite HasSuffix_m_app, slice_to_init, (HasSuffix_m_none v Hm).
  reflexivity.
Qed.

Lemma DecodeColor_field_returns fg bg a foundM (v : gostring) :
  returns (DecodeColor_field fg bg a foundM v).
Proof.
  unfold DecodeColor_field, returns.
  destruct (strings_HasSuffix v (str "m")) eqn:Hs.
  - apply HasSuffix_m_inv in Hs as [pre ->]. rewrite slice_to_init.
    cbn [mbind outcome_bind mret outcome_ret].
    destruct (strconv_Atoi pre); [|eexists; reflexivity].
    repeat match goal with
           | |- context [if ?b then _ else _] => destruct b
           end; eexists; reflexivity.
  - cbn [mbind outcome_bind mret outcome_ret].
    destruct (strconv_Atoi v); [|eexists; reflexivity].
    repeat match goal with
           | |- context [if ?b then _ else _] => destruct b
           end; eexists; reflexivity.
Qed.

Lemma DecodeColor_loop_returns fg bg a foundM (ps : list gostring) :
  returns (DecodeColor_loop fg bg a foundM ps).
Proof.
  revert a foundM. induction ps as [|v ps IH]; intros a foundM.
  - eexists; reflexivity.
  - cbn [DecodeColor_loop].
    destruct (DecodeColor_field_returns fg bg a foundM v) as [r ->].
    cbn [mbind outcome_bind].
    destruct r as [[a' fm]|e]; [apply IH | eexists; reflexivity].
Qed.

(** ** [DecodeColor]: the loop over the fields *)

Lemma join_fields_cons (g : gostring) (fs : list gostring) :
  fs <> [] -> join_fields (g :: fs) = g ++ ";"%byte :: join_fields fs.
Proof. destruct fs; [congruence | reflexivity]. Qed.

Lemma join_fields_no_m (fs : list gostring) :
  Forall (fun f => "m"%byte ∉ f) fs -> "m"%byte ∉ join_fields fs.
Proof.
  induction 1 as [|f fs Hf Hfs IH]; [apply not_elem_of_nil|].
  destruct fs as [|g fs]; [exact Hf|].
  rewrite join_fields_cons by discriminate.
  apply not_elem_of_app. split; [exact Hf|].
  apply not_elem_of_cons. split; [discriminate | exact IH].
Qed.

Lemma DecodeColor_loop_failure fg bg (good : list gostring) (f : gostring)
    (rest : list gostring) (err : error) :
  Forall good_field good -> Forall plain_field (f :: rest) ->
  (forall a fm, DecodeColor_field fg bg a fm f = Return (Err err)) ->
  forall a fm,
    DecodeColor_loop fg bg a fm
      (strings_Split (join_fields (good ++ f :: rest) ++ ["m"%byte]) ";")
    = Return (Err err).
Proof.
  intros Hgood Hplain Hf.
  apply Forall_cons in Hplain as [[Hf1 Hf2] Hrest].
  induction Hgood as [|g gs Hg Hgs IH]; intros a fm.
  - cbn [app]. destruct rest as [|r rs].
    + cbn [join_fields]. rewrite Split_plain.
      2:{ apply not_elem_of_app. split; [exact Hf1|].
          apply not_elem_of_cons. split; [discriminate | apply not_elem_of_nil]. }
      cbn [DecodeColor_loop]. rewrite (DecodeColor_field_last _ _ _ _ _ Hf2), Hf.
      reflexivity.
    + rewrite join_fields_cons by discriminate.
      rewrite <- app_assoc. cbn [app]. rewrite (Split_cons_field _ _ Hf1).
      cbn [DecodeColor_loop]. rewrite Hf. reflexivity.
  - cbn [app]. rewrite join_fields_cons by (destruct gs; discriminate).
    rewrite <- app_assoc. cbn [app].
    destruct Hg as (n & Hn & Hr).
    pose proof (Atoi_plain g n Hn) as [Hg1 Hg2].
    rewrite (Split_cons_field _ _ Hg1). cbn [DecodeColor_loop].
    destruct (DecodeColor_field_good fg bg a fm g) as [a' ->];
      [exists n; auto|].
    cbn [mbind outcome_bind]. apply IH.
Qed.

(** ** [DecodeColor] *)

Lemma DecodeColor_body fg bg (body trailing : gostring) :
  "m"%byte ∉ body ->
  DecodeColor fg bg (esc_marker ++ body ++ "m"%byte :: trailing)
  = r ← DecodeColor_loop fg bg (mkAttributes 0 0) false
          (strings_Split (body ++ ["m"%byte]) ";");
    match r with
    | Err e => mret (Err e)
    | Ok (a, foundM) =>
        if negb foundM then mret (Err ErrNotEscSequence)
        else
          let skip := strings_Index
                        (esc_marker ++ body ++ "m"%byte :: trailing)
                        (str "m") in
          if skip =? -1 then mret (Err ErrNotEscSequence)
          else mret (Ok (a, skip + 1))
    end.
Proof.
  intros Hm. unfold DecodeColor.
  pose proof (len_nonneg body) as Hb. pose proof (len_nonneg trailing) as Ht.
  assert (Hlen : len (esc_marker ++ body ++ "m"%byte :: trailing)
                 = 2 + (len body + (1 + len trailing))).
  { rewrite !len_app, len_cons. reflexivity. }
  replace (len (esc_marker ++ body ++ "m"%byte :: trailing) <? 2) with false
    by (symmetry; apply Z.ltb_ge; lia).
  change (strings_HasPrefix (esc_marker ++ body ++ "m"%byte :: trailing)
            esc_marker)
    with (byte_eqb ESC ESC && (byte_eqb "[" "["
          && strings_HasPrefix (body ++ "m"%byte :: trailing) [])).
  rewrite !byte_eqb_refl, HasPrefix_nil. cbn [andb orb negb].
  rewrite slice_from_spec by lia.
  change (drop (Z.to_nat 2) (esc_marker ++ body ++ "m"%byte :: trailing))
    with (body ++ "m"%byte :: trailing).
  cbn [mbind outcome_bind].
  rewrite (Index_m_first body trailing Hm).
  replace (len body =? -1) with false by (symmetry; apply Z.eqb_neq; lia).
  replace (esc_marker ++ body ++ "m"%byte :: trailing)
    with (esc_marker ++ (body ++ ["m"%byte]) ++ trailing) at 1
    by (rewrite <- app_assoc; reflexivity).
  replace (len body + 2 + 1) with (len esc_marker + len (body ++ ["m"%byte]))
    by (rewrite len_app; change (len esc_marker) with 2;
        change (len ["m"%byte]) with 1; lia).
  rewrite slice_middle. cbn [mbind outcome_bind]. reflexivity.
Qed.

Lemma DecodeColor_returns fg bg (esc : gostring) :
  returns (DecodeColor fg bg esc).
Proof.
  destruct (strings_HasPrefix esc esc_marker) eqn:Hp.
  2:{ unfold DecodeColor. rewrite Hp, orb_true_r. eexists; reflexivity. }
  assert (Hesc : exists tail, esc = esc_marker ++ tail).
  { destruct esc as [|c1 [|c2 tail]]; [discriminate | |].
    { cbn [strings_HasPrefix esc_marker] in Hp.
      rewrite andb_false_r in Hp. discriminate. }
    cbn [strings_HasPrefix esc_marker] in Hp.
    apply andb_true_iff in Hp as [H1 H2]. apply andb_true_iff in H2 as [H2 _].
    destruct (byte_eqb_spec c1 ESC) as [-> |]; [|discriminate].
    destruct (byte_eqb_spec c2 "[") as [-> |]; [|discriminate].
    exists tail. reflexivity. }
  destruct Hesc as [tail ->].
  destruct (first_m tail) as [Hm | (body & trailing & -> & Hm)].
  - unfold DecodeColor. rewrite Hp.
    pose proof (len_nonneg tail).
    replace (len (esc_marker ++ tail) <? 2) with false
      by (symmetry; apply Z.ltb_ge; rewrite len_app;
          change (len esc_marker) with 2; lia).
    cbn [orb negb].
    rewrite slice_from_spec
      by (rewrite len_app; change (len esc_marker) with 2; lia).
    change (drop (Z.to_nat 2) (esc_marker ++ tail)) with tail.
    cbn [mbind outcome_bind]. rewrite (Index_m_none tail Hm).
    eexists; reflexivity.
  - rewrite (DecodeColor_body fg bg body trailing Hm).
    destruct (DecodeColor_loop_returns fg bg (mkAttributes 0 0) false
                (strings_Split (body ++ ["m"%byte]) ";")) as [r ->].
    cbn [mbind outcome_bind].
    destruct r as [[a fm]|e]; [|eexists; reflexivity].
    destruct (negb fm); [eexists; reflexivity|].
    cbv zeta.
    destruct (_ =? -1); eexists; reflexivity.
Qed.

Lemma good_field_no_m (f : gostring) : good_field f -> "m"%byte ∉ f.
Proof. intros (n & Hn & _). apply (Atoi_plain f n Hn). Qed.

Lemma fields_no_m (good : list gostring) (f : gostring) (rest : list gostring) :
  Forall good_field good -> Forall plain_field (f :: rest) ->
  "m"%byte ∉ join_fields (good ++ f :: rest).
Proof.
  intros Hg Hp. apply join_fields_no_m, Forall_app. split.
  - eapply Forall_impl; [exact Hg | apply good_field_no_m].
  - eapply Forall_impl; [exact Hp | intros x [_ H]; exact H].
Qed.

(** C2 (as amended): [DecodeColor] returns on every input, and each kind
    of malformed input is answered with its error: [ErrNotEscSequence]
    for a missing marker, a missing terminator and a number that is not
    recognized, the error of [strconv.Atoi] for a field that is no
    integer. *)
Theorem DecodeColor_failure (fg bg : Z) (esc : gostring) :
  returns (DecodeColor fg bg esc)
  /\ forall e, decode_failure esc e -> DecodeColor fg bg esc = Return (Err e).
Proof.
  split; [apply DecodeColor_returns|].
  intros e H. destruct H as [esc Hp | body Hm
                            | good f rest trailing e Hg Hpl Ha
                            | good f rest trailing n Hg Hpl Ha Hr].
  - unfold DecodeColor. rewrite Hp, orb_true_r. reflexivity.
  - unfold DecodeColor.
    pose proof (len_nonneg body).
    replace (len (esc_marker ++ body) <? 2) with false
      by (symmetry; apply Z.ltb_ge; rewrite len_app;
          change (len esc_marker) with 2; lia).
    change (strings_HasPrefix (esc_marker ++ body) esc_marker)
      with (byte_eqb ESC ESC && (byte_eqb "[" "["
            && strings_HasPrefix body [])).
    rewrite !byte_eqb_refl, HasPrefix_nil. cbn [andb orb negb].
    rewrite slice_from_spec
      by (rewrite len_app; change (len esc_marker) with 2; lia).
    change (drop (Z.to_nat 2) (esc_marker ++ body)) with body.
    cbn [mbind outcome_bind]. rewrite (Index_m_none body Hm). reflexivity.
  - rewrite (DecodeColor_body fg bg _ trailing (fields_no_m _ _ _ Hg Hpl)).
    rewrite (DecodeColor_loop_failure fg bg good f rest
               (NumError "Atoi" f e) Hg Hpl).
    + reflexivity.
    + intros a fm. apply DecodeColor_field_not_a_number; [|exact Ha].
      apply Forall_cons in Hpl as [[_ H] _]. exact H.
  - rewrite (DecodeColor_body fg bg _ trailing (fields_no_m _ _ _ Hg Hpl)).
    rewrite (DecodeColor_loop_failure fg bg good f rest
               ErrNotEscSequence Hg Hpl).
    + reflexivity.
    + intros a fm. eapply DecodeColor_field_unrecognized; [|exact Ha|exact Hr].
      apply Forall_cons in Hpl as [[_ H] _]. exact H.
Qed.

Lemma DecodeColor_failure_witness :
  DecodeColor 0 0 (ESC :: str "[1;x;31mrest")
  = Return (Err (NumError "Atoi" (str "x") ErrSyntax)).
Proof.
  apply (proj2 (DecodeColor_failure 0 0 (ESC :: str "[1;x;31mrest"))).
  apply (field_not_a_number [str "1"] (str "x") [str "31"] (str "rest")).
  - constructor; [exists 1; split; reflexivity | constructor].
  - repeat (constructor; [split; rewrite list_elem_of_In; cbn;
                          intuition discriminate|]).
    constructor.
  - reflexivity.
Defined.

(** C2, as stated, fails: a field that is no integer is answered with the
    error of [strconv.Atoi], not with [ErrNotEscSequence]. *)
Lemma DecodeColor_not_a_number_counterexample :
  strconv_Atoi (str "x") = inr ErrSyntax
  /\ DecodeColor 0 0 (ESC :: str "[xm")
     = Return (Err (NumError "Atoi" (str "x") ErrSyntax))
  /\ DecodeColor 0 0 (ESC :: str "[xm") <> Return (Err ErrNotEscSequence).
Proof. repeat split. discriminate. Qed.

(** ** Bytes *)

Lemma byte_val_range (b : byte) : 0 <= byte_val b <= 255.
Proof.
  unfold byte_val. pose proof (Byte.to_N_bounded b). lia.
Qed.

Lemma byte_of_Z_val (z : Z) : 0 <= z <= 255 -> byte_val (byte_of_Z z) = z.
Proof.
  intros Hz. unfold byte_of_Z, byte_val.
  rewrite Z.mod_small by lia.
  destruct (Byte.of_N (Z.to_N z)) as [b|] eqn:E.
  - apply Byte.to_of_N in E. rewrite E. lia.
  - apply Byte.of_N_None_iff in E. lia.
Qed.

(** ** Bit operations as arithmetic *)

Lemma land_low_bits (a k : Z) : 0 <= k -> Z.land a (2 ^ k - 1) = a mod 2 ^ k.
Proof.
  intros Hk. rewrite <- Z.land_ones by exact Hk.
  rewrite Z.ones_equiv. reflexivity.
Qed.

Lemma lor_disjoint (hi lo k : Z) :
  0 <= k -> 0 <= lo < 2 ^ k -> Z.lor (hi * 2 ^ k) lo = hi * 2 ^ k + lo.
Proof.
  intros Hk Hlo.
  assert (H0 : Z.land (hi * 2 ^ k) lo = 0).
  { apply Z.bits_inj'. intros n Hn.
    rewrite Z.land_spec, Z.bits_0.
    destruct (Z.lt_ge_cases n k) as [Hlt | Hge].
    - rewrite Z.mul_pow2_bits_low by exact Hlt. reflexivity.
    - rewrite <- (Z.mod_small lo (2 ^ k)) by exact Hlo.
      rewrite Z.mod_pow2_bits_high by lia. apply andb_false_r. }
  rewrite <- Z.lxor_lor by exact H0.
  symmetry. apply Z.add_nocarry_lxor, H0.
Qed.

Lemma lor_shiftl (hi lo k : Z) :
  0 <= k -> 0 <= lo < 2 ^ k -> Z.lor (Z.shiftl hi k) lo = hi * 2 ^ k + lo.
Proof.
  intros Hk Hlo. rewrite Z.shiftl_mul_pow2 by exact Hk.
  apply lor_disjoint; assumption.
Qed.

(** ** [DecodeRuneInString] *)

Lemma DecodeRuneInString_bytes (s : gostring) :
  utf8.DecodeRuneInString s
  = decode_bytes (len s) (utf8.at_ s 0) (utf8.at_ s 1) (utf8.at_ s 2)
      (utf8.at_ s 3).
Proof. reflexivity. Qed.

(** The classes of the first byte. *)
Inductive first_class (z : Z) : Z -> Prop :=
| first_ascii : z < 0x80 -> first_class z utf8.as_
| first_invalid : 0x80 <= z < 0xC2 \/ 0xF4 < z -> first_class z utf8.xx
| first_two : 0xC2 <= z < 0xE0 -> first_class z utf8.s1
| first_E0 : z = 0xE0 -> first_class z utf8.s2
| first_three : 0xE0 < z < 0xF0 -> z <> 0xED -> first_class z utf8.s3
| first_ED : z = 0xED -> first_class z utf8.s4
| first_F0 : z = 0xF0 -> first_class z utf8.s5
| first_four : 0xF0 < z < 0xF4 -> first_class z utf8.s6
| first_F4 : z = 0xF4 -> first_class z utf8.s7.

Lemma first_classify (z : Z) : first_class z (utf8.first z).
Proof.
  unfold utf8.first.
  repeat match goal with
         | |- context [?a <? ?b] => destruct (Z.ltb_spec a b)
         | |- context [?a =? ?b] => destruct (Z.eqb_spec a b)
         end; constructor; lia.
Qed.

(** Bit operations and comparisons on literals are computed. *)
Ltac is_literal t :=
  lazymatch t with
  | Z0 => idtac
  | Zpos _ => idtac
  | Zneg _ => idtac
  end.

Ltac eval_literal t :=
  let v := eval vm_compute in t in change t with v.

Ltac eval_closed :=
  repeat match goal with
         | |- context [Z.land ?a ?b] =>
             is_literal a; is_literal b; eval_literal (Z.land a b)
         | |- context [Z.lor ?a ?b] =>
             is_literal a; is_literal b; eval_literal (Z.lor a b)
         | |- context [Z.lnot ?a] => is_literal a; eval_literal (Z.lnot a)
         | |- context [Z.shiftr ?a ?b] =>
             is_literal a; is_literal b; eval_literal (Z.shiftr a b)
         | |- context [Z.geb ?a ?b] =>
             is_literal a; is_literal b; eval_literal (Z.geb a b)
         | |- context [Z.ltb ?a ?b] =>
             is_literal a; is_literal b; eval_literal (Z.ltb a b)
         | |- context [Z.leb ?a ?b] =>
             is_literal a; is_literal b; eval_literal (Z.leb a b)
         | |- context [Z.eqb ?a ?b] =>
             is_literal a; is_literal b; eval_literal (Z.eqb a b)
         | |- context [Z.testbit ?a ?b] =>
             is_literal a; is_literal b; eval_literal (Z.testbit a b)
         end.

(** Case distinction on the comparisons of the goal, dropping the cases
    that contradict the hypotheses. *)
Ltac split_tests :=
  repeat (match goal with
          | |- context [?a =? ?b] => destruct (Z.eqb_spec a b)
          | |- context [?a <? ?b] => destruct (Z.ltb_spec a b)
          | |- context [?a <=? ?b] => destruct (Z.leb_spec a b)
          end; try (exfalso; lia); cbn [andb orb negb]; cbv iota).

Lemma lor2 (a b : Z) :
  0 <= b < 64 -> Z.lor (Z.shiftl a 6) b = a * 64 + b.
Proof. intros Hb. rewrite (lor_shiftl a b 6) by lia. reflexivity. Qed.

Lemma lor3 (a b c : Z) :
  0 <= b < 64 -> 0 <= c < 64 ->
  Z.lor (Z.lor (Z.shiftl a 12) (Z.shiftl b 6)) c = a * 4096 + b * 64 + c.
Proof.
  intros Hb Hc. rewrite (Z.shiftl_mul_pow2 b 6) by lia.
  rewrite (lor_shiftl a (b * 2 ^ 6) 12) by lia.
  replace (a * 2 ^ 12 + b * 2 ^ 6) with ((a * 64 + b) * 2 ^ 6) by lia.
  rewrite (lor_disjoint (a * 64 + b) c 6) by lia. lia.
Qed.

Lemma lor4 (a b c d : Z) :
  0 <= b < 64 -> 0 <= c < 64 -> 0 <= d < 64 ->
  Z.lor (Z.lor (Z.lor (Z.shiftl a 18) (Z.shiftl b 12)) (Z.shiftl c 6)) d
  = a * 262144 + b * 4096 + c * 64 + d.
Proof.
  intros Hb Hc Hd.
  rewrite (Z.shiftl_mul_pow2 b 12), (Z.shiftl_mul_pow2 c 6) by lia.
  rewrite (lor_shiftl a (b * 2 ^ 12) 18) by lia.
  replace (a * 2 ^ 18 + b * 2 ^ 12) with ((a * 64 + b) * 2 ^ 12) by lia.
  rewrite (lor_disjoint (a * 64 + b) (c * 2 ^ 6) 12) by lia.
  replace ((a * 64 + b) * 2 ^ 12 + c * 2 ^ 6)
    with (((a * 64 + b) * 64 + c) * 2 ^ 6) by lia.
  rewrite (lor_disjoint _ d 6) by lia. lia.
Qed.

Lemma land_maskx (z : Z) : Z.land z 63 = z mod 64.
Proof. apply (land_low_bits z 6). lia. Qed.

Lemma land_mask2 (z : Z) : Z.land z 31 = z mod 32.
Proof. apply (land_low_bits z 5). lia. Qed.

Lemma land_mask3 (z : Z) : Z.land z 15 = z mod 16.
Proof. apply (land_low_bits z 4). lia. Qed.

Lemma land_mask4 (z : Z) : Z.land z 7 = z mod 8.
Proof. apply (land_low_bits z 3). lia. Qed.

(** The value of a multi-byte form, once the tests have passed. *)
Ltac decode_value :=
  f_equal;
  rewrite ?land_maskx, ?land_mask2, ?land_mask3, ?land_mask4;
  first [ rewrite lor4 by (apply Z.mod_pos_bound; lia)
        | rewrite lor3 by (apply Z.mod_pos_bound; lia)
        | rewrite lor2 by (apply Z.mod_pos_bound; lia) ];
  Z.div_mod_to_equations; lia.

Lemma decode_bytes_arith (n s0 s1 s2 s3 : Z) :
  1 <= n -> 0 <= s0 <= 255 -> 0 <= s1 <= 255 -> 0 <= s2 <= 255 ->
  0 <= s3 <= 255 ->
  decode_bytes n s0 s1 s2 s3 = decode_arith n s0 s1 s2 s3.
Proof.
  intros Hn H0 H1 H2 H3. unfold decode_bytes.
  replace (n <? 1) with false by (symmetry; apply Z.ltb_ge; lia).
  unfold decode_arith, second_lo, second_hi, continuation.
  destruct (first_classify s0) as [Hc|Hc|Hc|Hc|Hc Hne|Hc|Hc|Hc|Hc];
    cbv zeta; try subst s0;
    unfold utf8.as_, utf8.xx, utf8.s1, utf8.s2, utf8.s3, utf8.s4, utf8.s5,
      utf8.s6, utf8.s7, utf8.acceptRanges, utf8.locb, utf8.hicb,
      utf8.RuneError, utf8.maskx, utf8.mask2, utf8.mask3, utf8.mask4;
    eval_closed; cbv iota.
  - rewrite Z.land_m1_r, Z.lor_0_r. split_tests. reflexivity.
  - rewrite Z.land_0_r. eval_closed. split_tests; reflexivity.
  - split_tests; try reflexivity; decode_value.
  - split_tests; try reflexivity; decode_value.
  - split_tests; try reflexivity; decode_value.
  - split_tests; try reflexivity; decode_value.
  - split_tests; try reflexivity; decode_value.
  - split_tests; try reflexivity; decode_value.
  - split_tests; try reflexivity; decode_value.
Qed.

Lemma at_range (s : gostring) (i : nat) : 0 <= utf8.at_ s i <= 255.
Proof. apply byte_val_range. Qed.

Lemma DecodeRuneInString_arith (s : gostring) :
  s <> [] ->
  utf8.DecodeRuneInString s
  = decode_arith (len s) (utf8.at_ s 0) (utf8.at_ s 1) (utf8.at_ s 2)
      (utf8.at_ s 3).
Proof.
  intros Hs. rewrite DecodeRuneInString_bytes.
  apply decode_bytes_arith; try apply at_range.
  destruct s; [congruence|]. rewrite len_cons. pose proof (len_nonneg s). lia.
Qed.

(** What [DecodeRuneInString] returns on a non-empty string: a Unicode
    scalar value and a width between 1 and the length of the string. *)
Lemma DecodeRuneInString_valid (s : gostring) :
  s <> [] ->
  valid_rune (fst (utf8.DecodeRuneInString s))
  /\ 1 <= snd (utf8.DecodeRuneInString s) <= len s
  /\ snd (utf8.DecodeRuneInString s) <= 4.
Proof.
  intros Hs. rewrite (DecodeRuneInString_arith s Hs).
  assert (Hn : 1 <= len s).
  { destruct s; [congruence|]. rewrite len_cons. pose proof (len_nonneg s). lia. }
  pose proof (at_range s 0). pose proof (at_range s 1).
  pose proof (at_range s 2). pose proof (at_range s 3).
  unfold decode_arith, second_lo, second_hi, continuation, valid_rune,
    utf8.RuneError, utf8.MaxRune, utf8.surrogateMin, utf8.surrogateMax.
  split_tests; cbn [fst snd]; lia.
Qed.

(** ** [EncodeRune] *)

Lemma lor_tx (x : Z) : 0 <= x < 64 -> Z.lor utf8.tx x = 128 + x.
Proof. intros Hx. apply (lor_disjoint 2 x 6); lia. Qed.

Lemma lor_t2 (x : Z) : 0 <= x < 32 -> Z.lor utf8.t2 x = 192 + x.
Proof. intros Hx. apply (lor_disjoint 3 x 6); lia. Qed.

Lemma lor_t3 (x : Z) : 0 <= x < 16 -> Z.lor utf8.t3 x = 224 + x.
Proof. intros Hx. apply (lor_disjoint 14 x 4); lia. Qed.

Lemma lor_t4 (x : Z) : 0 <= x < 8 -> Z.lor utf8.t4 x = 240 + x.
Proof. intros Hx. apply (lor_disjoint 30 x 3); lia. Qed.

(** A continuation byte of [EncodeRune]: six bits of the rune. *)
Lemma continuation_byte (r k : Z) :
  0 <= k -> 0 <= r ->
  byte_val (byte_of_Z (Z.lor utf8.tx (Z.land (Z.shiftr r k) utf8.maskx)))
  = 128 + (r / 2 ^ k) mod 64.
Proof.
  intros Hk Hr. rewrite Z.shiftr_div_pow2 by exact Hk.
  unfold utf8.maskx. rewrite land_maskx.
  pose proof (Z.mod_pos_bound (r / 2 ^ k) 64).
  rewrite lor_tx by lia. apply byte_of_Z_val. lia.
Qed.

Lemma last_byte (r : Z) :
  0 <= r ->
  byte_val (byte_of_Z (Z.lor utf8.tx (Z.land r utf8.maskx))) = 128 + r mod 64.
Proof.
  intros Hr. unfold utf8.maskx. rewrite land_maskx.
  pose proof (Z.mod_pos_bound r 64).
  rewrite lor_tx by lia. apply byte_of_Z_val. lia.
Qed.

(** The four forms of [EncodeRune] on a scalar value, by the values of
    their bytes. *)
Inductive encoding (r : Z) : gostring -> Prop :=
| encoding1 b0 :
    r <= 0x7F -> byte_val b0 = r -> encoding r [b0]
| encoding2 b0 b1 :
    0x7F < r <= 0x7FF ->
    byte_val b0 = 192 + r / 64 -> byte_val b1 = 128 + r mod 64 ->
    encoding r [b0; b1]
| encoding3 b0 b1 b2 :
    0x7FF < r <= 0xFFFF ->
    byte_val b0 = 224 + r / 4096 -> byte_val b1 = 128 + (r / 64) mod 64 ->
    byte_val b2 = 128 + r mod 64 ->
    encoding r [b0; b1; b2]
| encoding4 b0 b1 b2 b3 :
    0xFFFF < r ->
    byte_val b0 = 240 + r / 262144 -> byte_val b1 = 128 + (r / 4096) mod 64 ->
    byte_val b2 = 128 + (r / 64) mod 64 -> byte_val b3 = 128 + r mod 64 ->
    encoding r [b0; b1; b2; b3].

Lemma EncodeRune_encoding (r : Z) :
  valid_rune r -> encoding r (utf8.EncodeRune r).
Proof.
  unfold valid_rune, utf8.MaxRune, utf8.surrogateMin, utf8.surrogateMax.
  intros [Hr Hs]. unfold utf8.EncodeRune.
  rewrite (Z.mod_small r (2 ^ 32)) by lia.
  unfold utf8.rune1Max, utf8.rune2Max, utf8.rune3Max, utf8.MaxRune,
    utf8.surrogateMin, utf8.surrogateMax.
  destruct (Z.leb_spec r 127).
  { apply encoding1; [lia | apply byte_of_Z_val; lia]. }
  destruct (Z.leb_spec r 2047).
  { apply encoding2; [lia | | apply last_byte; lia].
    rewrite Z.shiftr_div_pow2 by lia. change (2 ^ 6) with 64.
    assert (0 <= r / 64 < 32) by (Z.div_mod_to_equations; lia).
    rewrite lor_t2 by lia. apply byte_of_Z_val. lia. }
  replace ((r >? 1114111) || (55296 <=? r) && (r <=? 57343)) with false.
  2:{ symmetry. apply orb_false_iff. split.
      - rewrite Z.gtb_ltb. apply Z.ltb_ge. lia.
      - apply andb_false_iff.
        destruct (Z.leb_spec 55296 r); [right; apply Z.leb_gt; lia | left; reflexivity]. }
  destruct (Z.leb_spec r 65535).
  { unfold utf8.encode3. apply encoding3; [lia | | | apply last_byte; lia].
    - rewrite Z.shiftr_div_pow2 by lia. change (2 ^ 12) with 4096.
      assert (0 <= r / 4096 < 16) by (Z.div_mod_to_equations; lia).
      rewrite lor_t3 by lia. apply byte_of_Z_val. lia.
    - apply (continuation_byte r 6); lia. }
  unfold utf8.encode4. apply encoding4; [lia | | | | apply last_byte; lia].
  - rewrite Z.shiftr_div_pow2 by lia. change (2 ^ 18) with 262144.
    assert (0 <= r / 262144 < 8) by (Z.div_mod_to_equations; lia).
    rewrite lor_t4 by lia. apply byte_of_Z_val. lia.
  - apply (continuation_byte r 12); lia.
  - apply (continuation_byte r 6); lia.
Qed.

Lemma EncodeRune_length (r : Z) :
  valid_rune r -> 1 <= len (utf8.EncodeRune r) <= 4.
Proof.
  intros Hr. destruct (EncodeRune_encoding r Hr); unfold len; cbn; lia.
Qed.

(** Decoding what [EncodeRune] wrote gives the rune back and consumes
    exactly its bytes, whatever follows. *)
Lemma DecodeRuneInString_EncodeRune (r : Z) (t : gostring) :
  valid_rune r ->
  utf8.DecodeRuneInString (utf8.EncodeRune r ++ t)
  = (r, len (utf8.EncodeRune r)).
Proof.
  intros Hr. pose proof (EncodeRune_encoding r Hr) as He.
  destruct Hr as [Hr Hs].
  unfold utf8.MaxRune, utf8.surrogateMin, utf8.surrogateMax in *.
  pose proof (len_nonneg t) as Ht.
  destruct He as [b0 H0 E0 | b0 b1 H0 E0 E1 | b0 b1 b2 H0 E0 E1 E2
                 | b0 b1 b2 b3 H0 E0 E1 E2 E3];
    rewrite DecodeRuneInString_arith by discriminate;
    cbn [app]; rewrite ?len_cons;
    change (len (@nil byte)) with 0;
    unfold utf8.at_; cbn [nth];
    rewrite ?E0, ?E1, ?E2, ?E3.
  - pose proof (byte_val_range (nth 0 t x00)).
    pose proof (byte_val_range (nth 1 t x00)).
    pose proof (byte_val_range (nth 2 t x00)).
    unfold decode_arith, second_lo, second_hi, continuation.
    split_tests. reflexivity.
  - pose proof (byte_val_range (nth 0 t x00)).
    pose proof (byte_val_range (nth 1 t x00)).
    unfold decode_arith, second_lo, second_hi, continuation.
    assert (0 <= r / 64 < 32) by (Z.div_mod_to_equations; lia).
    pose proof (Z.mod_pos_bound r 64).
    split_tests; try (exfalso; Z.div_mod_to_equations; lia).
    all: apply pair_equal_spec; split; [Z.div_mod_to_equations; lia | lia].
  - pose proof (byte_val_range (nth 0 t x00)).
    unfold decode_arith, second_lo, second_hi, continuation.
    assert (0 <= r / 4096 < 16) by (Z.div_mod_to_equations; lia).
    pose proof (Z.mod_pos_bound r 64). pose proof (Z.mod_pos_bound (r / 64) 64).
    split_tests; try (exfalso; Z.div_mod_to_equations; lia).
    all: apply pair_equal_spec; split; [Z.div_mod_to_equations; lia | lia].
  - unfold decode_arith, second_lo, second_hi, continuation.
    assert (0 <= r / 262144 < 8) by (Z.div_mod_to_equations; lia).
    pose proof (Z.mod_pos_bound r 64). pose proof (Z.mod_pos_bound (r / 64) 64).
    pose proof (Z.mod_pos_bound (r / 4096) 64).
    split_tests; try (exfalso; Z.div_mod_to_equations; lia).
    all: apply pair_equal_spec; split; [Z.div_mod_to_equations; lia | lia].
Qed.

(** ** [Unescape] *)

Lemma Index_nonneg (s sep : gostring) :
  strings_Index s sep = -1 \/ 0 <= strings_Index s sep.
Proof.
  induction s as [|c s IH]; cbn [strings_Index].
  - destruct (strings_HasPrefix [] sep); lia.
  - destruct (strings_HasPrefix (c :: s) sep); [lia|].
    destruct (Z.ltb_spec (strings_Index s sep) 0); lia.
Qed.

(** A decoded sequence consumes at least one byte. *)
Lemma DecodeColor_skip fg bg (esc : gostring) a skip :
  DecodeColor fg bg esc = Return (Ok (a, skip)) -> 1 <= skip.
Proof.
  unfold DecodeColor. intros H.
  destruct (_ || _); [discriminate|].
  destruct (slice_from esc 2) as [tail| |]; cbn [mbind outcome_bind] in H;
    try discriminate.
  destruct (strings_Index tail (str "m") =? -1); [discriminate|].
  destruct (slice esc 2 _) as [body| |]; cbn [mbind outcome_bind] in H;
    try discriminate.
  destruct (DecodeColor_loop _ _ _ _ _) as [[[a' fm]|e]| |];
    cbn [mbind outcome_bind] in H; try discriminate.
  destruct (negb fm); [discriminate|]. cbv zeta in H.
  destruct (Z.eqb_spec (strings_Index esc (str "m")) (-1)); [discriminate|].
  inversion H; subst.
  destruct (Index_nonneg esc (str "m")); lia.
Qed.

Lemma Unescape_loop_step fg bg fuel (s ret : gostring) :
  s <> [] ->
  Unescape_loop fg bg (S fuel) s ret
  = let '(v, width) := utf8.DecodeRuneInString s in
    if v =? byte_val ESC then
      r ← DecodeColor fg bg s;
      match r with
      | Ok (_, skip) => Unescape_loop fg bg fuel (drop (Z.to_nat skip) s) ret
      | Err _ =>
          Unescape_loop fg bg fuel (drop (Z.to_nat width) s)
            (ret ++ string_of_rune v)
      end
    else
      Unescape_loop fg bg fuel (drop (Z.to_nat width) s)
        (ret ++ string_of_rune v).
Proof. destruct s; [congruence | reflexivity]. Qed.

Lemma string_of_runes_cons (r : Z) (rs : list Z) :
  string_of_runes (r :: rs) = utf8.EncodeRune r ++ string_of_runes rs.
Proof. reflexivity. Qed.

Lemma string_of_runes_app (rs1 rs2 : list Z) :
  string_of_runes (rs1 ++ rs2) = string_of_runes rs1 ++ string_of_runes rs2.
Proof.
  unfold string_of_runes. rewrite map_app, concat_app. reflexivity.
Qed.

(** With fuel for every byte the loop returns, and what it appends is the
    encoding of scalar values. *)
Lemma Unescape_loop_runes fg bg (fuel : nat) :
  forall s ret, (length s <= fuel)%nat ->
    exists rs, Forall valid_rune rs
      /\ Unescape_loop fg bg fuel s ret = Return (ret ++ string_of_runes rs).
Proof.
  induction fuel as [|fuel IH]; intros s ret Hlen.
  - destruct s; [|simpl in Hlen; lia].
    exists []. split; [constructor | simpl; rewrite app_nil_r; reflexivity].
  - destruct (decide (s = [])) as [-> | Hs].
    { exists []. split; [constructor | simpl; rewrite app_nil_r; reflexivity]. }
    rewrite (Unescape_loop_step fg bg fuel s ret Hs).
    destruct (DecodeRuneInString_valid s Hs) as (Hv & Hw & _).
    destruct (utf8.DecodeRuneInString s) as [v w]. cbn [fst snd] in Hv, Hw.
    assert (Hdrop : (length (drop (Z.to_nat w) s) <= fuel)%nat).
    { rewrite length_drop. unfold len in Hw. lia. }
    assert (Hemit : exists rs, Forall valid_rune rs
              /\ Unescape_loop fg bg fuel (drop (Z.to_nat w) s)
                   (ret ++ string_of_rune v)
                 = Return (ret ++ string_of_runes rs)).
    { destruct (IH (drop (Z.to_nat w) s) (ret ++ string_of_rune v) Hdrop)
        as (rs & Hrs & Heq).
      exists (v :: rs). split; [constructor; assumption|].
      rewrite Heq, string_of_runes_cons, <- app_assoc. reflexivity. }
    destruct (v =? byte_val ESC); [|exact Hemit].
    destruct (DecodeColor_returns fg bg s) as [r Hr]. rewrite Hr.
    cbn [mbind outcome_bind].
    destruct r as [[a skip]|e]; [|exact Hemit].
    apply DecodeColor_skip in Hr.
    apply IH. rewrite length_drop. destruct s; [congruence|].
    cbn [length] in *. lia.
Qed.

Lemma DecodeColor_needs_marker fg bg (s : gostring) :
  ESC ∉ s -> DecodeColor fg bg s = Return (Err ErrNotEscSequence).
Proof.
  intros H. unfold DecodeColor.
  replace (strings_HasPrefix s esc_marker) with false.
  - rewrite orb_true_r. reflexivity.
  - destruct s as [|c s]; [reflexivity|].
    apply not_elem_of_cons in H as [Hc _].
    cbn [strings_HasPrefix esc_marker].
    rewrite (byte_eqb_neq c ESC) by congruence. reflexivity.
Qed.

Lemma no_sequence_without_ESC fg bg (t : gostring) :
  ESC ∉ t -> no_sequence fg bg t.
Proof.
  intros H pre post r ->. apply not_elem_of_app in H as [_ H].
  rewrite (DecodeColor_needs_marker fg bg post H). discriminate.
Qed.

Lemma no_sequence_tail fg bg (a t : gostring) :
  no_sequence fg bg (a ++ t) -> no_sequence fg bg t.
Proof.
  intros H pre post r ->. apply (H (a ++ pre) post r).
  rewrite app_assoc. reflexivity.
Qed.

(** Text that is the encoding of scalar values and holds no sequence comes
    out of the loop as it went in. *)
Lemma Unescape_loop_plain fg bg (rs : list Z) :
  Forall valid_rune rs ->
  no_sequence fg bg (string_of_runes rs) ->
  forall fuel ret, (length (string_of_runes rs) <= fuel)%nat ->
    Unescape_loop fg bg fuel (string_of_runes rs) ret
    = Return (ret ++ string_of_runes rs).
Proof.
  induction 1 as [|r rs Hr Hrs IH]; intros Hno fuel ret Hlen.
  - destruct fuel; simpl; rewrite app_nil_r; reflexivity.
  - rewrite string_of_runes_cons in *.
    pose proof (EncodeRune_length r Hr) as Hl.
    assert (Hne : utf8.EncodeRune r ++ string_of_runes rs <> []).
    { intros E. apply (f_equal len) in E. rewrite len_app in E.
      pose proof (len_nonneg (string_of_runes rs)).
      change (len (@nil byte)) with 0 in E. lia. }
    destruct fuel as [|fuel].
    { rewrite length_app in Hlen. unfold len in Hl. lia. }
    rewrite (Unescape_loop_step fg bg fuel _ ret Hne).
    rewrite (DecodeRuneInString_EncodeRune r _ Hr).
    assert (Hdrop : drop (Z.to_nat (len (utf8.EncodeRune r)))
                      (utf8.EncodeRune r ++ string_of_runes rs)
                    = string_of_runes rs).
    { replace (Z.to_nat (len (utf8.EncodeRune r)))
        with (length (utf8.EncodeRune r)) by (unfold len; lia).
      apply drop_app_length. }
    rewrite Hdrop.
    assert (Hemit : Unescape_loop fg bg fuel (string_of_runes rs)
                      (ret ++ string_of_rune r)
                    = Return (ret ++ utf8.EncodeRune r ++ string_of_runes rs)).
    { rewrite IH.
      - rewrite <- app_assoc. reflexivity.
      - eapply no_sequence_tail, Hno.
      - rewrite length_app in Hlen. unfold len in Hl. lia. }
    destruct (r =? byte_val ESC); [|exact Hemit].
    destruct (DecodeColor_returns fg bg
                (utf8.EncodeRune r ++ string_of_runes rs)) as [d Hd].
    rewrite Hd. cbn [mbind outcome_bind].
    destruct d as [[a skip]|e]; [|exact Hemit].
    exfalso. apply (Hno [] _ (a, skip) eq_refl Hd).
Qed.

(** C3, as stated, fails: an escape marker that is re-emitted because no
    sequence starts there can meet the text after a removed sequence and
    form a new one. *)
Lemma Unescape_not_idempotent_counterexample :
  Unescape 0 0 (ESC :: ESC :: str "[0m[0m") = Return (ESC :: str "[0m")
  /\ Unescape 0 0 (ESC :: str "[0m") = Return []
  /\ (s ← Unescape 0 0 (ESC :: ESC :: str "[0m[0m"); Unescape 0 0 s)
     <> Unescape 0 0 (ESC :: ESC :: str "[0m[0m").
Proof. repeat split. discriminate. Qed.

(** ** [Color]: errors and format *)

Lemma valid_attribute_dec (at_ : Z) :
  valid_attribute at_
  \/ (at_ <> AttrNA /\ at_ <> AttrReset /\ at_ <> AttrBold
      /\ at_ <> AttrUnderline /\ at_ <> AttrReverse).
Proof. unfold valid_attribute. lia. Qed.

(** X1: the errors of [Color], in the order the code tests them: all
    three fields unset, then the attribute, the foreground, the
    background. *)
Theorem Color_errors (at_ f b : Z) :
  (at_ = AttrNA /\ f = AttrNA /\ b = AttrNA ->
     Color at_ f b = Err ErrInvalidColor)
  /\ (~ (at_ = AttrNA /\ f = AttrNA /\ b = AttrNA) ->
      (~ valid_attribute at_ -> Color at_ f b = Err ErrInvalidAttribute)
      /\ (valid_attribute at_ -> ~ valid_color f ->
          Color at_ f b = Err ErrInvalidForeground)
      /\ (valid_attribute at_ -> valid_color f -> ~ valid_color b ->
          Color at_ f b = Err ErrInvalidBackground)
      /\ (valid_attribute at_ -> valid_color f -> valid_color b ->
          exists es, Color at_ f b = Ok es)).
Proof.
  unfold valid_attribute, valid_color, Color, AttrNA, AttrReset, AttrBold,
    AttrUnderline, AttrReverse, ColorBlack, ColorWhite.
  split.
  - intros (-> & -> & ->). reflexivity.
  - intros Hna.
    replace ((at_ =? -1) && (f =? -1) && (b =? -1)) with false.
    2:{ symmetry. rewrite !andb_false_iff, !Z.eqb_neq. lia. }
    repeat split; intros;
      repeat match goal with
             | |- context [?x =? ?y] => destruct (Z.eqb_spec x y)
             | |- context [?x >=? ?y] => destruct (Z.geb_spec x y)
             | |- context [?x <=? ?y] => destruct (Z.leb_spec x y)
             end; cbn [andb orb]; try reflexivity; try lia;
      eexists; reflexivity.
Qed.

Lemma Color_errors_witness :
  Color 2 ColorRed AttrNA = Err ErrInvalidAttribute
  /\ Color AttrBold 8 AttrNA = Err ErrInvalidForeground
  /\ Color AttrBold ColorRed 8 = Err ErrInvalidBackground.
Proof.
  assert (Hna : forall a f b, a <> AttrNA -> ~ (a = AttrNA /\ f = AttrNA /\ b = AttrNA))
    by (intros a f b H [E _]; exact (H E)).
  split; [|split].
  - apply (proj2 (Color_errors 2 ColorRed AttrNA)).
    + apply Hna. discriminate.
    + unfold valid_attribute, AttrNA, AttrReset, AttrBold, AttrUnderline,
        AttrReverse. lia.
  - apply (proj2 (Color_errors AttrBold 8 AttrNA)).
    + apply Hna. discriminate.
    + right; right; left; reflexivity.
    + unfold valid_color, AttrNA, ColorBlack, ColorWhite. lia.
  - apply (proj2 (Color_errors AttrBold ColorRed 8)).
    + apply Hna. discriminate.
    + right; right; left; reflexivity.
    + right. unfold ColorBlack, ColorRed, ColorWhite. lia.
    + unfold valid_color, AttrNA, ColorBlack, ColorWhite. lia.
Defined.

(** X2: what [Color] writes: the marker, the fields that are present
    joined by semicolons, and the terminator; no field holds an ['m'] or a
    [';'], and each one reads back as a recognized number. *)
Theorem Color_format (at_ f b : Z) :
  valid_attribute at_ -> valid_color f -> valid_color b ->
  ~ (at_ = AttrNA /\ f = AttrNA /\ b = AttrNA) ->
  Color at_ f b
  = Ok (esc_marker ++ join_fields (color_fields at_ f b) ++ ["m"%byte])
  /\ color_fields at_ f b <> []
  /\ Forall good_field (color_fields at_ f b).
Proof.
  intros Ha Hf Hb Hna.
  apply valid_color_cases in Hf, Hb.
  unfold valid_attribute, AttrNA, AttrReset, AttrBold, AttrUnderline,
    AttrReverse in *.
  destruct Ha as [->|[->|[->|[->| ->]]]];
    destruct Hf as [->|[->|[->|[->|[->|[->|[->|[->| ->]]]]]]]];
    destruct Hb as [->|[->|[->|[->|[->|[->|[->|[->| ->]]]]]]]];
    try (exfalso; apply Hna; repeat split; reflexivity);
    (split; [vm_compute; reflexivity|]; split; [discriminate|]);
    repeat (constructor; [eexists; split; vm_compute; reflexivity|]);
    constructor.
Qed.

Lemma Color_format_witness :
  Color AttrBold ColorRed AttrNA = Ok (ESC :: str "[1;31m").
Proof.
  apply (Color_format AttrBold ColorRed AttrNA).
  - right; right; left; reflexivity.
  - right; unfold ColorBlack, ColorRed, ColorWhite; lia.
  - left; reflexivity.
  - unfold AttrBold, AttrNA; lia.
Defined.

(** ** [DecodeColor] and the wire format *)

Lemma Split_nonempty (s : gostring) : strings_Split s ";" <> [].
Proof.
  destruct s as [|c s]; [discriminate|]. cbn [strings_Split].
  destruct (byte_eqb c ";"); [discriminate|].
  destruct (strings_Split s ";"); discriminate.
Qed.

Lemma join_fields_cons_byte (c : byte) (f : gostring) (fs : list gostring) :
  join_fields ((c :: f) :: fs) = c :: join_fields (f :: fs).
Proof. destruct fs; reflexivity. Qed.

(** Joining what [strings.Split] gave restores the string. *)
Lemma join_Split (s : gostring) : join_fields (strings_Split s ";") = s.
Proof.
  induction s as [|c s IH]; [reflexivity|].
  cbn [strings_Split]. destruct (byte_eqb_spec c ";") as [-> | Hc].
  - rewrite join_fields_cons by apply Split_nonempty.
    rewrite IH. reflexivity.
  - pose proof (Split_nonempty s) as Hne.
    destruct (strings_Split s ";") as [|f fs]; [congruence|].
    rewrite join_fields_cons_byte, IH. reflexivity.
Qed.

Lemma Split_fields_plain (s : gostring) :
  Forall (fun f => ";"%byte ∉ f) (strings_Split s ";").
Proof.
  induction s as [|c s IH]; cbn [strings_Split].
  - constructor; [apply not_elem_of_nil | constructor].
  - destruct (byte_eqb_spec c ";") as [-> | Hc].
    + constructor; [apply not_elem_of_nil | exact IH].
    + destruct (strings_Split s ";") as [|f fs].
      * constructor; [|constructor].
        apply not_elem_of_cons. split; [congruence | apply not_elem_of_nil].
      * apply Forall_cons in IH as [Hf Hfs]. constructor; [|exact Hfs].
        apply not_elem_of_cons. split; [congruence | exact Hf].
Qed.

Lemma join_fields_elem (x : byte) (fs : list gostring) :
  x ∉ join_fields fs -> Forall (fun f => x ∉ f) fs.
Proof.
  induction fs as [|f fs IH]; intros H; [constructor|].
  destruct fs as [|g fs].
  - constructor; [exact H | constructor].
  - rewrite join_fields_cons in H by discriminate.
    apply not_elem_of_app in H as [Hf H].
    apply not_elem_of_cons in H as [_ H].
    constructor; [exact Hf | apply IH, H].
Qed.

(** The fields of a body: plain, and they join to the body. *)
Lemma body_fields (body : gostring) :
  "m"%byte ∉ body ->
  exists fs, fs <> [] /\ Forall plain_field fs /\ body = join_fields fs.
Proof.
  intros Hm. exists (strings_Split body ";").
  split; [apply Split_nonempty|]. split; [|symmetry; apply join_Split].
  pose proof (Split_fields_plain body) as H1.
  pose proof (join_fields_elem "m" (strings_Split body ";")) as H2.
  rewrite join_Split in H2. specialize (H2 Hm).
  apply Forall_forall. intros f Hf. split.
  - exact (proj1 (Forall_forall _ _) H1 f Hf).
  - exact (proj1 (Forall_forall _ _) H2 f Hf).
Qed.

Lemma good_field_dec (f : gostring) :
  good_field f
  \/ (exists e, strconv_Atoi f = inr e)
  \/ (exists n, strconv_Atoi f = inl n /\ recognized n = false).
Proof.
  unfold good_field.
  destruct (strconv_Atoi f) as [n|e].
  - destruct (recognized n) eqn:Hr.
    + left. exists n. auto.
    + right. right. exists n. auto.
  - right. left. exists e. reflexivity.
Qed.

(** Either every field is good, or there is a first one that is not. *)
Lemma first_bad_field (fs : list gostring) :
  Forall good_field fs
  \/ exists good f rest, fs = good ++ f :: rest /\ Forall good_field good
       /\ ((exists e, strconv_Atoi f = inr e)
           \/ (exists n, strconv_Atoi f = inl n /\ recognized n = false)).
Proof.
  induction fs as [|f fs IH]; [left; constructor|].
  destruct (good_field_dec f) as [Hg | Hbad].
  - destruct IH as [Hall | (good & x & rest & -> & Hgood & Hx)].
    + left. constructor; assumption.
    + right. exists (f :: good), x, rest.
      split; [reflexivity|]. split; [constructor; assumption | exact Hx].
  - right. exists [], f, fs. split; [reflexivity|]. split; [constructor | exact Hbad].
Qed.

(** The loop over good fields runs to its end and has seen the
    terminator. *)
Lemma DecodeColor_loop_good fg bg (fs : list gostring) :
  fs <> [] -> Forall good_field fs ->
  forall a fm, exists a',
    DecodeColor_loop fg bg a fm
      (strings_Split (join_fields fs ++ ["m"%byte]) ";")
    = Return (Ok (a', true)).
Proof.
  intros Hne Hgood. induction Hgood as [|g gs Hg Hgs IH]; [congruence|].
  intros a fm. destruct Hg as (n & Hn & Hr).
  pose proof (Atoi_plain g n Hn) as [Hg1 Hg2].
  destruct gs as [|h gs].
  - cbn [join_fields]. rewrite Split_plain.
    2:{ apply not_elem_of_app. split; [exact Hg1|].
        apply not_elem_of_cons. split; [discriminate | apply not_elem_of_nil]. }
    cbn [DecodeColor_loop]. rewrite (DecodeColor_field_last _ _ _ _ _ Hg2).
    destruct (DecodeColor_field_good fg bg a true g) as [a' ->];
      [exists n; auto|].
    exists a'. reflexivity.
  - rewrite join_fields_cons by discriminate.
    rewrite <- app_assoc. cbn [app]. rewrite (Split_cons_field _ _ Hg1).
    cbn [DecodeColor_loop].
    destruct (DecodeColor_field_good fg bg a fm g) as [a' ->];
      [exists n; auto|].
    cbn [mbind outcome_bind]. apply IH. discriminate.
Qed.

Lemma Index_marker_body (body trailing : gostring) :
  "m"%byte ∉ body ->
  strings_Index (esc_marker ++ body ++ "m"%byte :: trailing) (str "m")
  = 2 + len body.
Proof.
  intros Hm. rewrite app_assoc, Index_m_first.
  - rewrite len_app. reflexivity.
  - apply not_elem_of_app. split; [|exact Hm].
    apply not_elem_of_cons. split; [discriminate|].
    apply not_elem_of_cons. split; [discriminate | apply not_elem_of_nil].
Qed.

(** X3: [DecodeColor] ignores trailing characters: the result only
    depends on the string up to its first ['m']. *)
Theorem DecodeColor_ignores_trailing fg bg (body trailing : gostring) :
  "m"%byte ∉ body ->
  DecodeColor fg bg (esc_marker ++ body ++ "m"%byte :: trailing)
  = DecodeColor fg bg (esc_marker ++ body ++ ["m"%byte]).
Proof.
  intros Hm. rewrite !(DecodeColor_body fg bg body _ Hm).
  rewrite !(Index_marker_body body _ Hm). reflexivity.
Qed.

Lemma DecodeColor_ignores_trailing_witness :
  DecodeColor 0 0 (ESC :: str "[1;31mmoo")
  = DecodeColor 0 0 (ESC :: str "[1;31m").
Proof.
  apply (DecodeColor_ignores_trailing 0 0 (str "1;31") (str "moo")).
  rewrite list_elem_of_In. cbn. intuition discriminate.
Defined.

(** A string with the marker and no terminator is no sequence. *)
Lemma DecodeColor_no_terminator fg bg (tail : gostring) :
  "m"%byte ∉ tail ->
  DecodeColor fg bg (esc_marker ++ tail) = Return (Err ErrNotEscSequence).
Proof.
  intros Hm. unfold DecodeColor.
  pose proof (len_nonneg tail).
  replace (len (esc_marker ++ tail) <? 2) with false
    by (symmetry; apply Z.ltb_ge; rewrite len_app;
        change (len esc_marker) with 2; lia).
  change (strings_HasPrefix (esc_marker ++ tail) esc_marker)
    with (byte_eqb ESC ESC && (byte_eqb "[" "["
          && strings_HasPrefix tail [])).
  rewrite !byte_eqb_refl, HasPrefix_nil. cbn [andb orb negb].
  rewrite slice_from_spec
    by (rewrite len_app; change (len esc_marker) with 2; lia).
  change (drop (Z.to_nat 2) (esc_marker ++ tail)) with tail.
  cbn [mbind outcome_bind]. rewrite (Index_m_none tail Hm). reflexivity.
Qed.

(** After good fields, a field that is no recognized integer ends the
    decoding with an error. *)
Lemma DecodeColor_bad_field fg bg (good : list gostring) (f : gostring)
    (rest : list gostring) (trailing : gostring) :
  Forall good_field good -> Forall plain_field (f :: rest) ->
  (exists e, strconv_Atoi f = inr e)
  \/ (exists n, strconv_Atoi f = inl n /\ recognized n = false) ->
  exists err,
    DecodeColor fg bg
      (esc_marker ++ join_fields (good ++ f :: rest) ++ "m"%byte :: trailing)
    = Return (Err err).
Proof.
  intros Hg Hpl Hbad.
  rewrite (DecodeColor_body fg bg _ trailing (fields_no_m _ _ _ Hg Hpl)).
  assert (Hf : "m"%byte ∉ f).
  { apply Forall_cons in Hpl as [[_ H] _]. exact H. }
  destruct Hbad as [[e He] | (n & Hn & Hr)].
  - exists (NumError "Atoi" f e).
    rewrite (DecodeColor_loop_failure fg bg good f rest
               (NumError "Atoi" f e) Hg Hpl); [reflexivity|].
    intros a fm. apply DecodeColor_field_not_a_number; assumption.
  - exists ErrNotEscSequence.
    rewrite (DecodeColor_loop_failure fg bg good f rest
               ErrNotEscSequence Hg Hpl); [reflexivity|].
    intros a fm. eapply DecodeColor_field_unrecognized; eassumption.
Qed.

(** The marker, one or more good fields and the terminator are decoded,
    whatever follows; [skip] is the offset just past the terminator. *)
Lemma DecodeColor_well_formed fg bg (fs : list gostring) (trailing : gostring) :
  fs <> [] -> Forall good_field fs ->
  exists a,
    DecodeColor fg bg (esc_marker ++ join_fields fs ++ "m"%byte :: trailing)
    = Return (Ok (a, 2 + len (join_fields fs) + 1)).
Proof.
  intros Hne Hgood.
  assert (Hm : "m"%byte ∉ join_fields fs).
  { apply join_fields_no_m. eapply Forall_impl; [exact Hgood|].
    apply good_field_no_m. }
  rewrite (DecodeColor_body fg bg _ trailing Hm).
  destruct (DecodeColor_loop_good fg bg fs Hne Hgood (mkAttributes 0 0) false)
    as [a' ->].
  cbn [mbind outcome_bind negb]. cbv zeta.
  rewrite (Index_marker_body _ trailing Hm).
  pose proof (len_nonneg (join_fields fs)).
  destruct (Z.eqb_spec (2 + len (join_fields fs)) (-1)); [lia|].
  exists a'. reflexivity.
Qed.

(** X4: [DecodeColor] succeeds exactly on the wire format: the marker,
    one or more recognized integers joined by semicolons, the terminator,
    and anything after it; [skip] is the offset just past the
    terminator. *)
Theorem DecodeColor_succeeds_iff fg bg (esc : gostring) (skip : Z) :
  (exists a, DecodeColor fg bg esc = Return (Ok (a, skip)))
  <-> exists fs trailing,
        fs <> [] /\ Forall good_field fs
        /\ esc = esc_marker ++ join_fields fs ++ "m"%byte :: trailing
        /\ skip = len esc - len trailing.
Proof.
  split.
  - intros [a H].
    destruct (strings_HasPrefix esc esc_marker) eqn:Hp.
    2:{ unfold DecodeColor in H. rewrite Hp, orb_true_r in H. discriminate. }
    assert (Hesc : exists tail, esc = esc_marker ++ tail).
    { destruct esc as [|c1 [|c2 tail]]; [discriminate | |].
      { cbn [strings_HasPrefix esc_marker] in Hp.
        rewrite andb_false_r in Hp. discriminate. }
      cbn [strings_HasPrefix esc_marker] in Hp.
      apply andb_true_iff in Hp as [H1 H2].
      apply andb_true_iff in H2 as [H2 _].
      destruct (byte_eqb_spec c1 ESC) as [-> |]; [|discriminate].
      destruct (byte_eqb_spec c2 "[") as [-> |]; [|discriminate].
      exists tail. reflexivity. }
    destruct Hesc as [tail ->].
    destruct (first_m tail) as [Hm | (body & trailing & -> & Hm)].
    { rewrite (DecodeColor_no_terminator fg bg tail Hm) in H. discriminate. }
    destruct (body_fields body Hm) as (fs & Hne & Hplain & ->).
    exists fs, trailing. split; [exact Hne|].
    destruct (first_bad_field fs)
      as [Hall | (good & f & rest & -> & Hgood & Hbad)].
    + split; [exact Hall|]. split; [reflexivity|].
      destruct (DecodeColor_well_formed fg bg fs trailing Hne Hall) as [a' Hd].
      rewrite Hd in H. inversion H; subst.
      rewrite !len_app, len_cons. change (len esc_marker) with 2. lia.
    + exfalso. apply Forall_app in Hplain as [_ Hplain].
      destruct (DecodeColor_bad_field fg bg good f rest trailing Hgood Hplain
                  Hbad) as [err Herr].
      rewrite Herr in H. discriminate.
  - intros (fs & trailing & Hne & Hgood & -> & ->).
    destruct (DecodeColor_well_formed fg bg fs trailing Hne Hgood) as [a Hd].
    exists a. rewrite Hd. repeat f_equal.
    rewrite !len_app, len_cons. change (len esc_marker) with 2. lia.
Qed.

(** ** Text with embedded sequences *)

Lemma text_of_cons (p : piece) (ps : list piece) :
  text_of (p :: ps) = piece_bytes p ++ text_of ps.
Proof. reflexivity. Qed.

Lemma DecodeRuneInString_ESC (t : gostring) :
  utf8.DecodeRuneInString (ESC :: t) = (byte_val ESC, 1).
Proof.
  rewrite DecodeRuneInString_arith by discriminate.
  unfold decode_arith, utf8.at_. cbn [nth]. reflexivity.
Qed.

Lemma drop_len_app {A} (a b : list A) : drop (Z.to_nat (len a)) (a ++ b) = b.
Proof.
  replace (Z.to_nat (len a)) with (length a) by (unfold len; lia).
  apply drop_app_length.
Qed.

(** A well-formed sequence in front of a text is decoded, and [skip] is
    its length. *)
Lemma DecodeColor_sequence fg bg (fs : list gostring) (rest : gostring) :
  fs <> [] -> Forall good_field fs ->
  exists a,
    DecodeColor fg bg (piece_bytes (Sequence fs) ++ rest)
    = Return (Ok (a, len (piece_bytes (Sequence fs)))).
Proof.
  intros Hne Hgood.
  destruct (DecodeColor_well_formed fg bg fs rest Hne Hgood) as [a Hd].
  exists a. cbn [piece_bytes].
  replace ((esc_marker ++ join_fields fs ++ ["m"%byte]) ++ rest)
    with (esc_marker ++ join_fields fs ++ "m"%byte :: rest)
    by (rewrite <- !app_assoc; reflexivity).
  rewrite Hd. repeat f_equal. rewrite !len_app.
  change (len esc_marker) with 2. change (len ["m"%byte]) with 1. lia.
Qed.

Lemma piece_bytes_nonempty (p : piece) :
  well_formed_piece p -> 1 <= len (piece_bytes p).
Proof.
  destruct p as [r|fs]; cbn [well_formed_piece piece_bytes].
  - intros [Hr _]. apply (EncodeRune_length r Hr).
  - intros _. rewrite len_app. change (len esc_marker) with 2.
    pose proof (len_nonneg (join_fields fs ++ ["m"%byte])). lia.
Qed.

Lemma Unescape_loop_pieces fg bg (ps : list piece) :
  Forall well_formed_piece ps ->
  forall fuel ret, (length (text_of ps) <= fuel)%nat ->
    Unescape_loop fg bg fuel (text_of ps) ret
    = Return (ret ++ string_of_runes (shown_runes ps)).
Proof.
  induction 1 as [|p ps Hp Hps IH]; intros fuel ret Hlen.
  - destruct fuel; simpl; rewrite app_nil_r; reflexivity.
  - rewrite text_of_cons in *.
    pose proof (piece_bytes_nonempty p Hp) as Hl.
    assert (Hne : piece_bytes p ++ text_of ps <> []).
    { intros E. apply (f_equal len) in E. rewrite len_app in E.
      pose proof (len_nonneg (text_of ps)).
      change (len (@nil byte)) with 0 in E. lia. }
    destruct fuel as [|fuel].
    { rewrite length_app in Hlen. unfold len in Hl. lia. }
    assert (Hfuel : (length (text_of ps) <= fuel)%nat).
    { rewrite length_app in Hlen. unfold len in Hl. lia. }
    rewrite (Unescape_loop_step fg bg fuel _ ret Hne).
    destruct p as [r|fs]; cbn [well_formed_piece] in Hp.
    + destruct Hp as [Hr Hesc]. cbn [piece_bytes].
      rewrite (DecodeRuneInString_EncodeRune r _ Hr).
      apply Z.eqb_neq in Hesc. rewrite Hesc, drop_len_app.
      rewrite (IH fuel _ Hfuel).
      change (shown_runes (Plain r :: ps)) with (r :: shown_runes ps).
      rewrite string_of_runes_cons, <- app_assoc. reflexivity.
    + destruct Hp as [Hfs Hgood].
      destruct (DecodeColor_sequence fg bg fs (text_of ps) Hfs Hgood)
        as [a Hd].
      change (piece_bytes (Sequence fs) ++ text_of ps)
        with (ESC :: ("["%byte :: join_fields fs ++ ["m"%byte]) ++ text_of ps)
        at 1.
      rewrite DecodeRuneInString_ESC, Z.eqb_refl, Hd.
      cbn [mbind outcome_bind]. rewrite drop_len_app.
      apply (IH fuel ret Hfuel).
Qed.

(** X5: on a text of shown runes and well-formed sequences, [Unescape]
    returns the shown runes and nothing else, in their order. *)
Theorem Unescape_text (fg bg : Z) (ps : list piece) :
  Forall well_formed_piece ps ->
  Unescape fg bg (text_of ps) = Return (string_of_runes (shown_runes ps)).
Proof.
  intros Hps. unfold Unescape.
  destruct (Z.eqb_spec (len (text_of ps)) 0) as [E|E].
  - assert (Ht : text_of ps = []).
    { destruct (text_of ps); [reflexivity|].
      rewrite len_cons in E. pose proof (len_nonneg l). lia. }
    destruct Hps as [|p ps Hp Hps]; [reflexivity|].
    rewrite text_of_cons in Ht. pose proof (piece_bytes_nonempty p Hp).
    apply (f_equal len) in Ht. rewrite len_app in Ht.
    pose proof (len_nonneg (text_of ps)).
    change (len (@nil byte)) with 0 in Ht. lia.
  - apply (Unescape_loop_pieces fg bg ps Hps _ [] (le_n _)).
Qed.

Lemma Unescape_text_witness :
  Unescape 0 0 (str "la " ++ ESC :: str "[1;31mmoo" ++ ESC :: str "[0m")
  = Return (str "la moo").
Proof.
  apply (Unescape_text 0 0
           [Plain 108; Plain 97; Plain 32; Sequence [str "1"; str "31"];
            Plain 109; Plain 111; Plain 111; Sequence [str "0"]]).
  repeat (constructor;
          [first [ split; [split; vm_compute; intuition discriminate
                          | discriminate]
                 | split; [discriminate
                          | repeat (constructor;
                                    [eexists; split; vm_compute; reflexivity|]);
                            constructor] ]|]).
  constructor.
Defined.

Lemma EscapedLen_loop_step fg bg fuel (s : gostring) (total : Z) :
  s <> [] ->
  EscapedLen_loop fg bg (S fuel) s total
  = let '(v, width) := utf8.DecodeRuneInString s in
    if v =? byte_val ESC then
      r ← DecodeColor fg bg s;
      match r with
      | Ok (_, skip) =>
          EscapedLen_loop fg bg fuel (drop (Z.to_nat skip) s) (total +i skip)
      | Err _ => EscapedLen_loop fg bg fuel (drop (Z.to_nat width) s) total
      end
    else EscapedLen_loop fg bg fuel (drop (Z.to_nat width) s) total.
Proof. destruct s; [congruence | reflexivity]. Qed.

Lemma len_text_of_cons (p : piece) (ps : list piece) :
  len (text_of (p :: ps)) = len (piece_bytes p) + len (text_of ps).
Proof. rewrite text_of_cons, len_app. reflexivity. Qed.

Lemma sequence_bytes_bound (ps : list piece) :
  0 <= sequence_bytes ps <= len (text_of ps).
Proof.
  induction ps as [|p ps IH]; [cbn; unfold len; simpl; lia|].
  rewrite len_text_of_cons. pose proof (len_nonneg (piece_bytes p)).
  destruct p; cbn [sequence_bytes fold_right] in *;
    fold (sequence_bytes ps); lia.
Qed.

Lemma EscapedLen_loop_pieces fg bg (ps : list piece) :
  Forall well_formed_piece ps ->
  forall fuel total, (length (text_of ps) <= fuel)%nat ->
    0 <= total -> total + len (text_of ps) <= Int.max ->
    EscapedLen_loop fg bg fuel (text_of ps) total
    = Return (total + sequence_bytes ps).
Proof.
  induction 1 as [|p ps Hp Hps IH]; intros fuel total Hlen Ht Hmax.
  - destruct fuel; cbn; rewrite Z.add_0_r; reflexivity.
  - pose proof (piece_bytes_nonempty p Hp) as Hl.
    rewrite len_text_of_cons in Hmax. rewrite text_of_cons in *.
    assert (Hne : piece_bytes p ++ text_of ps <> []).
    { intros E. apply (f_equal len) in E. rewrite len_app in E.
      pose proof (len_nonneg (text_of ps)).
      change (len (@nil byte)) with 0 in E. lia. }
    destruct fuel as [|fuel].
    { rewrite length_app in Hlen. unfold len in Hl. lia. }
    assert (Hfuel : (length (text_of ps) <= fuel)%nat).
    { rewrite length_app in Hlen. unfold len in Hl. lia. }
    rewrite (EscapedLen_loop_step fg bg fuel _ total Hne).
    destruct p as [r|fs]; cbn [well_formed_piece] in Hp.
    + destruct Hp as [Hr Hesc]. cbn [piece_bytes] in *.
      rewrite (DecodeRuneInString_EncodeRune r _ Hr).
      apply Z.eqb_neq in Hesc. rewrite Hesc, drop_len_app.
      rewrite (IH fuel total Hfuel Ht) by lia. reflexivity.
    + destruct Hp as [Hfs Hgood].
      destruct (DecodeColor_sequence fg bg fs (text_of ps) Hfs Hgood)
        as [a Hd].
      change (piece_bytes (Sequence fs) ++ text_of ps)
        with (ESC :: ("["%byte :: join_fields fs ++ ["m"%byte]) ++ text_of ps)
        at 1.
      rewrite DecodeRuneInString_ESC, Z.eqb_refl, Hd.
      cbn [mbind outcome_bind]. rewrite drop_len_app.
      pose proof (len_nonneg (text_of ps)).
      assert (Hadd : total +i len (piece_bytes (Sequence fs))
                     = total + len (piece_bytes (Sequence fs))).
      { apply Int_wrap_small. unfold Int.in_range, Int.min, Int.max in *. lia. }
      rewrite Hadd, (IH fuel _ Hfuel) by lia.
      cbn [sequence_bytes fold_right]. fold (sequence_bytes ps).
      f_equal. lia.
Qed.

(** X6: on such a text [EscapedLen] is the number of bytes taken by the
    sequences. *)
Theorem EscapedLen_text (fg bg : Z) (ps : list piece) :
  Forall well_formed_piece ps -> len (text_of ps) <= Int.max ->
  EscapedLen fg bg (text_of ps) = Return (sequence_bytes ps).
Proof.
  intros Hps Hmax. unfold EscapedLen.
  destruct (Z.eqb_spec (len (text_of ps)) 0) as [E|E].
  - pose proof (sequence_bytes_bound ps). f_equal. lia.
  - rewrite (EscapedLen_loop_pieces fg bg ps Hps _ 0 (le_n _)) by lia.
    reflexivity.
Qed.

Lemma EscapedLen_text_witness :
  EscapedLen 0 0 (str "la " ++ ESC :: str "[1;31mmoo" ++ ESC :: str "[0m")
  = Return 11.
Proof.
  apply (EscapedLen_text 0 0
           [Plain 108; Plain 97; Plain 32; Sequence [str "1"; str "31"];
            Plain 109; Plain 111; Plain 111; Sequence [str "0"]]).
  - repeat (constructor;
            [first [ split; [split; vm_compute; intuition discriminate
                            | discriminate]
                   | split; [discriminate
                            | repeat (constructor;
                                      [eexists; split; vm_compute; reflexivity|]);
                              constructor] ]|]).
    constructor.
  - vm_compute. discriminate.
Defined.

(** ** [Unescape] on text whose escape bytes begin well-formed sequences *)

Lemma byte_val_ESC (b : byte) : byte_val b = byte_val ESC -> b = ESC.
Proof.
  unfold byte_val. intros H. apply N2Z.inj in H.
  apply (f_equal Byte.of_N) in H. rewrite !Byte.of_to_N in H.
  congruence.
Qed.

(** No byte of an encoded rune is the escape byte, unless the rune is the
    escape character. *)
Lemma EncodeRune_no_ESC (r : Z) :
  valid_rune r -> r <> byte_val ESC -> ESC ∉ utf8.EncodeRune r.
Proof.
  intros Hr Hesc. pose proof (EncodeRune_encoding r Hr) as He.
  destruct Hr as [Hr _].
  assert (Hhigh : forall b, 128 <= byte_val b -> ESC <> b).
  { intros b Hb E. subst b. change (byte_val ESC) with 27 in Hb. lia. }
  destruct He as [b0 H0 E0 | b0 b1 H0 E0 E1 | b0 b1 b2 H0 E0 E1 E2
                 | b0 b1 b2 b3 H0 E0 E1 E2 E3];
    rewrite ?not_elem_of_cons; repeat split; try apply not_elem_of_nil;
    try (apply Hhigh; Z.div_mod_to_equations; lia).
  intros E. subst b0. congruence.
Qed.

Lemma string_of_runes_no_ESC (rs : list Z) :
  Forall valid_rune rs -> Forall (fun r => r <> byte_val ESC) rs ->
  ESC ∉ string_of_runes rs.
Proof.
  induction 1 as [|r rs Hr Hrs IH]; intros Hne; [apply not_elem_of_nil|].
  apply Forall_cons in Hne as [Hne1 Hne2].
  rewrite string_of_runes_cons. apply not_elem_of_app.
  split; [apply EncodeRune_no_ESC; assumption | apply IH, Hne2].
Qed.

(** A byte other than the escape byte is not decoded as the escape
    character, and the bytes decoded with it are continuation bytes. *)
Lemma DecodeRuneInString_plain (b : byte) (s : gostring) :
  b <> ESC ->
  fst (utf8.DecodeRuneInString (b :: s)) <> byte_val ESC
  /\ forall i, (0 < i)%nat ->
       Z.of_nat i < snd (utf8.DecodeRuneInString (b :: s)) ->
       0x80 <= utf8.at_ (b :: s) i.
Proof.
  intros Hb.
  assert (Hb0 : utf8.at_ (b :: s) 0 <> 27).
  { unfold utf8.at_. cbn [nth]. intros E. apply Hb, byte_val_ESC. exact E. }
  rewrite DecodeRuneInString_arith by discriminate.
  pose proof (at_range (b :: s) 0). pose proof (at_range (b :: s) 1).
  pose proof (at_range (b :: s) 2). pose proof (at_range (b :: s) 3).
  change (byte_val ESC) with 27.
  unfold decode_arith, second_lo, second_hi, continuation, utf8.RuneError.
  split_tests; cbn [fst snd]; (split; [lia|]);
    intros [|[|[|[|i]]]] Hi Hw; try lia.
Qed.

(** Dropping bytes other than the escape byte from the front leaves a
    text of the same kind. *)
Lemma escapes_well_formed_tail (b : byte) (s : gostring) :
  b <> ESC -> escapes_well_formed (b :: s) -> escapes_well_formed s.
Proof.
  intros Hb H. inversion H as [|b' s' _ Hs|fs s' _ _ _ E]; [exact Hs|].
  cbn [esc_marker app] in E. congruence.
Qed.

Lemma escapes_well_formed_drop (n : nat) :
  forall s, escapes_well_formed s -> (n <= length s)%nat ->
    (forall i, (i < n)%nat -> utf8.at_ s i <> byte_val ESC) ->
    escapes_well_formed (drop n s).
Proof.
  induction n as [|n IH]; intros s Hs Hlen Hat; [rewrite drop_0; exact Hs|].
  destruct s as [|c s]; [cbn in Hlen; lia|].
  cbn [drop]. apply IH.
  - apply (escapes_well_formed_tail c s); [|exact Hs].
    intros ->. apply (Hat 0%nat); [lia | reflexivity].
  - cbn [length] in Hlen. lia.
  - intros i Hi. apply (Hat (S i)). lia.
Qed.

(** On such a text the loop removes the sequences and appends runes other
    than the escape character. *)
Lemma Unescape_loop_well_formed fg bg (fuel : nat) :
  forall s ret, (length s <= fuel)%nat -> escapes_well_formed s ->
    exists rs, Forall valid_rune rs
      /\ Forall (fun r => r <> byte_val ESC) rs
      /\ Unescape_loop fg bg fuel s ret = Return (ret ++ string_of_runes rs).
Proof.
  induction fuel as [|fuel IH]; intros s ret Hlen Hs.
  { destruct s; [|simpl in Hlen; lia].
    exists []. repeat split; [constructor | constructor|].
    simpl. rewrite app_nil_r. reflexivity. }
  destruct Hs as [|b s Hb Hs|fs s Hfs Hgood Hs].
  - exists []. repeat split; [constructor | constructor|].
    simpl. rewrite app_nil_r. reflexivity.
  - rewrite (Unescape_loop_step fg bg fuel (b :: s) ret) by discriminate.
    destruct (DecodeRuneInString_valid (b :: s)) as (Hv & Hw & _);
      [discriminate|].
    destruct (DecodeRuneInString_plain b s Hb) as [Hesc Hcont].
    destruct (utf8.DecodeRuneInString (b :: s)) as [v w].
    cbn [fst snd] in Hv, Hw, Hesc, Hcont.
    apply Z.eqb_neq in Hesc as Hesc'. rewrite Hesc'.
    destruct (IH (drop (Z.to_nat w) (b :: s)) (ret ++ string_of_rune v))
      as (rs & Hrs & Hne & Heq).
    + rewrite length_drop. unfold len in Hw. lia.
    + apply escapes_well_formed_drop.
      * constructor; assumption.
      * unfold len in Hw. lia.
      * intros [|i] Hi.
        -- unfold utf8.at_. cbn [nth]. intros E. apply Hb, byte_val_ESC, E.
        -- assert (0x80 <= utf8.at_ (b :: s) (S i)) by (apply Hcont; lia).
           change (byte_val ESC) with 27. lia.
    + exists (v :: rs). repeat split; [constructor; assumption ..|].
      rewrite Heq, string_of_runes_cons, <- app_assoc. reflexivity.
  - pose proof (DecodeColor_sequence fg bg fs s Hfs Hgood) as [a Hd].
    assert (Hbytes : piece_bytes (Sequence fs) ++ s
                     = esc_marker ++ join_fields fs ++ "m"%byte :: s).
    { cbn [piece_bytes]. rewrite <- !app_assoc. reflexivity. }
    rewrite <- Hbytes in *.
    rewrite (Unescape_loop_step fg bg fuel _ ret).
    2:{ rewrite Hbytes. discriminate. }
    replace (utf8.DecodeRuneInString (piece_bytes (Sequence fs) ++ s))
      with (byte_val ESC, 1) by (symmetry; apply DecodeRuneInString_ESC).
    rewrite Z.eqb_refl, Hd. cbn [mbind outcome_bind]. rewrite drop_len_app.
    apply IH; [|exact Hs].
    rewrite length_app in Hlen.
    assert (1 <= length (piece_bytes (Sequence fs)))%nat
      by (cbn [piece_bytes esc_marker app length]; lia).
    lia.
Qed.

(** Text that is the encoding of scalar values and holds no sequence is
    returned as it is. *)
Lemma Unescape_plain fg bg (rs : list Z) :
  Forall valid_rune rs -> no_sequence fg bg (string_of_runes rs) ->
  Unescape fg bg (string_of_runes rs) = Return (string_of_runes rs).
Proof.
  intros Hrs Hno. unfold Unescape.
  destruct (Z.eqb_spec (len (string_of_runes rs)) 0) as [E|E].
  - destruct (string_of_runes rs); [reflexivity|].
    rewrite len_cons in E. pose proof (len_nonneg l). lia.
  - apply (Unescape_loop_plain fg bg rs Hrs Hno _ [] (le_n _)).
Qed.

(** Shown runes and well-formed sequences make such a text. *)
Lemma escapes_well_formed_app (a s : gostring) :
  ESC ∉ a -> escapes_well_formed s -> escapes_well_formed (a ++ s).
Proof.
  induction a as [|c a IH]; intros Ha Hs; [exact Hs|].
  apply not_elem_of_cons in Ha as [Hc Ha].
  cbn [app]. constructor; [congruence | apply IH; assumption].
Qed.

Lemma text_of_escapes_well_formed (ps : list piece) :
  Forall well_formed_piece ps -> escapes_well_formed (text_of ps).
Proof.
  induction 1 as [|p ps Hp Hps IH]; [constructor|].
  rewrite text_of_cons. destruct p as [r|fs]; cbn [well_formed_piece] in Hp.
  - destruct Hp as [Hr Hesc]. cbn [piece_bytes].
    apply escapes_well_formed_app; [apply EncodeRune_no_ESC|]; assumption.
  - destruct Hp as [Hfs Hgood]. cbn [piece_bytes].
    rewrite <- !app_assoc. cbn [app]. constructor; assumption.
Qed.

(** C3 (as amended): on every string in which each escape byte begins a
    well-formed sequence, that is, a string built from bytes other than
    the escape byte and from sequences made of the marker, one or more
    fields that [strconv.Atoi] reads as a recognized number, joined by
    semicolons, and the terminator, [Unescape] returns a string without
    escape byte, and stripping that string again returns it unchanged:
    [Unescape (Unescape s) = Unescape s]. *)
Theorem Unescape_idempotent_well_formed (fg bg : Z) (s : gostring) :
  escapes_well_formed s ->
  exists t,
    Unescape fg bg s = Return t
    /\ (ESC ∉ t)
    /\ Unescape fg bg t = Return t.
Proof.
  intros Hs.
  assert (Hrun : exists rs, Forall valid_rune rs
                   /\ Forall (fun r => r <> byte_val ESC) rs
                   /\ Unescape fg bg s = Return (string_of_runes rs)).
  { unfold Unescape. destruct (len s =? 0).
    - exists []. repeat split; constructor.
    - apply (Unescape_loop_well_formed fg bg (length s) s [] (le_n _) Hs). }
  destruct Hrun as (rs & Hrs & Hne & Heq).
  pose proof (string_of_runes_no_ESC rs Hrs Hne) as Hesc.
  exists (string_of_runes rs). split; [exact Heq|]. split; [exact Hesc|].
  apply Unescape_plain; [exact Hrs|].
  apply no_sequence_without_ESC, Hesc.
Qed.

Lemma Unescape_idempotent_well_formed_witness :
  exists t,
    Unescape 0 0
      (str "lalala " ++ ESC :: str "[1;31mmoo" ++ ESC :: str "[0m test")
    = Return t
    /\ (ESC ∉ t)
    /\ Unescape 0 0 t = Return t.
Proof.
  apply (Unescape_idempotent_well_formed 0 0).
  do 7 (apply ewf_byte; [discriminate|]).
  apply (ewf_sequence [str "1"; str "31"]); [discriminate | |].
  { repeat (constructor; [eexists; split; vm_compute; reflexivity|]).
    constructor. }
  do 3 (apply ewf_byte; [discriminate|]).
  apply (ewf_sequence [str "0"]); [discriminate | |].
  { repeat (constructor; [eexists; split; vm_compute; reflexivity|]).
    constructor. }
  do 5 (apply ewf_byte; [discriminate|]).
  apply ewf_nil.
Defined.

(** ** [Unescape] on every string *)

(** X7: [Unescape] returns on every string, malformed sequences and
    invalid UTF-8 included, and what it returns is the UTF-8 encoding of
    Unicode scalar values. *)
Theorem Unescape_returns_runes (fg bg : Z) (s : gostring) :
  exists rs, Forall valid_rune rs
    /\ Unescape fg bg s = Return (string_of_runes rs).
Proof.
  unfold Unescape. destruct (len s =? 0).
  - exists []. split; [constructor | reflexivity].
  - apply (Unescape_loop_runes fg bg (length s) s [] (le_n _)).
Qed.

(** What the loop returns starts with what it was given. *)
Lemma Unescape_loop_ret fg bg (fuel : nat) :
  forall s ret,
    Unescape_loop fg bg fuel s ret
    = t ← Unescape_loop fg bg fuel s []; Return (ret ++ t).
Proof.
  induction fuel as [|fuel IH]; intros s ret.
  - destruct s; cbn; [rewrite app_nil_r|]; reflexivity.
  - destruct s as [|c s]; [cbn; rewrite app_nil_r; reflexivity|].
    rewrite !(Unescape_loop_step fg bg fuel (c :: s)) by discriminate.
    destruct (utf8.DecodeRuneInString (c :: s)) as [v w].
    assert (Hemit : Unescape_loop fg bg fuel (drop (Z.to_nat w) (c :: s))
                      (ret ++ string_of_rune v)
                    = t ← Unescape_loop fg bg fuel (drop (Z.to_nat w) (c :: s))
                          ([] ++ string_of_rune v);
                      Return (ret ++ t)).
    { rewrite (IH _ (ret ++ string_of_rune v)).
      rewrite (IH _ ([] ++ string_of_rune v)).
      destruct (Unescape_loop fg bg fuel _ []) as [t| |];
        cbn [mbind outcome_bind]; [|reflexivity ..].
      rewrite app_nil_l, app_assoc. reflexivity. }
    destruct (v =? byte_val ESC); [|exact Hemit].
    destruct (DecodeColor fg bg (c :: s)) as [[[a skip]|e]| |];
      cbn [mbind outcome_bind]; [apply IH | exact Hemit | reflexivity ..].
Qed.

(** X8: the marker of a malformed sequence is kept: where [DecodeColor]
    fails on the text from an escape byte on, [Unescape] emits the
    escape character and goes on with the text behind that one byte. *)
Theorem Unescape_reemits_marker (fg bg : Z) (rest : gostring) (e : error) :
  DecodeColor fg bg (ESC :: rest) = Return (Err e) ->
  Unescape fg bg (ESC :: rest)
  = t ← Unescape fg bg rest; Return (ESC :: t).
Proof.
  intros Hd. unfold Unescape.
  change (len (ESC :: rest) =? 0) with (Z.pos (Pos.of_succ_nat (length rest)) =? 0).
  cbn [Z.eqb length].
  rewrite (Unescape_loop_step fg bg (length rest) (ESC :: rest) [])
    by discriminate.
  rewrite DecodeRuneInString_ESC, Z.eqb_refl, Hd. cbn [mbind outcome_bind].
  change (drop (Z.to_nat 1) (ESC :: rest)) with rest.
  rewrite Unescape_loop_ret. change ([] ++ string_of_rune (byte_val ESC)) with [ESC].
  destruct rest as [|c rest]; [reflexivity|].
  change (len (c :: rest) =? 0) with (Z.pos (Pos.of_succ_nat (length rest)) =? 0).
  cbn [Z.eqb]. reflexivity.
Qed.

Lemma Unescape_reemits_marker_witness :
  Unescape 0 0 (ESC :: str "[1;xmoo") = Return (ESC :: str "[1;xmoo").
Proof.
  rewrite (Unescape_reemits_marker 0 0 (str "[1;xmoo")
             (NumError "Atoi" (str "x") ErrSyntax)).
  - vm_compute. reflexivity.
  - vm_compute. reflexivity.
Defined.

(** ** The edit widget: the editing keys *)

(** Machine arithmetic agrees with the integers modulo [2 ^ 64]. *)
Ltac wrap_arith :=
  unfold Int.add, Int.sub, Int.wrap, Int.in_range, Int.min, Int.max in *;
  Z.div_mod_to_equations; lia.

Lemma Int_sub_diag (a : Z) : a -i a = 0.
Proof. unfold Int.sub. rewrite Z.sub_diag. reflexivity. Qed.

Lemma Int_add_sub_cancel (a b c : Z) :
  Int.in_range b -> (a +i b -i c) -i a +i c = b.
Proof. intros Hb. wrap_arith. Qed.

Lemma Int_end_index (x w n : Z) :
  Int.in_range n -> (x +i w -i 1) -i x +i (n -i w +i 1) = n.
Proof. intros Hn. wrap_arith. Qed.

(** Decide the comparisons of a key code with the keys of the handler. *)
Ltac decide_key k :=
  repeat match goal with
         | |- context [Z.eqb k ?b] =>
             let v := eval vm_compute in (Z.eqb k b) in
             change (Z.eqb k b) with v
         end;
  cbn [orb andb negb]; cbv iota.

Lemma edit_at_put_then {A} (s : World) (self : nat) (e e' : Edit) (k : M A) :
  edit_at s self = Some e ->
  preserves (fun s => widgets (win s)) k ->
  edit_at (exec (Edit.put self e';; k) s) self = Some e'.
Proof.
  intros Hat Hk. destruct (Edit_put_at s self e e' Hat) as [Hput Hat'].
  unfold exec. rewrite (bind_Return _ _ _ _ _ Hput).
  unfold edit_at in *.
  change (snd (k (snd (Edit.put self e' s))))
    with (exec k (snd (Edit.put self e' s))).
  rewrite Hk. exact Hat'.
Qed.

Lemma widgets_cursor_Render {A} (x y : Z) (self : nat) (a : A) :
  preserves (fun s => widgets (win s))
    (setCursor x y;; Edit.Render self;; mret a).
Proof.
  apply preserves_bind; [apply widgets_setCursor | intros ?].
  apply preserves_bind; [apply widgets_Edit_Render | intros ?].
  apply preserves_ret.
Qed.

Lemma widgets_Render_ret {A} (self : nat) (a : A) :
  preserves (fun s => widgets (win s)) (Edit.Render self;; mret a).
Proof.
  apply preserves_bind; [apply widgets_Edit_Render|].
  intros ?. apply preserves_ret.
Qed.

(** X9: the delete key removes the rune at the caret and leaves the rest
    of the widget as it is; with the caret behind the last rune it does
    nothing at all; with the caret outside the buffer it panics. *)
Theorem KeyHandler_Delete (s : World) (self : nat) (e : Edit) (ev : Event) :
  edit_at s self = Some e -> ev_Key ev = termbox.KeyDelete ->
  len (e_display e) < Int.max ->
  let p := Z.to_nat (caret_index e) in
  (caret_index e = len (e_display e) ->
     Edit.KeyHandler self ev s = (Return true, s))
  /\ (0 <= caret_index e < len (e_display e) ->
      edit_at (exec (Edit.KeyHandler self ev) s) self
      = Some (set_e_display
                (take p (e_display e) ++ drop (S p) (e_display e)) e))
  /\ (caret_index e < 0 \/ len (e_display e) < caret_index e ->
      Edit.KeyHandler self ev s = (Panic, s)).
Proof.
  intros Hat Hk Hmax p.
  assert (Hrun : Edit.KeyHandler self ev s
    = (if len (e_display e) =? caret_index e then mret true
       else
         l ← lift (slice_to (e_display e) (caret_index e));
         r ← lift (slice_from (e_display e) (caret_index e +i 1));
         Edit.put self (set_e_display (l ++ r) e);;
         Edit.Render self;;
         mret true) s).
  { unfold Edit.KeyHandler.
    rewrite (bind_Return _ _ _ _ _ (Edit_get_at _ _ _ Hat)).
    rewrite Hk. cbv zeta. decide_key termbox.KeyDelete. reflexivity. }
  pose proof (len_nonneg (e_display e)) as Hlen.
  split; [|split].
  - intros Hp. rewrite Hrun, Hp, Z.eqb_refl. reflexivity.
  - intros Hp. unfold exec. rewrite Hrun.
    replace (len (e_display e) =? caret_index e) with false
      by (symmetry; apply Z.eqb_neq; lia).
    assert (Hp1 : caret_index e +i 1 = caret_index e + 1).
    { apply Int_wrap_small. unfold Int.in_range, Int.min, Int.max in *. lia. }
    rewrite Hp1, slice_to_spec, slice_from_spec by lia.
    replace (Z.to_nat (caret_index e + 1)) with (S p) by (unfold p; lia).
    fold p.
    change ((l ← lift (Return (take p (e_display e)));
             r ← lift (Return (drop (S p) (e_display e)));
             Edit.put self (set_e_display (l ++ r) e);;
             Edit.Render self;; mret true) s)
      with ((Edit.put self
               (set_e_display
                  (take p (e_display e) ++ drop (S p) (e_display e)) e);;
             Edit.Render self;; mret true) s).
    apply (edit_at_put_then s self e _ _ Hat), widgets_Render_ret.
  - intros Hp. rewrite Hrun.
    replace (len (e_display e) =? caret_index e) with false
      by (symmetry; apply Z.eqb_neq; lia).
    unfold slice_to, slice.
    replace ((0 <=? 0) && (0 <=? caret_index e)
             && (caret_index e <=? len (e_display e))) with false.
    + reflexivity.
    + symmetry. destruct Hp as [Hp | Hp].
      * replace (0 <=? caret_index e) with false
          by (symmetry; apply Z.leb_gt; lia).
        reflexivity.
      * replace (caret_index e <=? len (e_display e)) with false
          by (symmetry; apply Z.leb_gt; lia).
        apply andb_false_r.
Qed.

Lemma KeyHandler_Delete_witness :
  edit_at (exec (Edit.KeyHandler 0 (key termbox.KeyDelete)) demo_home) 0
  = Some (set_e_display [50; 51; 52; 53] demo_home_edit).
Proof.
  apply (KeyHandler_Delete demo_home 0 demo_home_edit (key termbox.KeyDelete)).
  - vm_compute. reflexivity.
  - reflexivity.
  - vm_compute. reflexivity.
  - vm_compute. split; [discriminate | reflexivity].
Defined.

(** X10: the backspace key removes the rune before the caret; with the
    caret at the first rune or before it the key does nothing at all;
    with the caret behind the end of the buffer it panics. *)
Theorem KeyHandler_Backspace (s : World) (self : nat) (e : Edit) (ev : Event) :
  edit_at s self = Some e ->
  ev_Key ev = termbox.KeyBackspace \/ ev_Key ev = termbox.KeyBackspace2 ->
  let p := Z.to_nat (caret_index e) in
  (caret_index e <= 0 -> Edit.KeyHandler self ev s = (Return true, s))
  /\ (0 < caret_index e <= len (e_display e) ->
      exists e',
        edit_at (exec (Edit.KeyHandler self ev) s) self = Some e'
        /\ e_display e'
           = take (p - 1) (e_display e) ++ drop p (e_display e))
  /\ (len (e_display e) < caret_index e ->
      Edit.KeyHandler self ev s = (Panic, s)).
Proof.
  intros Hat Hk p.
  assert (Hrun : Edit.KeyHandler self ev s
    = (if caret_index e <=? 0 then mret true
       else
         l ← lift (slice_to (e_display e) (caret_index e -i 1));
         r ← lift (slice_from (e_display e) (caret_index e));
         let e := set_e_display (l ++ r) e in
         let e :=
           if e_cx e =? e_trueX e +i 1 then
             let e :=
               if e_at e >? e_trueW e -i 1
               then set_e_cx (e_trueW e -i 1) e
               else set_e_cx (e_at e +i e_trueX e) e in
             if e_at e >=? e_cx e then set_e_at (e_at e -i e_cx e) e else e
           else set_e_cx (e_cx e -i 1) e in
         Edit.put self e;;
         setCursor (e_cx e) (e_cy e);;
         Edit.Render self;;
         mret true) s).
  { unfold Edit.KeyHandler.
    rewrite (bind_Return _ _ _ _ _ (Edit_get_at _ _ _ Hat)).
    destruct Hk as [Hk | Hk]; rewrite Hk; cbv zeta.
    - decide_key termbox.KeyBackspace. reflexivity.
    - decide_key termbox.KeyBackspace2. reflexivity. }
  pose proof (len_nonneg (e_display e)) as Hlen.
  assert (Hrange : Int.in_range (caret_index e)).
  { unfold caret_index, Int.add. apply Int_wrap_range. }
  split; [|split].
  - intros Hp. rewrite Hrun.
    replace (caret_index e <=? 0) with true by (symmetry; apply Z.leb_le; lia).
    reflexivity.
  - intros Hp. unfold exec. rewrite Hrun.
    replace (caret_index e <=? 0) with false by (symmetry; apply Z.leb_gt; lia).
    assert (Hp1 : caret_index e -i 1 = caret_index e - 1).
    { apply Int_wrap_small. unfold Int.in_range, Int.min, Int.max in *. lia. }
    rewrite Hp1, slice_to_spec, slice_from_spec by lia.
    replace (Z.to_nat (caret_index e - 1)) with (p - 1)%nat by (unfold p; lia).
    fold p.
    set (d := take (p - 1) (e_display e) ++ drop p (e_display e)).
    unfold lift at 1. unfold mbind at 1, M_bind at 1. cbv beta iota.
    unfold lift at 1. unfold mbind at 1, M_bind at 1. cbv beta iota zeta.
    match goal with
    | |- context [Edit.put self ?e1] =>
        exists e1; split;
        [ apply (edit_at_put_then s self e e1 _ Hat), widgets_cursor_Render |]
    end.
    repeat match goal with
           | |- context [if ?b then _ else _] => destruct b
           end; reflexivity.
  - intros Hp. rewrite Hrun.
    replace (caret_index e <=? 0) with false by (symmetry; apply Z.leb_gt; lia).
    assert (Hfrom : slice_from (e_display e) (caret_index e) = Panic).
    { unfold slice_from, slice.
      replace (caret_index e <=? len (e_display e)) with false
        by (symmetry; apply Z.leb_gt; lia).
      rewrite andb_false_r. reflexivity. }
    rewrite Hfrom. unfold slice_to, slice.
    destruct (_ && _); reflexivity.
Qed.

Lemma KeyHandler_Backspace_witness :
  exists e',
    edit_at (exec (Edit.KeyHandler 0 (key termbox.KeyBackspace))
               (exec (Edit.KeyHandler 0 (key termbox.KeyEnd)) demo_home)) 0
    = Some e'
    /\ e_display e' = [49; 50; 51; 52].
Proof.
  apply (KeyHandler_Backspace
           (exec (Edit.KeyHandler 0 (key termbox.KeyEnd)) demo_home) 0
           (default (Edit.NewEdit 0 0)
              (edit_at (exec (Edit.KeyHandler 0 (key termbox.KeyEnd))
                          demo_home) 0))
           (key termbox.KeyBackspace)).
  - vm_compute. reflexivity.
  - left. reflexivity.
  - vm_compute. split; [reflexivity | discriminate].
Defined.

(** X11: the home key (or Ctrl-A) puts the caret on the first rune, the
    end key (or Ctrl-E) behind the last one, and neither changes the
    text; Ctrl-U empties the text and puts the caret on its start. *)
Theorem KeyHandler_Home_End (s : World) (self : nat) (e : Edit) (ev : Event) :
  edit_at s self = Some e ->
  len (e_display e) <= Int.max ->
  (ev_Key ev = termbox.KeyHome \/ ev_Key ev = termbox.KeyCtrlA ->
     exists e', edit_at (exec (Edit.KeyHandler self ev) s) self = Some e'
       /\ e_display e' = e_display e /\ caret_index e' = 0 /\ e_at e' = 0)
  /\ (ev_Key ev = termbox.KeyEnd \/ ev_Key ev = termbox.KeyCtrlE ->
      exists e', edit_at (exec (Edit.KeyHandler self ev) s) self = Some e'
        /\ e_display e' = e_display e
        /\ caret_index e' = len (e_display e))
  /\ (ev_Key ev = termbox.KeyCtrlU ->
      exists e', edit_at (exec (Edit.KeyHandler self ev) s) self = Some e'
        /\ e_display e' = [] /\ caret_index e' = 0 /\ e_at e' = 0).
Proof.
  intros Hat Hmax.
  pose proof (len_nonneg (e_display e)) as Hlen.
  assert (Hn : Int.in_range (len (e_display e)))
    by (unfold Int.in_range, Int.min, Int.max in *; lia).
  split; [|split].
  - intros Hk.
    exists (set_e_at 0 (set_e_cx (e_trueX e) e)).
    split; [|split; [reflexivity | split; [|reflexivity]]].
    + unfold exec, Edit.KeyHandler.
      rewrite (bind_Return _ _ _ _ _ (Edit_get_at _ _ _ Hat)).
      destruct Hk as [Hk | Hk]; rewrite Hk; cbv zeta.
      * decide_key termbox.KeyHome.
        apply (edit_at_put_then s self e _ _ Hat), widgets_cursor_Render.
      * decide_key termbox.KeyCtrlA.
        apply (edit_at_put_then s self e _ _ Hat), widgets_cursor_Render.
    + unfold caret_index. cbn. rewrite Int_sub_diag. reflexivity.
  - intros Hk.
    assert (Hrun : Edit.KeyHandler self ev s
      = (if len (e_display e) <? e_trueW e -i 1 then
           let e := set_e_cx (e_trueX e +i len (e_display e) -i e_at e) e in
           Edit.put self e;; setCursor (e_cx e) (e_cy e);; mret true
         else
           let e := set_e_cx (e_trueX e +i e_trueW e -i 1) e in
           let e := set_e_at (len (e_display e) -i e_trueW e +i 1) e in
           Edit.put self e;; setCursor (e_cx e) (e_cy e);;
           Edit.Render self;; mret true) s).
    { unfold Edit.KeyHandler.
      rewrite (bind_Return _ _ _ _ _ (Edit_get_at _ _ _ Hat)).
      destruct Hk as [Hk | Hk]; rewrite Hk; cbv zeta.
      - decide_key termbox.KeyEnd. reflexivity.
      - decide_key termbox.KeyCtrlE. reflexivity. }
    unfold exec. rewrite Hrun. cbv zeta.
    destruct (len (e_display e) <? e_trueW e -i 1).
    + eexists. split; [|split].
      * apply (edit_at_put_then s self e _ _ Hat).
        apply preserves_bind; [apply widgets_setCursor | intros ?].
        apply preserves_ret.
      * reflexivity.
      * unfold caret_index. cbn. apply Int_add_sub_cancel, Hn.
    + eexists. split; [|split].
      * apply (edit_at_put_then s self e _ _ Hat), widgets_cursor_Render.
      * reflexivity.
      * unfold caret_index. cbn. apply Int_end_index, Hn.
  - intros Hk.
    exists (set_e_display [] (set_e_at 0 (set_e_cx (e_trueX e) e))).
    split; [|split; [reflexivity | split; [|reflexivity]]].
    + unfold exec, Edit.KeyHandler.
      rewrite (bind_Return _ _ _ _ _ (Edit_get_at _ _ _ Hat)).
      rewrite Hk; cbv zeta. decide_key termbox.KeyCtrlU.
      apply (edit_at_put_then s self e _ _ Hat), widgets_cursor_Render.
    + unfold caret_index. cbn. rewrite Int_sub_diag. reflexivity.
Qed.

Lemma KeyHandler_Home_End_witness :
  exists e',
    edit_at (exec (Edit.KeyHandler 0 (key termbox.KeyEnd)) demo_home) 0
    = Some e'
    /\ e_display e' = [49; 50; 51; 52; 53]
    /\ caret_index e' = 5.
Proof.
  apply (KeyHandler_Home_End demo_home 0 demo_home_edit (key termbox.KeyEnd)).
  - vm_compute. reflexivity.
  - vm_compute. discriminate.
  - left. reflexivity.
Defined.

(** ** Focus navigation: the forward scans *)

Lemma focus_Edit_put self e :
  preserves (fun s => w_focus (win s)) (Edit.put self e).
Proof. unfold Edit.put. apply preserves_modify. reflexivity. Qed.

Lemma focus_setCursor x y :
  preserves (fun s => w_focus (win s)) (setCursor x y).
Proof. apply preserves_setCursor; intros; reflexivity. Qed.

(** Giving a widget the focus does not move the focus index. *)
Lemma focus_Focus self : preserves (fun s => w_focus (win s)) (Focus self).
Proof.
  unfold Focus, Label.Focus, List.Focus, Edit.Focus. frame;
    auto using focus_Edit_put, focus_setCursor, preserves_Edit_get.
Qed.

(** [Focus] returns on every widget of the window. *)
Lemma Focus_returns (s : World) (self : nat) (widget : Widgeter) :
  widgets (win s) !! self = Some widget -> eval (Focus self) s = Return tt.
Proof.
  intros Hw. unfold eval, Focus, gets, mbind, M_bind. cbn.
  rewrite Hw. destruct widget; [reflexivity | | reflexivity].
  unfold Edit.Focus, Edit.get, gets, mbind, M_bind. cbn. rewrite Hw.
  reflexivity.
Qed.

Lemma first_focusable_lt (ws : list Widgeter) (k : nat) :
  first_focusable ws = Some k -> (k < length ws)%nat.
Proof.
  revert k. induction ws as [|w ws IH]; intros k; [discriminate|].
  cbn [first_focusable length]. destruct (CanFocus w).
  - intros [= <-]. lia.
  - destruct (first_focusable ws) as [j|]; [|discriminate].
    intros [= <-]. specialize (IH j eq_refl). lia.
Qed.

(** The scan of [focusWidget]: the first widget that can take the focus
    gets it; without one the scan changes nothing. *)
Lemma focusWidget_scan_spec (ws : list Widgeter) :
  forall (i : nat) (s : World),
    focusWidget_scan i ws s
    = match first_focusable ws with
      | Some k => (set_focus (Z.of_nat (i + k));; Focus (i + k)) s
      | None => (Return tt, s)
      end.
Proof.
  induction ws as [|w ws IH]; intros i s; [reflexivity|].
  cbn [focusWidget_scan first_focusable]. destruct (CanFocus w).
  - rewrite Nat.add_0_r. reflexivity.
  - rewrite IH. destruct (first_focusable ws) as [k|]; [|reflexivity].
    cbn [fmap option_fmap option_map]. rewrite Nat.add_succ_r. reflexivity.
Qed.

Lemma focus_after_set_focus (s : World) (i : nat) :
  w_focus (win (exec (set_focus (Z.of_nat i);; Focus i) s)) = Z.of_nat i.
Proof.
  change (exec (set_focus (Z.of_nat i);; Focus i) s)
    with (exec (Focus i) (set_win (set_w_focus (Z.of_nat i) (win s)) s)).
  rewrite (focus_Focus i). reflexivity.
Qed.

Lemma eval_after_set_focus (s : World) (i : nat) (widget : Widgeter) :
  widgets (win s) !! i = Some widget ->
  eval (set_focus (Z.of_nat i);; Focus i) s = Return tt.
Proof.
  intros Hw.
  change (eval (set_focus (Z.of_nat i);; Focus i) s)
    with (eval (Focus i) (set_win (set_w_focus (Z.of_nat i) (win s)) s)).
  apply (Focus_returns _ i widget). exact Hw.
Qed.

Lemma focusWidget_unfocused (s : World) :
  w_focus (win s) < 0 ->
  focusWidget s
  = focusWidget_scan 0 (widgets (win s)) (set_cursor (-1, -1) s).
Proof.
  intros Hf. unfold focusWidget, setCursor, modify, gets, mbind, M_bind. cbn.
  replace (w_focus (win s) <? 0) with true by (symmetry; apply Z.ltb_lt; lia).
  reflexivity.
Qed.

(** X12: without a focused widget, [focusWidget] gives the focus to the
    first widget that can take it; when no widget can, it returns with
    the focus index as it was. *)
Theorem focusWidget_first_focusable (s : World) :
  w_focus (win s) < 0 ->
  eval focusWidget s = Return tt
  /\ w_focus (win (exec focusWidget s))
     = match first_focusable (widgets (win s)) with
       | Some k => Z.of_nat k
       | None => w_focus (win s)
       end.
Proof.
  intros Hf.
  unfold eval, exec. rewrite (focusWidget_unfocused s Hf), focusWidget_scan_spec.
  destruct (first_focusable (widgets (win s))) as [k|] eqn:Hk.
  - cbn [Nat.add]. split.
    + pose proof (first_focusable_lt _ _ Hk) as Hlt.
      destruct (lookup_lt_is_Some_2 (widgets (win s)) k Hlt) as [widget Hw].
      apply (eval_after_set_focus (set_cursor (-1, -1) s) k widget). exact Hw.
    + apply (focus_after_set_focus (set_cursor (-1, -1) s) k).
  - split; reflexivity.
Qed.

Lemma focusWidget_first_focusable_witness :
  w_focus (win (exec focusWidget
                  (exec (_ ← AddLabel 0 1 (str "name");
                         AddEdit 0 2 5 (Some 0%nat))
                     (NewWindow 20 5 {[ 0%nat := str "abc" ]}))))
  = 1.
Proof.
  destruct (focusWidget_first_focusable
              (exec (_ ← AddLabel 0 1 (str "name"); AddEdit 0 2 5 (Some 0%nat))
                 (NewWindow 20 5 {[ 0%nat := str "abc" ]}))) as [_ H].
  - vm_compute. reflexivity.
  - rewrite H. vm_compute. reflexivity.
Defined.

(** The scan of [focusNext] over the widgets behind the focused one. *)
Lemma focusNext_scan_spec (focus : Z) (ws : list Widgeter) :
  forall (i : nat) (s : World),
    focusNext_scan focus i ws s
    = match first_focusable ws with
      | Some k =>
          let j := Z.of_nat (i + k) +i focus +i 1 in
          (set_focus j;; Focus (Z.to_nat j);; mret true)
            (set_cursor (-1, -1) s)
      | None => (Return false, s)
      end.
Proof.
  induction ws as [|w ws IH]; intros i s; [reflexivity|].
  cbn [focusNext_scan first_focusable]. destruct (CanFocus w); cbn [negb].
  - rewrite Nat.add_0_r. reflexivity.
  - rewrite IH. destruct (first_focusable ws) as [k|]; [|reflexivity].
    cbn [fmap option_fmap option_map]. rewrite Nat.add_succ_r. reflexivity.
Qed.

(** X13: from a focused widget, [focusNext] gives the focus to the next
    widget behind it that can take it; when there is none it starts over
    from the first widget, and when no widget at all can take the focus
    the window is left without a focused widget. *)
Theorem focusNext_next_focusable (s : World) :
  0 <= w_focus (win s) < len (widgets (win s)) ->
  len (widgets (win s)) <= Int.max ->
  eval focusNext s = Return tt
  /\ w_focus (win (exec focusNext s))
     = match first_focusable
               (drop (Z.to_nat (w_focus (win s) + 1)) (widgets (win s))) with
       | Some k => w_focus (win s) + 1 + Z.of_nat k
       | None =>
           match first_focusable (widgets (win s)) with
           | Some k => Z.of_nat k
           | None => -1
           end
       end.
Proof.
  intros Hf Hmax.
  set (ws := widgets (win s)) in *. set (focus := w_focus (win s)) in *.
  assert (Hf1 : focus +i 1 = focus + 1).
  { apply Int_wrap_small. unfold Int.in_range, Int.min, Int.max in *. lia. }
  assert (Hrun : focusNext s
    = (found ← focusNext_scan focus 0 (drop (Z.to_nat (focus + 1)) ws);
       if (found : bool) then mret tt else set_focus (-1);; focusWidget) s).
  { unfold focusNext, gets. unfold mbind at 1, M_bind at 1. cbv beta iota.
    fold ws focus.
    replace (focus <? 0) with false by (symmetry; apply Z.ltb_ge; lia).
    rewrite Hf1, slice_from_spec by lia. reflexivity. }
  assert (Hpair : exists s',
            focusNext s = (Return tt, s')
            /\ w_focus (win s')
               = match first_focusable (drop (Z.to_nat (focus + 1)) ws) with
                 | Some k => focus + 1 + Z.of_nat k
                 | None =>
                     match first_focusable ws with
                     | Some k => Z.of_nat k
                     | None => -1
                     end
                 end).
  2:{ destruct Hpair as (s' & Hs' & Hfo). unfold eval, exec.
      rewrite Hs'. split; [reflexivity | exact Hfo]. }
  rewrite Hrun. clear Hrun.
  unfold mbind at 1, M_bind at 1. rewrite focusNext_scan_spec.
  destruct (first_focusable (drop (Z.to_nat (focus + 1)) ws)) as [k|] eqn:Hk.
  - pose proof (first_focusable_lt _ _ Hk) as Hlt.
    rewrite length_drop in Hlt. cbn [Nat.add]. cbv zeta.
    assert (Hj : Z.of_nat k +i focus +i 1 = Z.of_nat (Z.to_nat (focus + 1) + k)).
    { unfold len in *. unfold Int.add.
      rewrite (Int_wrap_small (Z.of_nat k + focus))
        by (unfold Int.in_range, Int.min, Int.max in *; lia).
      rewrite Int_wrap_small
        by (unfold Int.in_range, Int.min, Int.max in *; lia).
      lia. }
    rewrite Hj, Nat2Z.id.
    set (i := (Z.to_nat (focus + 1) + k)%nat).
    assert (Hi : (i < length ws)%nat) by (unfold i, len in *; lia).
    destruct (lookup_lt_is_Some_2 ws i Hi) as [widget Hw].
    pose proof (eval_after_set_focus (set_cursor (-1, -1) s) i widget Hw)
      as Hev.
    pose proof (focus_after_set_focus (set_cursor (-1, -1) s) i) as Hfo.
    unfold eval, exec in Hev, Hfo.
    change ((set_focus (Z.of_nat i);; Focus i;; mret true)
              (set_cursor (-1, -1) s))
      with (((set_focus (Z.of_nat i);; Focus i) ≫= (λ _, mret true))
              (set_cursor (-1, -1) s)).
    unfold mbind at 1, M_bind at 1.
    destruct ((set_focus (Z.of_nat i);; Focus i) (set_cursor (-1, -1) s))
      as [o s1].
    cbn [fst snd] in Hev, Hfo. subst o. cbv beta iota.
    exists s1. split; [reflexivity|]. rewrite Hfo. unfold i. lia.
  - cbv beta iota.
    change ((set_focus (-1);; focusWidget) s)
      with (focusWidget (set_win (set_w_focus (-1) (win s)) s)).
    set (s1 := set_win (set_w_focus (-1) (win s)) s).
    assert (Hs1 : w_focus (win s1) < 0) by (cbn; lia).
    rewrite (focusWidget_unfocused s1 Hs1), focusWidget_scan_spec.
    change (widgets (win s1)) with ws.
    destruct (first_focusable ws) as [j|] eqn:Hj.
    + cbn [Nat.add].
      pose proof (first_focusable_lt _ _ Hj) as Hlt.
      destruct (lookup_lt_is_Some_2 ws j Hlt) as [widget Hw].
      pose proof (eval_after_set_focus (set_cursor (-1, -1) s1) j widget Hw)
        as Hev.
      pose proof (focus_after_set_focus (set_cursor (-1, -1) s1) j) as Hfo.
      unfold eval, exec in Hev, Hfo.
      destruct ((set_focus (Z.of_nat j);; Focus j) (set_cursor (-1, -1) s1))
        as [o s2].
      cbn [fst snd] in Hev, Hfo. subst o.
      exists s2. split; [reflexivity | exact Hfo].
    + eexists. split; reflexivity.
Qed.

Lemma focusNext_next_focusable_witness :
  w_focus (win (exec focusNext
                  (exec (_ ← AddEdit 0 0 5 (Some 0%nat);
                         _ ← AddLabel 0 1 (str "name");
                         _ ← AddEdit 0 2 5 (Some 0%nat);
                         focusWidget)
                     (NewWindow 20 5 {[ 0%nat := str "abc" ]}))))
  = 2.
Proof.
  destruct (focusNext_next_focusable
              (exec (_ ← AddEdit 0 0 5 (Some 0%nat);
                     _ ← AddLabel 0 1 (str "name");
                     _ ← AddEdit 0 2 5 (Some 0%nat);
                     focusWidget)
                 (NewWindow 20 5 {[ 0%nat := str "abc" ]}))) as [_ H].
  - vm_compute. split; [discriminate | reflexivity].
  - vm_compute. discriminate.
  - rewrite H. vm_compute. reflexivity.
Defined.

(** ** The list widget: appending and paging *)





(** ** The status label: padding to the window width *)

(** The characters of a number are ASCII. *)
Lemma digit_of_ascii (c : byte) (d : Z) :
  digit_of c = Some d -> byte_val c < 0x80.
Proof.
  intros H. destruct c; vm_compute in H; try discriminate; reflexivity.
Qed.

Lemma parse_uint_ascii (s : gostring) (n un : Z) :
  parse_uint n s = inl un -> Forall (fun c => byte_val c < 0x80) s.
Proof.
  revert n. induction s as [|c s IH]; intros n H; [constructor|].
  cbn [parse_uint] in H. destruct (digit_of c) as [d|] eqn:Hd; [|discriminate].
  destruct (n * 10 + d >? 2 ^ 64 - 1); [discriminate|].
  constructor; [eapply digit_of_ascii, Hd | eapply IH, H].
Qed.

Lemma good_field_ascii (f : gostring) :
  good_field f -> Forall (fun c => byte_val c < 0x80) f.
Proof.
  intros (n & Hn & _). apply Atoi_digits in Hn as (ds & un & Hf & Hp).
  apply parse_uint_ascii in Hp.
  destruct Hf as [-> | [-> | ->]]; [exact Hp | |];
    constructor; [reflexivity | exact Hp | reflexivity | exact Hp].
Qed.

Lemma join_fields_ascii (fs : list gostring) :
  Forall good_field fs -> Forall (fun c => byte_val c < 0x80) (join_fields fs).
Proof.
  induction 1 as [|f fs Hf Hfs IH]; [constructor|].
  destruct fs as [|g fs]; [apply good_field_ascii, Hf|].
  rewrite join_fields_cons by discriminate.
  apply Forall_app. split; [apply good_field_ascii, Hf|].
  constructor; [reflexivity | exact IH].
Qed.

Lemma sequence_ascii (fs : list gostring) :
  Forall good_field fs ->
  Forall (fun c => byte_val c < 0x80) (piece_bytes (Sequence fs)).
Proof.
  intros H. cbn [piece_bytes esc_marker app].
  constructor; [reflexivity|]. constructor; [reflexivity|].
  apply Forall_app. split; [apply join_fields_ascii, H|].
  constructor; [reflexivity | constructor].
Qed.

(** An ASCII byte is a rune of its own. *)
Lemma DecodeRuneInString_ascii (b : byte) (t : gostring) :
  byte_val b < 0x80 -> utf8.DecodeRuneInString (b :: t) = (byte_val b, 1).
Proof.
  intros Hb. rewrite DecodeRuneInString_arith by discriminate.
  unfold decode_arith, utf8.at_. cbn [nth].
  replace (byte_val b <? 128) with true by (symmetry; apply Z.ltb_lt; lia).
  reflexivity.
Qed.

Lemma runes_of_string_loop_ascii (a : gostring) :
  Forall (fun c => byte_val c < 0x80) a ->
  forall (t : gostring) (fuel : nat), (length (a ++ t) <= fuel)%nat ->
    runes_of_string_loop fuel (a ++ t)
    = map byte_val a ++ runes_of_string_loop (fuel - length a) t.
Proof.
  induction 1 as [|c a Hc Ha IH]; intros t fuel Hlen.
  - cbn [app map length]. rewrite Nat.sub_0_r. reflexivity.
  - destruct fuel as [|fuel]; [cbn in Hlen; lia|].
    cbn [app runes_of_string_loop].
    rewrite (DecodeRuneInString_ascii c (a ++ t) Hc).
    change (drop (Z.to_nat 1) (c :: a ++ t)) with (a ++ t).
    rewrite IH by (cbn in Hlen; lia). reflexivity.
Qed.

(** The runes of a text: the shown runes, and one rune for each byte of
    a sequence. *)
Lemma runes_of_string_loop_pieces (ps : list piece) :
  Forall well_formed_piece ps ->
  forall fuel, (length (text_of ps) <= fuel)%nat ->
    len (runes_of_string_loop fuel (text_of ps))
    = len (shown_runes ps) + sequence_bytes ps.
Proof.
  induction 1 as [|p ps Hp Hps IH]; intros fuel Hlen.
  - destruct fuel; reflexivity.
  - rewrite text_of_cons in *.
    destruct p as [r|fs]; cbn [well_formed_piece] in Hp.
    + destruct Hp as [Hr _]. cbn [piece_bytes] in *.
      pose proof (EncodeRune_length r Hr) as Hl.
      rewrite length_app in Hlen.
      destruct fuel as [|fuel]; [unfold len in Hl; lia|].
      assert (Hne : utf8.EncodeRune r ++ text_of ps <> []).
      { intros E. apply (f_equal (@length byte)) in E.
        rewrite length_app in E. unfold len in Hl. cbn in E. lia. }
      destruct (utf8.EncodeRune r ++ text_of ps) as [|c rest] eqn:E;
        [congruence|].
      cbn [runes_of_string_loop]. rewrite <- E.
      rewrite (DecodeRuneInString_EncodeRune r _ Hr), drop_len_app.
      change (shown_runes (Plain r :: ps)) with (r :: shown_runes ps).
      rewrite !len_cons, IH by (unfold len in Hl; lia).
      cbn [sequence_bytes fold_right]. fold (sequence_bytes ps). lia.
    + destruct Hp as [_ Hgood].
      rewrite (runes_of_string_loop_ascii _ (sequence_ascii fs Hgood))
        by exact Hlen.
      rewrite len_app, IH by (rewrite length_app in Hlen; lia).
      change (shown_runes (Sequence fs :: ps)) with (shown_runes ps).
      cbn [sequence_bytes fold_right]. fold (sequence_bytes ps).
      unfold len. rewrite length_map. lia.
Qed.

Lemma Repeat_blank (n : Z) :
  0 <= n ->
  strings_Repeat (str " ") n = Return (replicate (Z.to_nat n) " "%byte).
Proof.
  intros Hn. unfold strings_Repeat.
  replace (n <? 0) with false by (symmetry; apply Z.ltb_ge; lia).
  f_equal. induction (Z.to_nat n) as [|k IH]; [reflexivity|].
  cbn [replicate concat]. rewrite IH. reflexivity.
Qed.

Lemma shown_runes_bound (ps : list piece) :
  Forall well_formed_piece ps ->
  0 <= len (shown_runes ps)
  /\ len (shown_runes ps) + sequence_bytes ps <= len (text_of ps).
Proof.
  induction 1 as [|p ps Hp Hps IH]; [cbn; unfold len; cbn; lia|].
  rewrite len_text_of_cons. destruct p as [r|fs]; cbn [well_formed_piece] in Hp.
  - destruct Hp as [Hr _]. pose proof (EncodeRune_length r Hr).
    change (shown_runes (Plain r :: ps)) with (r :: shown_runes ps).
    rewrite len_cons. cbn [sequence_bytes fold_right piece_bytes] in *.
    fold (sequence_bytes ps). lia.
  - change (shown_runes (Sequence fs :: ps)) with (shown_runes ps).
    cbn [sequence_bytes fold_right]. fold (sequence_bytes ps). lia.
Qed.

(** X15: a status label fills its line: the text, escape sequences
    included, is printed from column 0 with blanks around it, as many as
    the window has columns more than the text has shown runes (the bytes
    of the sequences are not counted); they go to the right for
    [JustifyLeft], to the left for [JustifyRight], and half to each side
    for [JustifyCenter], the odd one to the right. *)
Theorem Label_Render_status (s : World) (self : nat) (l : Label)
    (ps : list piece) :
  widgets (win s) !! self = Some (WLabel l) ->
  lb_status l = true -> lb_visibility l <> VisibilityHide ->
  lb_text l = text_of ps -> Forall well_formed_piece ps ->
  len (text_of ps) <= Int.max -> 0 <= w_x (win s) <= Int.max ->
  let spacing := Z.max 0 (w_x (win s) - len (shown_runes ps)) in
  let '(nl, nr) :=
    match lb_justify l with
    | JustifyLeft => (0, spacing)
    | JustifyRight => (spacing, 0)
    | JustifyCenter => (spacing / 2, spacing - spacing / 2)
    end in
  Label.Render self s
  = Window.printf 0 (lb_trueY l) (lb_attr l)
      (replicate (Z.to_nat nl) " "%byte ++ lb_text l
       ++ replicate (Z.to_nat nr) " "%byte) s.
Proof.
  intros Hw Hstatus Hvis Htext Hps Hmax Hx spacing.
  assert (Hget : Label.get self s = (Return l, s)).
  { unfold Label.get, gets, mbind, M_bind. cbn. rewrite Hw. reflexivity. }
  destruct (shown_runes_bound ps Hps) as [Hshown Hbound].
  pose proof (sequence_bytes_bound ps) as Hseq.
  assert (Hesc : EscapedLen (fg s) (bg s) (text_of ps)
                 = Return (sequence_bytes ps)).
  { unfold EscapedLen.
    destruct (Z.eqb_spec (len (text_of ps)) 0) as [E|E].
    - f_equal. lia.
    - rewrite (EscapedLen_loop_pieces (fg s) (bg s) ps Hps _ 0 (le_n _))
        by lia.
      reflexivity. }
  assert (Hrunes : len (runes_of_string (text_of ps))
                   = len (shown_runes ps) + sequence_bytes ps).
  { apply (runes_of_string_loop_pieces ps Hps). reflexivity. }
  assert (Hspacing :
            (if w_x (win s) -i len (runes_of_string (text_of ps))
                +i sequence_bytes ps <? 0
             then 0
             else w_x (win s) -i len (runes_of_string (text_of ps))
                  +i sequence_bytes ps) = spacing).
  { rewrite Hrunes.
    assert (Hsp : w_x (win s) -i (len (shown_runes ps) + sequence_bytes ps)
                  +i sequence_bytes ps
                  = w_x (win s) - len (shown_runes ps)).
    { unfold Int.sub, Int.add.
      rewrite (Int_wrap_small (w_x (win s) - _))
        by (unfold Int.in_range, Int.min, Int.max in *; lia).
      rewrite Int_wrap_small
        by (unfold Int.in_range, Int.min, Int.max in *; lia).
      lia. }
    rewrite Hsp. unfold spacing.
    destruct (Z.ltb_spec (w_x (win s) - len (shown_runes ps)) 0); lia. }
  assert (Hrun : Label.Render self s
    = ('(left_, right_) ← lift (Label.padding (lb_justify l) spacing);
       Window.printf 0 (lb_trueY l) (lb_attr l)
         (left_ ++ lb_text l ++ right_)) s).
  { unfold Label.Render. rewrite (bind_Return _ _ _ _ _ Hget).
    rewrite Hstatus. cbn [negb].
    destruct (lb_visibility l); [|congruence|];
      unfold gets; unfold mbind at 1 2 3, M_bind at 1 2 3; cbv beta iota;
      rewrite Htext, Hesc; unfold lift at 1;
      unfold mbind at 1, M_bind at 1; cbv beta iota zeta;
      unfold lift at 1; cbv beta iota zeta;
      rewrite Hspacing; reflexivity. }
  rewrite Hrun. clear Hrun.
  assert (Hsp0 : 0 <= spacing) by (unfold spacing; lia).
  assert (Hspmax : spacing <= Int.max) by (unfold spacing; lia).
  unfold Label.padding.
  destruct (lb_justify l).
  - rewrite (Repeat_blank spacing Hsp0). reflexivity.
  - rewrite (Repeat_blank spacing Hsp0). reflexivity.
  - rewrite Z.quot_div_nonneg, Z.rem_mod_nonneg by lia.
    assert (Hhalf : spacing / 2 +i spacing mod 2 = spacing - spacing / 2).
    { unfold Int.add. rewrite Int_wrap_small.
      - Z.div_mod_to_equations. lia.
      - unfold Int.in_range, Int.min, Int.max in *.
        Z.div_mod_to_equations. lia. }
    rewrite Hhalf, !Repeat_blank by (Z.div_mod_to_equations; lia).
    reflexivity.
Qed.

Lemma Label_Render_status_witness :
  let s := exec (AddStatus 0 JustifyCenter
                   (str "ab" ++ ESC :: str "[1;31mc" ++ ESC :: str "[0m"))
             (NewWindow 10 2 ∅) in
  Label.Render 0 s
  = Window.printf 0 0 (mkAttributes 0 0)
      (str "   ab" ++ ESC :: str "[1;31mc" ++ ESC :: str "[0m    ") s.
Proof.
  intros s.
  apply (Label_Render_status s 0
           (mkLabel 0 0 0 0
              (str "ab" ++ ESC :: str "[1;31mc" ++ ESC :: str "[0m")
              (mkAttributes 0 0) true JustifyCenter VisibilityGet)
           [Plain 97; Plain 98; Sequence [str "1"; str "31"]; Plain 99;
            Sequence [str "0"]]).
  - vm_compute. reflexivity.
  - reflexivity.
  - discriminate.
  - reflexivity.
  - repeat (constructor;
            [first [ split; [split; vm_compute; intuition discriminate
                            | discriminate]
                   | split; [discriminate
                            | repeat (constructor;
                                      [eexists; split; vm_compute; reflexivity|]);
                              constructor] ]|]).
    constructor.
  - vm_compute. discriminate.
  - vm_compute. split; discriminate.
Defined.

(** ** Drawing leaves everything but the cells alone *)

Lemma draws_only_refl (s : World) : draws_only s s.
Proof. unfold draws_only. repeat split; auto. Qed.

Lemma draws_only_trans (s1 s2 s3 : World) :
  draws_only s1 s2 -> draws_only s2 s3 -> draws_only s1 s3.
Proof.
  unfold draws_only.
  intros (H1 & H2 & H3 & H4 & H5 & H6 & H7 & H8 & H9 & H10 & H11)
         (G1 & G2 & G3 & G4 & G5 & G6 & G7 & G8 & G9 & G10 & G11).
  repeat split; try congruence.
  intros i c Hc. destruct (G11 i c Hc) as [Hc2 | Hd]; [|right; exact Hd].
  apply (H11 i c Hc2).
Qed.

Lemma draws_ret {A} (a : A) : draws (mret a : M A).
Proof. intros s. apply draws_only_refl. Qed.

Lemma draws_gets {A} (f : World -> A) : draws (gets f).
Proof. intros s. apply draws_only_refl. Qed.

Lemma draws_lift {A} (o : outcome A) : draws (lift o).
Proof. intros s. apply draws_only_refl. Qed.

Lemma draws_panic {A} : draws (@panic A).
Proof. intros s. apply draws_only_refl. Qed.

Lemma draws_timeout {A} : draws (@timeout A).
Proof. intros s. apply draws_only_refl. Qed.

Lemma draws_bind {A B} (m : M A) (k : A -> M B) :
  draws m -> (forall a, draws (k a)) -> draws (m ≫= k).
Proof.
  intros Hm Hk s. specialize (Hm s).
  unfold exec, mbind, M_bind in *.
  destruct (m s) as [[a| |] s']; cbn [snd] in *; try exact Hm.
  eapply draws_only_trans; [exact Hm | apply Hk].
Qed.

(** [setCell] writes one cell and marks it dirty. *)
Lemma draws_setCell (x y : Z) (c : Cell) : draws (Window.setCell x y c).
Proof.
  intros s. unfold exec, Window.setCell, gets, mbind, M_bind. cbn [fst snd].
  destruct (_ && _); [|apply draws_only_refl].
  unfold modify, draws_only. cbn.
  repeat split; try reflexivity.
  - apply length_insert.
  - intros i c' Hc.
    destruct (decide (i = Z.to_nat (x +i y *i w_x (win s)))) as [-> | Hne].
    + apply list_lookup_insert_Some in Hc as [(_ & <- & _) | [Hne _]];
        [right; reflexivity | congruence].
    + rewrite list_lookup_insert_ne in Hc by congruence. left. exact Hc.
Qed.

Lemma draws_defaultAttributes : draws defaultAttributes.
Proof.
  unfold defaultAttributes.
  repeat (apply draws_bind; [apply draws_gets | intros ?]). apply draws_ret.
Qed.

Lemma draws_printf_loop (fuel : nat) :
  forall x y mx out xx c, draws (Window.printf_loop fuel x y mx out xx c).
Proof.
  induction fuel as [|fuel IH]; intros x y mx out xx c;
    destruct out as [|b out]; cbn [Window.printf_loop];
    try apply draws_ret; try apply draws_timeout.
  destruct (_ >? _); [apply draws_ret|].
  destruct (utf8.DecodeRuneInString (b :: out)) as [v w].
  assert (Hput : draws (Window.setCell (x +i xx) y (set_Ch v c);;
                        Window.printf_loop fuel x y mx
                          (drop (Z.to_nat w) (b :: out)) (xx +i 1)
                          (set_Ch v c))).
  { apply draws_bind; [apply draws_setCell | intros ?; apply IH]. }
  cbv zeta. destruct (v =? byte_val ESC); [|exact Hput].
  apply draws_bind; [apply draws_gets | intros f].
  apply draws_bind; [apply draws_gets | intros g].
  apply draws_bind; [apply draws_lift | intros r].
  destruct r as [[cc skip]|e]; [apply IH | exact Hput].
Qed.

Lemma draws_printf (x y : Z) (a : Attributes) (out : gostring) :
  draws (Window.printf x y a out).
Proof.
  unfold Window.printf. apply draws_bind; [apply draws_gets | intros w].
  apply draws_printf_loop.
Qed.

Lemma draws_Edit_get (self : nat) : draws (Edit.get self).
Proof.
  unfold Edit.get. apply draws_bind; [apply draws_gets | intros w].
  destruct (widgets w !! self) as [[| |]|];
    first [apply draws_ret | apply draws_panic].
Qed.

Lemma draws_Label_get (self : nat) : draws (Label.get self).
Proof.
  unfold Label.get. apply draws_bind; [apply draws_gets | intros w].
  destruct (widgets w !! self) as [[| |]|];
    first [apply draws_ret | apply draws_panic].
Qed.

Ltac draws_step :=
  match goal with
  | |- draws (mbind _ _) => apply draws_bind; [ | intros ? ]
  | |- draws (mret _) => apply draws_ret
  | |- draws (gets _) => apply draws_gets
  | |- draws panic => apply draws_panic
  | |- draws (lift _) => apply draws_lift
  | |- draws defaultAttributes => apply draws_defaultAttributes
  | |- draws (Window.printf _ _ _ _) => apply draws_printf
  | |- draws (Edit.get _) => apply draws_Edit_get
  | |- draws (Label.get _) => apply draws_Label_get
  | |- draws (if ?b then _ else _) => destruct b
  | |- draws (match ?x with _ => _ end) => destruct x
  | |- draws (let _ := _ in _) => cbv zeta
  end.

Lemma draws_Edit_clear (self : nat) : draws (Edit.clear self).
Proof. unfold Edit.clear. repeat draws_step. Qed.

Lemma draws_Label_clear (self : nat) : draws (Label.clear self).
Proof. unfold Label.clear. repeat draws_step. Qed.

(** X16: [printf] and the [Render] of an edit and of a label only draw:
    whatever their outcome, they write cells of the backing store and
    mark each cell they write as dirty, so that [flush] will show it;
    the size of the store, the window geometry, the widgets, the focus,
    the cursor and the string variables are left as they were. *)
Theorem Render_draws_only (s : World) :
  (forall x y a out, draws_only s (exec (Window.printf x y a out) s))
  /\ (forall self, draws_only s (exec (Edit.Render self) s))
  /\ (forall self, draws_only s (exec (Label.Render self) s)).
Proof.
  split; [|split].
  - intros x y a out. apply draws_printf.
  - intros self. revert s. change (draws (Edit.Render self)).
    unfold Edit.Render. repeat draws_step; apply draws_Edit_clear.
  - intros self. revert s. change (draws (Label.Render self)).
    unfold Label.Render. repeat draws_step; apply draws_Label_clear.
Qed.

(** ** The edit widget: setting and getting the text *)








(** ** The edit widget: moving the caret *)





(** ** The edit widget: resizing *)

Lemma Int_begin_index (x n : Z) : Int.in_range n -> (x +i n) -i x +i 0 = n.
Proof. intros Hn. wrap_arith. Qed.

(** Projections of an edit after field updates. *)
Ltac edit_fields :=
  cbn [e_x e_y e_trueX e_trueY e_trueW e_target e_display e_at e_width e_cx
       e_cy e_prevX e_prevY e_visibility e_attr
       set_e_trueX set_e_trueY set_e_trueW set_e_target set_e_display
       set_e_at set_e_width set_e_cx set_e_cy set_e_prevX set_e_prevY
       set_e_visibility set_e_attr negb] in *.

(** X19: when the width of the window has changed, [Resize] keeps a
    caret that was behind the last rune behind the last rune, and a caret
    that was on the first rune (or before it) on the first rune; the text
    is not touched and the new width is remembered. *)
Theorem Resize_keeps_caret_at_ends (s : World) (self : nat) (e : Edit) :
  edit_at s self = Some e ->
  w_x (win s) <> e_prevX e ->
  len (e_display e) <= Int.max ->
  Edit.Resize self s = (Return tt, exec (Edit.Resize self) s)
  /\ exists e',
       edit_at (exec (Edit.Resize self) s) self = Some e'
       /\ e_display e' = e_display e
       /\ e_prevX e' = w_x (win s)
       /\ (caret_index e = len (e_display e) ->
           caret_index e' = len (e_display e))
       /\ (caret_index e <= 0 -> caret_index e' = 0).
Proof.
  intros Hat Hx Hmax.
  pose proof (len_nonneg (e_display e)) as Hlen.
  assert (Hn : Int.in_range (len (e_display e)))
    by (unfold Int.in_range, Int.min, Int.max in *; lia).
  apply Z.eqb_neq in Hx.
  assert (Hex : exists e1,
            Edit.Resize self s = Edit.put self e1 s
            /\ e_display e1 = e_display e
            /\ e_prevX e1 = w_x (win s)
            /\ (caret_index e = len (e_display e) ->
                caret_index e1 = len (e_display e))
            /\ (caret_index e <= 0 -> caret_index e1 = 0)).
  { unfold Edit.Resize.
    rewrite (bind_Return _ _ _ _ _ (Edit_get_at _ _ _ Hat)).
    unfold gets at 1. unfold mbind at 1, M_bind at 1. cbv beta iota.
    fold (caret_index e).
    destruct (e_y e <? 0) eqn:Hy; destruct (e_width e <? 1) eqn:Hwd;
      destruct (w_y (win s) =? e_prevY e) eqn:Hpy;
      cbv zeta;
      repeat (progress (edit_fields; rewrite ?Hy, ?Hwd, ?Hpy, ?Hx)).
    all: eexists; split; [reflexivity|].
    all: match goal with
         | |- context [len ?d =? ?c] => destruct (Z.eqb_spec (len d) c) as [E|E]
         end.
    all: repeat match goal with
                | |- context [if ?b then _ else _] => destruct b eqn:?
                end.
    all: edit_fields; (split; [reflexivity|]); (split; [reflexivity|]).
    all: unfold caret_index at 2 4; edit_fields.
    all: split; [intros Hend | intros Hbegin]; try lia.
    all: try (apply Int_begin_index; assumption).
    all: try (apply Int_end_index; assumption).
    all: try (rewrite Int_sub_diag; reflexivity).
    all: try (match goal with
              | Hl : 0 <= len ?d |- _ => assert (E0 : len d = 0) by lia
              end; rewrite E0;
              first [ apply (Int_begin_index _ 0) | apply (Int_end_index _ _ 0) ];
              unfold Int.in_range, Int.min, Int.max; lia).
    all: try match goal with
             | |- context [if ?b then _ else _] => destruct b
             end; edit_fields; try lia. }
  destruct Hex as (e1 & Hrun & P).
  destruct (Edit_put_at s self e e1 Hat) as [Hput Hat'].
  unfold exec. rewrite Hrun.
  split; [exact Hput|]. exists e1. split; [exact Hat' | exact P].
Qed.

Lemma Resize_keeps_caret_at_ends_witness :
  let s0 := exec (Edit.KeyHandler 0 (key termbox.KeyEnd)) demo_home in
  let s := set_win (set_w_x 12 (win s0)) s0 in
  exists e',
    edit_at (exec (Edit.Resize 0) s) 0 = Some e'
    /\ e_display e' = [49; 50; 51; 52; 53]
    /\ e_prevX e' = 12
    /\ caret_index e' = 5.
Proof.
  intros s0 s.
  destruct (Resize_keeps_caret_at_ends s 0
              (default (Edit.NewEdit 0 0) (edit_at s 0)))
    as (_ & e' & Hat & Hd & Hp & Hend & _).
  - vm_compute. reflexivity.
  - vm_compute. discriminate.
  - vm_compute. discriminate.
  - exists e'. split; [exact Hat|]. split; [rewrite Hd; vm_compute; reflexivity|].
    split; [rewrite Hp; reflexivity|].
    rewrite Hend; vm_compute; reflexivity.
Defined.
